(** * nexus-ai RAG pipeline: a shallow embedding of the TypeScript sources

    The development follows the layout of [src/lib/rag]:
    - JavaScript string/array primitives the code relies on ([Js]);
    - the chunker ([chunking.ts]: [chunkByFixedSize], [chunkBySentence],
      [chunkByParagraph], [mergeSmallChunks], [chunkText]);
    - [truncateContext] ([service.ts]);
    - the vector store, embedding provider, retriever and pipeline;
    - [search] of the vector store once more, on the JSON values that the
      metadata column can hold;
    - the ingestion service, and the part of [parsers.ts] it depends on
      (the choice of a parser, the parsers that always reject, the CSV
      line reader).

    Numbers.  JavaScript numbers that the code uses as counts, sizes and
    character offsets are modelled as [Z] (all arithmetic performed on them is
    exact on integers below 2^53); similarity scores and embedding components
    are IEEE-754 binary64 values and are modelled by the kernel's primitive
    floats, and so is the one product of a size by 0.8, in
    [truncateContext].  Strings are sequences of code units; the model keeps code units
    below 256 ([ascii]). *)

From Stdlib Require Import Ascii String.
From Stdlib Require Import List ZArith Lia Bool Floats Sorted DecimalString
  DecimalNat.
Import ListNotations.

Set Warnings "-inexact-float".

Set Implicit Arguments.

(** ** JavaScript primitives *)

Module Js.

(** A JavaScript string, as its list of code units. *)
Definition jstring := list ascii.

Definition lit (s : string) : jstring := list_ascii_of_string s.

Definition len {A} (l : list A) : Z := Z.of_nat (length l).

(** The code units 10 (line feed) and friends, which Rocq string
    literals cannot spell. *)
Definition LF : ascii := ascii_of_nat 10.
Definition nl : jstring := [LF].
Definition nlnl : jstring := [LF; LF].

Definition ascii_is (a b : ascii) : bool := Ascii.eqb a b.

(** [\s] of a regular expression and the characters [String.prototype.trim]
    removes: WhiteSpace and LineTerminator.  Below 256 these are
    TAB, LF, VT, FF, CR, SPACE and NBSP. *)
Definition isWhiteSpace (c : ascii) : bool :=
  let n := nat_of_ascii c in
  ((9 <=? n) && (n <=? 13) || (n =? 32) || (n =? 160))%nat.

Definition isLineFeed (c : ascii) : bool := ascii_is c LF.

(** The character class [[.!?]]. *)
Definition isSentenceEnd (c : ascii) : bool :=
  ascii_is c "."%char || ascii_is c "!"%char || ascii_is c "?"%char.

Fixpoint dropWhile {A} (p : A -> bool) (l : list A) : list A :=
  match l with
  | [] => []
  | x :: r => if p x then dropWhile p r else l
  end.

Fixpoint takeWhile {A} (p : A -> bool) (l : list A) : list A :=
  match l with
  | [] => []
  | x :: r => if p x then x :: takeWhile p r else []
  end.

(** [s.trim()] *)
Definition trim (s : jstring) : jstring :=
  rev (dropWhile isWhiteSpace (rev (dropWhile isWhiteSpace s))).

(** Truthiness of a string: it is not empty. *)
Definition truthy (s : jstring) : bool :=
  match s with [] => false | _ => true end.

(** The relative index of [slice]: a negative argument counts from the
    end, and the result is clamped to [0 .. length]. *)
Definition relIndex (n : nat) (k : Z) : nat :=
  if (k <? 0)%Z then Z.to_nat (Z.max (Z.of_nat n + k) 0)
  else Nat.min (Z.to_nat k) n.

(** [l.slice(s, e)] for arrays and strings. *)
Definition slice {A} (l : list A) (s e : Z) : list A :=
  let from := relIndex (length l) s in
  let to := relIndex (length l) e in
  firstn (to - from) (skipn from l).

(** [l.slice(s)] *)
Definition sliceFrom {A} (l : list A) (s : Z) : list A :=
  skipn (relIndex (length l) s) l.

(** [parts.join(sep)] *)
Fixpoint join (sep : jstring) (parts : list jstring) : jstring :=
  match parts with
  | [] => []
  | [p] => p
  | p :: rest => p ++ sep ++ join sep rest
  end.

(** [s.lastIndexOf(c)] for a one-character needle: the greatest index
    holding [c], or -1. *)
Fixpoint lastIndexFrom (c : ascii) (s : jstring) (i : Z) (found : Z) : Z :=
  match s with
  | [] => found
  | x :: r => lastIndexFrom c r (i + 1) (if ascii_is x c then i else found)
  end.

Definition lastIndexOf (s : jstring) (c : ascii) : Z :=
  lastIndexFrom c s 0 (-1).

(** [s.split(re)] for a regular expression without capture groups that
    never matches the empty string.  [matchAt prev rest] is the length of
    the match of [re] that starts at the current position ([rest] is the
    text from there on, [prev] the code unit just before it, which a
    look-behind may inspect); 0 means no match.  As in SplitMatcher's
    loop, positions are tried from left to right; on a match the piece
    collected so far is emitted and scanning resumes after the match. *)
Fixpoint splitBy (matchAt : option ascii -> jstring -> nat)
         (prev : option ascii) (skip : nat) (cur : jstring) (s : jstring)
  : list jstring :=
  match s with
  | [] => [rev cur]
  | c :: rest =>
      match skip with
      | S k => splitBy matchAt (Some c) k cur rest
      | O =>
          match matchAt prev s with
          | O => splitBy matchAt (Some c) 0 (c :: cur) rest
          | S k => rev cur :: splitBy matchAt (Some c) k [] rest
          end
      end
  end.

Definition split (matchAt : option ascii -> jstring -> nat) (s : jstring)
  : list jstring :=
  splitBy matchAt None 0 [] s.

(** [/\s+/] *)
Definition reWhitespace (_ : option ascii) (s : jstring) : nat :=
  length (takeWhile isWhiteSpace s).

(** [/\n\n+/] *)
Definition reBlankLines (_ : option ascii) (s : jstring) : nat :=
  let n := length (takeWhile isLineFeed s) in
  if (2 <=? n)%nat then n else 0%nat.

(** [/(?<=[.!?])\s+/] *)
Definition reAfterSentence (prev : option ascii) (s : jstring) : nat :=
  match prev with
  | Some p => if isSentenceEnd p then length (takeWhile isWhiteSpace s) else 0%nat
  | None => 0%nat
  end.

(** [x || d] on numbers: [undefined] and 0 are falsy. *)
Definition orDefault (x : option Z) (d : Z) : Z :=
  match x with
  | Some v => if (v =? 0)%Z then d else v
  | None => d
  end.

End Js.

Import Js.

Declare Scope js_scope.
Delimit Scope js_scope with js.
Notation "'$' s" := (Js.lit s%string) (at level 1, format "'$' s") : js_scope.
Open Scope js_scope.
Open Scope Z_scope.

(** ** chunking.ts *)

Inductive Strategy := fixed | semantic | paragraph | sentence.

(** [ChunkOptions].  The optional [separators] field is read by the
    chunkers into a local that no statement uses; it is left out. *)
Record ChunkOptions := mkChunkOptions {
  strategy : Strategy;
  chunkSize : Z;
  chunkOverlap : Z;
  minChunkSize : Z
}.

(** [Partial<ChunkOptions>] *)
Record PartialChunkOptions := mkPartialChunkOptions {
  p_strategy : option Strategy;
  p_chunkSize : option Z;
  p_chunkOverlap : option Z;
  p_minChunkSize : option Z
}.

(** [TextChunk].  [index] is produced by a counter that starts at 0. *)
Record TextChunk := mkTextChunk {
  content : jstring;
  index : nat;
  startChar : Z;
  endChar : Z
}.

Definition withChunkSize (o : ChunkOptions) (n : Z) : ChunkOptions :=
  mkChunkOptions (strategy o) n (chunkOverlap o) (minChunkSize o).

(** *** mergeSmallChunks *)

(** The body of the [for] loop of [mergeSmallChunks]: [current] is the
    chunk being accumulated, [rest] the chunks [chunks[i..]] still to be
    visited; the result is what ends up in [merged]. *)
Fixpoint mergeLoop (minSize : Z) (current : TextChunk) (rest : list TextChunk)
  : list TextChunk :=
  match rest with
  | [] => [current]
  | next :: rest' =>
      if len (content current) <? minSize then
        mergeLoop minSize
          (mkTextChunk (content current ++ nlnl ++ content next)
                       (index current) (startChar current) (endChar next))
          rest'
      else current :: mergeLoop minSize next rest'
  end.

Definition mergeSmallChunks (chunks : list TextChunk) (minSize : Z)
  : list TextChunk :=
  match chunks with
  | [] => chunks
  | [_] => chunks
  | first :: rest => mergeLoop minSize first rest
  end.

(** *** chunkByFixedSize *)

(** The [while (start < words.length)] loop.  The loop does not terminate
    when [chunkSize = chunkOverlap] and more words remain, hence the
    [fuel]; [None] is "out of fuel". *)
Fixpoint fixedLoop (fuel : nat) (words : list jstring) (size overlap : Z)
         (start : Z) (idx : nat) (chunks : list TextChunk)
  : option (list TextChunk) :=
  match fuel with
  | O => None
  | S fuel' =>
      if start <? len words then
        let end_ := Z.min (start + size) (len words) in
        let chunkWords := slice words start end_ in
        let text := join $" " chunkWords in
        let beforeText := len (join $" " (slice words 0 start)) in
        let beforeSpaces := start in
        let chunks' :=
          chunks ++ [mkTextChunk text idx (beforeText + beforeSpaces)
                                 (beforeText + beforeSpaces + len text)] in
        if (end_ - start <? overlap) || (len words <=? end_) then Some chunks'
        else fixedLoop fuel' words size overlap
                       (start + (size - overlap)) (S idx) chunks'
      else Some chunks
  end.

(** Enough fuel for every terminating run: each iteration that continues
    advances [start] by at least one word. *)
Definition fixedFuel (words : list jstring) : nat := S (length words).

Definition chunkByFixedSize (text : jstring) (options : ChunkOptions)
  : option (list TextChunk) :=
  let words := split reWhitespace text in
  match fixedLoop (fixedFuel words) words (chunkSize options)
                  (chunkOverlap options) 0 0%nat [] with
  | Some chunks => Some (mergeSmallChunks chunks (minChunkSize options))
  | None => None
  end.

(** *** The accumulator shared by the sentence and paragraph chunkers *)

Record Acc := mkAcc {
  chunks : list TextChunk;
  currentChunk : jstring;
  currentStart : Z;
  nextIndex : nat
}.

Definition initAcc : Acc := mkAcc [] [] 0 0%nat.

(** [chunks.push({content: currentChunk.trim(), index: index++,
                  startChar: currentStart,
                  endChar: currentStart + currentChunk.length})] *)
Definition pushCurrent (a : Acc) : Acc :=
  mkAcc (chunks a ++ [mkTextChunk (trim (currentChunk a)) (nextIndex a)
                                  (currentStart a)
                                  (currentStart a + len (currentChunk a))])
        (currentChunk a) (currentStart a) (S (nextIndex a)).

(** [chunks.push({...sub, index: index++,
                  startChar: currentStart + sub.startChar,
                  endChar: currentStart + sub.endChar})] *)
Definition pushSub (a : Acc) (sub : TextChunk) : Acc :=
  mkAcc (chunks a ++ [mkTextChunk (content sub) (nextIndex a)
                                  (currentStart a + startChar sub)
                                  (currentStart a + endChar sub)])
        (currentChunk a) (currentStart a) (S (nextIndex a)).

(** [currentStart = chunks[chunks.length - 1]?.endChar || currentStart] *)
Definition resumeAfterLast (a : Acc) : Acc :=
  let start' :=
    match last (map Some (chunks a)) None with
    | Some c => if endChar c =? 0 then currentStart a else endChar c
    | None => currentStart a
    end in
  mkAcc (chunks a) (currentChunk a) start' (nextIndex a).

Definition setCurrentChunk (a : Acc) (s : jstring) : Acc :=
  mkAcc (chunks a) s (currentStart a) (nextIndex a).

Definition setCurrentStart (a : Acc) (z : Z) : Acc :=
  mkAcc (chunks a) (currentChunk a) z (nextIndex a).

(** The final [if (currentChunk.trim()) chunks.push({..., index: index, ...})]. *)
Definition flushLast (a : Acc) : list TextChunk :=
  if truthy (trim (currentChunk a)) then chunks (pushCurrent a) else chunks a.

(** Runs a loop body over the pieces of a split, stopping at the first
    body that does not return. *)
Fixpoint foldM {A B} (f : A -> B -> option A) (l : list B) (a : A) : option A :=
  match l with
  | [] => Some a
  | x :: r => match f a x with Some a' => foldM f r a' | None => None end
  end.

(** *** chunkBySentence *)

Definition sentenceStep (options : ChunkOptions) (a : Acc) (piece : jstring)
  : option Acc :=
  let sentence := trim piece in
  if negb (truthy sentence) then Some a
  else if chunkSize options <? len sentence then
    (* the pending chunk is pushed but not cleared *)
    let a1 := if truthy (trim (currentChunk a)) then pushCurrent a else a in
    match chunkByFixedSize sentence
            (withChunkSize options (chunkSize options / 2)) with
    | None => None
    | Some subChunks => Some (resumeAfterLast (fold_left pushSub subChunks a1))
    end
  else
    let a1 :=
      if (chunkSize options <? len (currentChunk a) + len sentence)
         && truthy (trim (currentChunk a))
      then
        let overlapStart := Z.max 0 (len (currentChunk a) - chunkOverlap options) in
        setCurrentStart
          (setCurrentChunk (pushCurrent a) (sliceFrom (currentChunk a) overlapStart))
          (currentStart a + (if 0 <? overlapStart then chunkOverlap options else 0))
      else a in
    Some (setCurrentChunk a1
            (currentChunk a1
             ++ (if truthy (currentChunk a1) then $". " else [])
             ++ sentence)).

Definition chunkBySentence (text : jstring) (options : ChunkOptions)
  : option (list TextChunk) :=
  match foldM (sentenceStep options) (split reAfterSentence text) initAcc with
  | Some a => Some (mergeSmallChunks (flushLast a) (minChunkSize options))
  | None => None
  end.

(** *** chunkByParagraph *)

Definition paragraphStep (options : ChunkOptions) (a : Acc) (piece : jstring)
  : option Acc :=
  let trimmed := trim piece in
  if negb (truthy trimmed) then Some a
  else if chunkSize options <? len trimmed then
    let a1 :=
      if truthy (trim (currentChunk a))
      then setCurrentChunk (pushCurrent a) []
      else a in
    match chunkBySentence trimmed
            (withChunkSize options (chunkSize options / 2)) with
    | None => None
    | Some subChunks => Some (resumeAfterLast (fold_left pushSub subChunks a1))
    end
  else if (chunkSize options <? len (currentChunk a) + len trimmed)
          && truthy (trim (currentChunk a))
  then
    let overlapText := sliceFrom (currentChunk a) (- chunkOverlap options) in
    let current' := overlapText ++ nlnl ++ trimmed in
    Some (setCurrentStart
            (setCurrentChunk (pushCurrent a) current')
            (currentStart a + len current' - len trimmed - len overlapText))
  else
    Some (setCurrentChunk a
            (currentChunk a
             ++ (if truthy (currentChunk a) then nlnl else [])
             ++ trimmed)).

Definition chunkByParagraph (text : jstring) (options : ChunkOptions)
  : option (list TextChunk) :=
  match foldM (paragraphStep options) (split reBlankLines text) initAcc with
  | Some a => Some (mergeSmallChunks (flushLast a) (minChunkSize options))
  | None => None
  end.

(** *** chunkText *)

Definition effectiveOptions (options : PartialChunkOptions) : ChunkOptions :=
  mkChunkOptions
    (match p_strategy options with Some s => s | None => paragraph end)
    (orDefault (p_chunkSize options) 1000)
    (orDefault (p_chunkOverlap options) 200)
    (orDefault (p_minChunkSize options) 100).

Definition chunkText (text : jstring) (options : PartialChunkOptions)
  : option (list TextChunk) :=
  let config := effectiveOptions options in
  match strategy config with
  | fixed => chunkByFixedSize text config
  | paragraph => chunkByParagraph text config
  | sentence => chunkBySentence text config
  | semantic => chunkByParagraph text config
  end.

(** ** service.ts: truncateContext *)

(** The JavaScript number that holds the integer [z].  The integers up to
    2^53 in magnitude are numbers themselves; a larger one (below 2^63) is
    rounded to the nearest number. *)
Definition Z2float (z : Z) : float :=
  if z <? 0 then (- PrimFloat.of_uint63 (Uint63.of_Z (- z)))%float
  else PrimFloat.of_uint63 (Uint63.of_Z z).

(** [cutoff > maxChars * 0.8], in binary64 as JavaScript evaluates it: 0.8
    is not a binary64 value, and the product is rounded. *)
Definition aboveFourFifths (cutoff maxChars : Z) : bool :=
  (Z2float maxChars * 0.8 <? Z2float cutoff)%float.

Definition truncateContext (context : jstring) (maxTokens : Z) : jstring :=
  let maxChars := maxTokens * 4 in
  if len context <=? maxChars then context
  else
    let truncated := slice context 0 maxChars in
    let lastPeriod := lastIndexOf truncated "."%char in
    let lastNewline := lastIndexOf truncated LF in
    let cutoff := Z.max lastPeriod lastNewline in
    if aboveFourFifths cutoff maxChars then slice truncated 0 (cutoff + 1)
    else truncated ++ $"...".

(** ** Effects: the database, the embedding API and the clock *)

(** A promise's outcome: a value, a thrown [Error] with its message, or
    a promise that never settles because a synchronous loop under it
    does not terminate. *)
Inductive Result (A : Type) : Type :=
| Ok (a : A)
| Throw (message : string)
| Hangs.
Arguments Ok {A} a.
Arguments Throw {A} message.
Arguments Hangs {A}.

Inductive DocStatus := PROCESSING | COMPLETED | FAILED.

(** A row of Prisma's [document] table (the columns the code touches). *)
Record DocumentRow := mkDocumentRow {
  doc_id : string;
  doc_name : string;
  doc_userId : string;
  doc_content : jstring;
  doc_status : DocStatus;
  doc_embeddingStatus : DocStatus;
  doc_chunksCount : Z;
  doc_processed : bool
}.

(** The JSON object kept in a chunk's [metadata] column: the keys the
    code writes or reads, each with the type the code gives it
    ([embeddingVector] is read as [number[] | undefined]).  What [search]
    does when the column holds other JSON is modelled apart, by
    [searchFound]. *)
Record Metadata := mkMetadata {
  md_startChar : option Z;
  md_endChar : option Z;
  md_qualityScore : option float;
  md_documentName : option string;
  md_embeddingVector : option (list float)
}.

(** A row of Prisma's [chunk] table. *)
Record ChunkRow := mkChunkRow {
  row_id : string;
  row_documentId : string;
  row_chunkIndex : nat;
  row_content : jstring;
  row_startChar : option Z;
  row_endChar : option Z;
  row_qualityScore : option float;
  row_metadata : option Metadata
}.

(** What the code can observe and change outside its own variables.
    [chunkRows] and [documents] are the two tables, in storage order;
    [requests] logs the inputs of the embedding API calls made so far;
    [clock] gives the successive readings of [Date.now()]. *)
Record World := mkWorld {
  documents : list DocumentRow;
  chunkRows : list ChunkRow;
  requests : list (list jstring);
  uuids : nat;
  clock : nat -> Z;
  ticks : nat
}.

(** An asynchronous computation: it may change the world and either
    resolves or rejects.  A rejection keeps the changes made before it. *)
Definition M (A : Type) : Type := World -> Result A * World.

Definition ret {A} (a : A) : M A := fun w => (Ok a, w).

Definition throw {A} (message : string) : M A := fun w => (Throw message, w).

Definition bind {A B} (m : M A) (k : A -> M B) : M B :=
  fun w =>
    match m w with
    | (Ok a, w') => k a w'
    | (Throw e, w') => (Throw e, w')
    | (Hangs, w') => (Hangs, w')
    end.

(** [try { m } catch (error) { handler error.message }] *)
Definition tryCatch {A} (m : M A) (handler : string -> M A) : M A :=
  fun w =>
    match m w with
    | (Ok a, w') => (Ok a, w')
    | (Throw e, w') => handler e w'
    | (Hangs, w') => (Hangs, w')
    end.

Notation "x <- m ;; k" := (bind m (fun x => k))
  (at level 61, m at next level, right associativity).
Notation "m ;;; k" := (bind m (fun _ => k))
  (at level 61, right associativity).

(** [for (const x of l) { await body x }] *)
Fixpoint forEach {A} (l : list A) (body : A -> M unit) : M unit :=
  match l with
  | [] => ret tt
  | x :: r => body x ;;; forEach r body
  end.

(** The values [i] takes in [for (let i = 0; i < n; i += step)].  [step]
    is a positive constant at each use (2048, 96, 100). *)
Fixpoint countFrom (fuel i step n : nat) : list nat :=
  match fuel with
  | O => []
  | S fuel' => if (i <? n)%nat then i :: countFrom fuel' (i + step) step n else []
  end.

Definition batchStarts (step n : nat) : list nat := countFrom n 0 step n.

(** [Date.now()] *)
Definition dateNow : M Z :=
  fun w => (Ok (clock w (ticks w)),
            mkWorld (documents w) (chunkRows w) (requests w) (uuids w)
                    (clock w) (S (ticks w))).

Definition setDocuments (w : World) (d : list DocumentRow) : World :=
  mkWorld d (chunkRows w) (requests w) (uuids w) (clock w) (ticks w).

Definition setChunkRows (w : World) (c : list ChunkRow) : World :=
  mkWorld (documents w) c (requests w) (uuids w) (clock w) (ticks w).

(** ** embeddings.ts *)

Record EmbeddingResult := mkEmbeddingResult {
  embedding : list float;
  er_model : string;
  er_provider : string;
  er_tokens : Z
}.

(** The [EmbeddingProvider] interface. *)
Record EmbeddingProvider := mkEmbeddingProvider {
  ep_name : string;
  ep_dimension : Z;
  maxBatchSize : nat;
  embed : list jstring -> M (list EmbeddingResult);
  embedSingle : jstring -> M EmbeddingResult
}.

(** The answer of the embeddings endpoint: [response.data[*].embedding]
    and [response.usage?.prompt_tokens]. *)
Record EmbeddingResponse := mkEmbeddingResponse {
  data : list (list float);
  prompt_tokens : option Z
}.

(** The remote service: its answer to the [n]-th request (counted from
    0) with the given input. *)
Definition EmbeddingsApi := nat -> list jstring -> Result EmbeddingResponse.

(** [await this.client.embeddings.create({model, input})] *)
Definition embeddingsCreate (api : EmbeddingsApi) (input : list jstring)
  : M EmbeddingResponse :=
  fun w =>
    (api (length (requests w)) input,
     mkWorld (documents w) (chunkRows w) (requests w ++ [input]) (uuids w)
             (clock w) (ticks w)).

Section OpenAIEmbeddingProvider.

Variable api : EmbeddingsApi.
Variable model : string.
(** The class field [maxBatchSize = 2048]; the loop is stated for any
    value of the field. *)
Variable batch : nat.

Definition toResult (response : EmbeddingResponse) (e : list float)
  : EmbeddingResult :=
  mkEmbeddingResult e model "openai" (orDefault (prompt_tokens response) 0).

(** The [for] loop of [embed]: [starts] are the remaining values of [i]. *)
Fixpoint openaiEmbedLoop (texts : list jstring) (starts : list nat)
         (results : list EmbeddingResult) : M (list EmbeddingResult) :=
  match starts with
  | [] => ret results
  | i :: starts' =>
      response <- embeddingsCreate api
                    (slice texts (Z.of_nat i) (Z.of_nat i + Z.of_nat batch)) ;;
      openaiEmbedLoop texts starts'
                      (results ++ map (toResult response) (data response))
  end.

Definition openaiEmbed (texts : list jstring) : M (list EmbeddingResult) :=
  openaiEmbedLoop texts (batchStarts batch (length texts)) [].

(** [response.data[0].embedding] throws a TypeError on an empty [data]. *)
Definition openaiEmbedSingle (text : jstring) : M EmbeddingResult :=
  response <- embeddingsCreate api [text] ;;
  match data response with
  | e :: _ => ret (toResult response e)
  | [] => throw "Cannot read properties of undefined (reading 'embedding')"
  end.

End OpenAIEmbeddingProvider.

Definition OpenAIEmbeddingProvider (api : EmbeddingsApi) (model : string)
  : EmbeddingProvider :=
  mkEmbeddingProvider "openai"
    (if String.eqb model "text-embedding-3-large" then 3072 else 1536)
    2048
    (openaiEmbed api model 2048)
    (openaiEmbedSingle api model).

(** ** types.ts *)

Inductive CitationFormat := numbered | inline.

Record RagConfig := mkRagConfig {
  embeddingDimension : Z;
  cfg_chunkSize : Z;
  cfg_chunkOverlap : Z;
  cfg_minChunkSize : Z;
  retrievalTopK : Z;
  similarityThreshold : float;
  rerankEnabled : bool;
  rerankModel : option string;
  maxContextTokens : Z;
  includeCitations : bool;
  citationFormat : CitationFormat
}.

Definition defaultRagConfig : RagConfig :=
  mkRagConfig 1536 1000 200 100 5 0.7%float false None 4000 true numbered.

Record VectorRecord := mkVectorRecord {
  vr_id : string;
  vr_documentId : string;
  vr_chunkIndex : nat;
  vr_content : jstring;
  vr_embedding : list float;
  vr_metadata : option Metadata
}.

Record VectorSearchResult := mkVectorSearchResult {
  sr_id : string;
  sr_documentId : string;
  sr_chunkIndex : nat;
  sr_content : jstring;
  score : float;
  sr_metadata : option Metadata
}.

Record DocumentChunk := mkDocumentChunk {
  dc_id : string;
  dc_documentId : string;
  dc_documentName : string;
  dc_content : jstring;
  dc_chunkIndex : nat;
  dc_startChar : option Z;
  dc_endChar : option Z;
  dc_score : option float;
  dc_metadata : option Metadata
}.

Record RetrievalResult := mkRetrievalResult {
  rr_chunks : list DocumentChunk;
  totalChunks : Z;
  rr_query : jstring;
  executionTime : Z
}.

Record Citation := mkCitation {
  chunkId : string;
  ct_documentId : string;
  ct_documentName : string;
  ct_score : float;
  ct_content : jstring;
  ct_startChar : option Z;
  ct_endChar : option Z
}.

Record RagContext := mkRagContext {
  prompt : jstring;
  context : jstring;
  citations : list Citation;
  retrievalTime : Z;
  chunksUsed : Z;
  totalTokens : Z
}.

(** ** vector-store.ts *)

(** The [documentId] entry of a search filter: a plain id (as
    [getDocumentContext] passes it) or the object [{ $in: ids }] (as
    [Retriever.retrieve] builds it). *)
Inductive DocumentIdFilter :=
| IdIs (id : string)
| IdIn (ids : list string).

Record Filter := mkFilter {
  f_userId : option string;
  f_documentId : option DocumentIdFilter
}.

(** The [VectorStore] interface. *)
Record VectorStore := mkVectorStore {
  vs_name : string;
  upsert : list VectorRecord -> M unit;
  search : list float -> Z -> option Filter -> M (list VectorSearchResult);
  delete : string -> M unit;
  deleteChunk : string -> M unit;
  getStats : M (Z * Z)
}.

Open Scope float_scope.

(** [l.reduce((sum, val, i) => f sum val i, init)] *)
Fixpoint reduceFrom (f : float -> float -> nat -> float) (l : list float)
         (i : nat) (acc : float) : float :=
  match l with
  | [] => acc
  | val :: r => reduceFrom f r (S i) (f acc val i)
  end.

Definition reduce (f : float -> float -> nat -> float) (l : list float)
           (init : float) : float :=
  reduceFrom f l 0 init.

(** [b[i]]; reading past the end yields [undefined], which arithmetic
    turns into NaN. *)
Definition at_ (b : list float) (i : nat) : float := nth i b nan.

Definition magnitude (a : list float) : float :=
  sqrt (reduce (fun sum val _ => sum + val * val) a 0).

Definition cosineSimilarity (a b : list float) : float :=
  if negb (length a =? length b)%nat then 0
  else
    let dotProduct := reduce (fun sum val i => sum + val * at_ b i) a 0 in
    let magA := magnitude a in
    let magB := magnitude b in
    if (magA =? 0) || (magB =? 0) then 0
    else dotProduct / (magA * magB).

(** [array.sort(cmp)]: the sort is stable; [after x y] says that
    [cmp(x, y) > 0], i.e. [x] has to come after [y].  For a comparator
    that is a consistent ordering, this is the order the standard
    prescribes.  For one that is not, the standard leaves the order to the
    implementation, and the insertion from the right made here need not
    be the order an engine produces; the comparator of [search] is not
    consistent as soon as a score is NaN. *)
Fixpoint insertBy {A} (after : A -> A -> bool) (x : A) (l : list A) : list A :=
  match l with
  | [] => [x]
  | y :: r => if after x y then y :: insertBy after x r else x :: l
  end.

Definition sortBy {A} (after : A -> A -> bool) (l : list A) : list A :=
  fold_right (insertBy after) [] l.

(** [(a, b) => b.score - a.score] is positive *)
Definition byScoreDescending (a b : VectorSearchResult) : bool :=
  0 <? score b - score a.

Close Scope float_scope.

Definition findDocument (w : World) (id : string) : option DocumentRow :=
  find (fun d => String.eqb (doc_id d) id) (documents w).

(** Prisma's [take]: the first [n] rows, or the last [-n] for a negative
    [n]. *)
Definition take {A} (n : Z) (rows : list A) : list A :=
  if n <? 0 then skipn (length rows - Z.to_nat (- n)) rows
  else firstn (Z.to_nat n) rows.

Section InternalVectorStore.

(** [where: { document: { embeddingStatus: "COMPLETED",
                          userId: filter?.userId,
                          ...(filter?.documentId && { id: filter.documentId }) } }]
    A condition whose value is [undefined] is no condition. *)
Definition matchesWhere (filter : option Filter) (d : DocumentRow) : bool :=
  match doc_embeddingStatus d with COMPLETED => true | _ => false end
  && match filter with
     | Some (mkFilter (Some u) _) => String.eqb (doc_userId d) u
     | _ => true
     end
  && match filter with
     | Some (mkFilter _ (Some (IdIs id))) =>
         if String.eqb id "" then true else String.eqb (doc_id d) id
     | _ => true
     end.

(** A chunk row together with the row of its document ([include:
    { document }]); a chunk whose document does not exist matches no
    condition on the document. *)
Definition joinDocument (w : World) (filter : option Filter) (c : ChunkRow)
  : option (ChunkRow * DocumentRow) :=
  match findDocument w (row_documentId c) with
  | Some d => if matchesWhere filter d then Some (c, d) else None
  | None => None
  end.

Fixpoint filterMap {A B} (f : A -> option B) (l : list A) : list B :=
  match l with
  | [] => []
  | x :: r => match f x with Some y => y :: filterMap f r | None => filterMap f r end
  end.

(** [prisma.chunk.findMany({ where, include, take: n })].  The object
    [{ $in: ids }] is not a filter Prisma knows for a string column: the
    query is rejected. *)
Definition findManyChunks (filter : option Filter) (n : Z)
  : M (list (ChunkRow * DocumentRow)) :=
  fun w =>
    match filter with
    | Some (mkFilter _ (Some (IdIn _))) =>
        (Throw "Invalid prisma.chunk.findMany() invocation: Unknown argument $in", w)
    | _ => (Ok (take n (filterMap (joinDocument w filter) (chunkRows w))), w)
    end.

(** The callback of [chunks.map] in [search]. *)
Definition scoreChunk (queryEmbedding : list float) (chunk : ChunkRow * DocumentRow)
  : VectorSearchResult :=
  let c := fst chunk in
  let embeddingVector :=
    match row_metadata c with
    | Some m => md_embeddingVector m
    | None => None
    end in
  let score :=
    match embeddingVector with
    | Some e => cosineSimilarity queryEmbedding e
    | None => 0%float
    end in
  mkVectorSearchResult (row_id c) (row_documentId c) (row_chunkIndex c)
    (row_content c) score
    (Some (mkMetadata None None None (Some (doc_name (snd chunk))) None)).

Definition internalSearch (queryEmbedding : list float) (topK : Z)
           (filter : option Filter) : M (list VectorSearchResult) :=
  chunks <- findManyChunks filter (topK * 2) ;;
  let results := map (scoreChunk queryEmbedding) chunks in
  ret (slice (sortBy byScoreDescending results) 0 topK).

Definition orKeep {A} (new old : option A) : option A :=
  match new with Some _ => new | None => old end.

Definition metaField {A} (m : option Metadata) (f : Metadata -> option A)
  : option A :=
  match m with Some md => f md | None => None end.

(** The [create] branch of [prisma.chunk.upsert]. *)
Definition createRow (r : VectorRecord) : ChunkRow :=
  mkChunkRow (vr_id r) (vr_documentId r) (vr_chunkIndex r) (vr_content r)
    (metaField (vr_metadata r) md_startChar)
    (metaField (vr_metadata r) md_endChar)
    (metaField (vr_metadata r) md_qualityScore)
    (vr_metadata r).

(** The [update] branch: a field given as [undefined] is left as it is. *)
Definition updateRow (r : VectorRecord) (old : ChunkRow) : ChunkRow :=
  mkChunkRow (row_id old) (row_documentId old) (vr_chunkIndex r) (vr_content r)
    (orKeep (metaField (vr_metadata r) md_startChar) (row_startChar old))
    (orKeep (metaField (vr_metadata r) md_endChar) (row_endChar old))
    (orKeep (metaField (vr_metadata r) md_qualityScore) (row_qualityScore old))
    (orKeep (vr_metadata r) (row_metadata old)).

Fixpoint upsertRow (r : VectorRecord) (rows : list ChunkRow) : list ChunkRow :=
  match rows with
  | [] => [createRow r]
  | c :: rest =>
      if String.eqb (row_id c) (vr_id r) then updateRow r c :: rest
      else c :: upsertRow r rest
  end.

(** [await this.prisma.chunk.upsert({ where: { id: record.id }, create, update })] *)
Definition chunkUpsert (r : VectorRecord) : M unit :=
  fun w => (Ok tt, setChunkRows w (upsertRow r (chunkRows w))).

Definition internalUpsert (records : list VectorRecord) : M unit :=
  forEach records chunkUpsert.

(** [prisma.chunk.deleteMany({ where: { documentId } })] *)
Definition chunkDeleteMany (documentId : string) : M unit :=
  fun w =>
    (Ok tt,
     setChunkRows w
       (List.filter (fun c => negb (String.eqb (row_documentId c) documentId))
                    (chunkRows w))).

(** [prisma.chunk.delete({ where: { id } })] rejects when no row has the id. *)
Definition internalDeleteChunk (id : string) : M unit :=
  fun w =>
    if existsb (fun c => String.eqb (row_id c) id) (chunkRows w)
    then (Ok tt,
          setChunkRows w
            (List.filter (fun c => negb (String.eqb (row_id c) id)) (chunkRows w)))
    else (Throw "Record to delete does not exist.", w).

Definition internalGetStats (dimension : Z) : M (Z * Z) :=
  fun w => (Ok (len (chunkRows w), dimension), w).

End InternalVectorStore.

Definition InternalVectorStore (dimension : Z) : VectorStore :=
  mkVectorStore "internal" internalUpsert internalSearch chunkDeleteMany
                internalDeleteChunk (internalGetStats dimension).

(** ** chunking.ts: chunkBySemantic *)

(** [await Promise.all(l.map(f))], the calls taken in order. *)
Fixpoint mapM {A B} (f : A -> M B) (l : list A) : M (list B) :=
  match l with
  | [] => ret []
  | x :: r => y <- f x ;; ys <- mapM f r ;; ret (y :: ys)
  end.

(** The [boundaries] array: 0, every [i] whose paragraph is less than 0.5
    similar to the one before it, and the number of paragraphs.  (The
    chunker computes it with its own copy of [cosineSimilarity] and then
    packs the paragraphs without reading it.) *)
Fixpoint semanticBoundaries (embeddings : list (list float)) (i : nat) : list nat :=
  match embeddings with
  | previous :: ((current :: _) as rest) =>
      if (cosineSimilarity previous current <? 0.5)%float
      then i :: semanticBoundaries rest (S i)
      else semanticBoundaries rest (S i)
  | _ => []
  end.

(** The body of the packing loop of [chunkBySemantic], for paragraph [i]. *)
Definition semanticStep (paragraphs : list jstring) (options : ChunkOptions)
           (a : Acc) (i : nat) : Acc :=
  let paragraph := trim (nth i paragraphs []) in
  let a1 :=
    if (chunkSize options <? len (currentChunk a) + len paragraph)
       && truthy (currentChunk a)
    then setCurrentStart (setCurrentChunk (pushCurrent a) []) 0
    else a in
  let a2 :=
    setCurrentChunk a1
      (currentChunk a1 ++ (if truthy (currentChunk a1) then nlnl else [])
       ++ paragraph) in
  if currentStart a2 =? 0
  then setCurrentStart a2
         (len (join nlnl (slice paragraphs 0 (Z.of_nat i)))
          + (if (0 <? i)%nat then 2 else 0))
  else a2.

Definition chunkBySemantic (text : jstring) (options : ChunkOptions)
           (getEmbedding : jstring -> M (list float)) : M (list TextChunk) :=
  let paragraphs :=
    List.filter (fun p => truthy (trim p)) (split reBlankLines text) in
  match paragraphs with
  | [] =>
      fun w =>
        match chunkByFixedSize text options with
        | Some chunks => (Ok chunks, w)
        | None => (Hangs, w)
        end
  | _ =>
      embeddings <- mapM (fun p => getEmbedding (trim p)) paragraphs ;;
      let boundaries :=
        0%nat :: semanticBoundaries embeddings 1 ++ [length paragraphs] in
      let a :=
        fold_left (semanticStep paragraphs options)
                  (seq 0 (length paragraphs)) initAcc in
      ret (mergeSmallChunks (flushLast a) (minChunkSize options))
  end.

(** ** retrieval.ts *)

Record RetrievalOptions := mkRetrievalOptions {
  query : jstring;
  userId : string;
  documentIds : option (list string);
  topK : option Z;
  opt_similarityThreshold : option float;
  useRag : option bool
}.

Definition withQuery (o : RetrievalOptions) (q : jstring) : RetrievalOptions :=
  mkRetrievalOptions q (userId o) (documentIds o) (topK o)
                     (opt_similarityThreshold o) (useRag o).

(** A destructuring default: it applies to [undefined] only. *)
Definition orElse {A} (x : option A) (d : A) : A :=
  match x with Some v => v | None => d end.

(** *** QueryBuilder *)

(** [s.toLowerCase()] on code units below 256: A-Z, and the Latin-1
    capitals 192-222 other than the multiplication sign 215. *)
Definition toLowerCase (s : jstring) : jstring :=
  map (fun c =>
         let n := nat_of_ascii c in
         if (((65 <=? n) && (n <=? 90))
             || ((192 <=? n) && (n <=? 222) && negb (n =? 215)))%nat
         then ascii_of_nat (n + 32) else c) s.

(** [\w] *)
Definition isWordChar (c : ascii) : bool :=
  let n := nat_of_ascii c in
  (((48 <=? n) && (n <=? 57)) || ((65 <=? n) && (n <=? 90))
   || ((97 <=? n) && (n <=? 122)) || (n =? 95))%nat.

Definition isDigit (c : ascii) : bool :=
  let n := nat_of_ascii c in ((48 <=? n) && (n <=? 57))%nat.

Fixpoint jstring_eqb (a b : jstring) : bool :=
  match a, b with
  | [], [] => true
  | x :: a', y :: b' => ascii_is x y && jstring_eqb a' b'
  | _, _ => false
  end.

Definition stopWords : list jstring :=
  map lit
    ["the"; "a"; "an"; "is"; "are"; "was"; "were"; "be"; "been"; "being";
     "have"; "has"; "had"; "do"; "does"; "did"; "will"; "would"; "could";
     "should"; "may"; "might"; "must"; "shall"; "can"; "need"; "dare";
     "to"; "of"; "in"; "for"; "on"; "with"; "at"; "by"; "from"; "as";
     "into"; "through"; "during"; "before"; "after"; "above"; "below";
     "between"; "under"; "again"; "further"; "then"; "once"; "here";
     "there"; "when"; "where"; "why"; "how"; "all"; "each"; "few";
     "more"; "most"; "other"; "some"; "such"; "no"; "nor"; "not";
     "only"; "own"; "same"; "so"; "than"; "too"; "very"; "just"]%string.

Definition has (set : list jstring) (w : jstring) : bool :=
  existsb (jstring_eqb w) set.

(** [Array.from(new Set(words))]: first occurrences, in order. *)
Fixpoint unique (seen : list jstring) (words : list jstring) : list jstring :=
  match words with
  | [] => []
  | w :: r => if has seen w then unique seen r else w :: unique (w :: seen) r
  end.

Definition expandQuery (q : jstring) (maxExpansions : Z) : jstring :=
  let words :=
    List.filter (fun w => (2 <? len w) && negb (has stopWords w))
      (split reWhitespace
         (List.filter (fun c => isWordChar c || isWhiteSpace c) (toLowerCase q))) in
  let keywords := slice (unique [] words) 0 maxExpansions in
  q ++ $" " ++ join $" " keywords.

Definition hydePrompt (q : jstring) : jstring :=
  $"Generate a brief, factual document that would answer this question. " ++ nl
  ++ $"The document should contain relevant information that could help answer the question."
  ++ nl ++ $"Question: " ++ q ++ nlnl ++ $"Document:".

Definition buildHyDEQuery (q : jstring) (llmGenerate : jstring -> M jstring)
  : M jstring :=
  llmGenerate (hydePrompt q).

Definition decomposePrompt (q : jstring) : jstring :=
  $"Break down this question into 2-4 simpler sub-questions that would help answer the main question."
  ++ nl ++ $"Each sub-question should be self-contained and searchable." ++ nlnl
  ++ $"Main Question: " ++ q ++ nlnl ++ $"Sub-questions (one per line):".

(** The separator ["\n"] *)
Definition reLineFeed (_ : option ascii) (s : jstring) : nat :=
  match s with
  | c :: _ => if isLineFeed c then 1%nat else 0%nat
  | [] => 0%nat
  end.

(** [q.replace(/^\d+[\.\)]\s*/, "")] *)
Definition stripNumbering (q : jstring) : jstring :=
  match takeWhile isDigit q, dropWhile isDigit q with
  | _ :: _, c :: rest =>
      if ascii_is c "."%char || ascii_is c ")"%char
      then dropWhile isWhiteSpace rest
      else q
  | _, _ => q
  end.

Definition decomposeQuery (q : jstring) (llmGenerate : jstring -> M jstring)
  : M (list jstring) :=
  response <- llmGenerate (decomposePrompt q) ;;
  ret (List.filter (fun s => 10 <? len s)
         (map (fun s => trim (stripNumbering s)) (split reLineFeed response))).

(** *** Retriever *)

Record Retriever := mkRetriever {
  vectorStore : VectorStore;
  embeddingProvider : EmbeddingProvider;
  config : RagConfig
}.

Definition toDocumentChunk (r : VectorSearchResult) : DocumentChunk :=
  mkDocumentChunk (sr_id r) (sr_documentId r)
    (match metaField (sr_metadata r) md_documentName with
     | Some n => if String.eqb n "" then "Unknown"%string else n
     | None => "Unknown"%string
     end)
    (sr_content r) (sr_chunkIndex r)
    (metaField (sr_metadata r) md_startChar)
    (metaField (sr_metadata r) md_endChar)
    (Some (score r)) (sr_metadata r).

(** [rerankResults]: a placeholder that keeps the order. *)
Definition rerankResults (q : jstring) (results : list VectorSearchResult)
           (k : Z) : M (list VectorSearchResult) :=
  ret (slice results 0 k).

Definition isSet (s : option string) : bool :=
  match s with
  | Some n => negb (String.eqb n "")
  | None => false
  end.

Definition retrieve (self : Retriever) (options : RetrievalOptions)
  : M RetrievalResult :=
  startTime <- dateNow ;;
  let k := orElse (topK options) (retrievalTopK (config self)) in
  let threshold :=
    orElse (opt_similarityThreshold options) (similarityThreshold (config self)) in
  if negb (orElse (useRag options) true) then
    now <- dateNow ;;
    ret (mkRetrievalResult [] 0 (query options) (now - startTime))
  else
    queryEmbedding <- embedSingle (embeddingProvider self) (query options) ;;
    let filter :=
      mkFilter (Some (userId options))
        (match documentIds options with
         | Some (id :: ids) => Some (IdIn (id :: ids))
         | _ => None
         end) in
    results <- search (vectorStore self) (embedding queryEmbedding) (k * 2)
                      (Some filter) ;;
    let filteredResults :=
      List.filter (fun r => (threshold <=? score r)%float) results in
    rankedResults <-
      (if rerankEnabled (config self) && isSet (rerankModel (config self))
       then rerankResults (query options) filteredResults k
       else ret (slice filteredResults 0 k)) ;;
    let chunks := map toDocumentChunk rankedResults in
    now <- dateNow ;;
    ret (mkRetrievalResult chunks (len results) (query options) (now - startTime)).

(** *** ContextBuilder *)

Definition decimal (n : nat) : jstring :=
  lit (NilEmpty.string_of_uint (Nat.to_uint n)).

(** [chunks.map((chunk, idx) => ...)] *)
Fixpoint mapi {A B} (f : A -> nat -> B) (l : list A) (i : nat) : list B :=
  match l with
  | [] => []
  | x :: r => f x i :: mapi f r (S i)
  end.

(** [x || 0] on a number: 0, -0 and NaN are falsy. *)
Definition numberOrZero (x : option float) : float :=
  match x with
  | Some v => if (v =? 0)%float || negb (v =? v)%float then 0%float else v
  | None => 0%float
  end.

(** [Math.ceil(n / 4)] for a length [n] *)
Definition ceilQuarter (n : Z) : Z := (n + 3) / 4.

Definition toCitation (chunk : DocumentChunk) : Citation :=
  mkCitation (dc_id chunk) (dc_documentId chunk) (dc_documentName chunk)
             (numberOrZero (dc_score chunk)) (dc_content chunk)
             (dc_startChar chunk) (dc_endChar chunk).

Definition buildContext (cfg : RagConfig) (r : RetrievalResult)
  : jstring * list Citation * (Z * Z) :=
  let context :=
    join nlnl
      (mapi (fun chunk idx =>
               let prefix :=
                 match citationFormat cfg with
                 | numbered => $"[" ++ decimal (idx + 1) ++ $"]"
                 | inline => $"(Source: " ++ lit (dc_documentName chunk) ++ $")"
                 end in
               prefix ++ nl ++ dc_content chunk)
            (rr_chunks r) 0%nat) in
  let citations := map toCitation (rr_chunks r) in
  let totalTokens := ceilQuarter (len context) + ceilQuarter (len (rr_query r)) in
  (context, citations, (len (rr_chunks r), totalTokens)).

Definition defaultSystemPrompt : jstring :=
  $"You are NexusAI, an AI assistant that helps users answer questions based on their connected data sources.".

Definition buildRagPrompt (cfg : RagConfig) (userQuery : jstring)
           (r : RetrievalResult) (customSystemPrompt : option jstring)
  : RagContext :=
  let '(context, citations, (used, tokens)) := buildContext cfg r in
  let systemPrompt :=
    match customSystemPrompt with
    | Some p => if truthy p then p else defaultSystemPrompt
    | None => defaultSystemPrompt
    end in
  let instructions :=
    if includeCitations cfg
    then $"Answer based on the provided context. When referencing specific information, cite your sources using the provided citations."
    else $"Answer based on the provided context." in
  let ragPrompt :=
    systemPrompt ++ nlnl ++ $"Context from user's data:" ++ nl
    ++ (if truthy context then context else $"No relevant context found.")
    ++ nlnl ++ instructions ++ nlnl
    ++ $"If the context doesn't contain enough information to answer the question, please say so." in
  mkRagContext ragPrompt context citations (executionTime r) used tokens.

(** *** RagPipeline *)

Inductive TransformKind := original | expanded | hyde | subquestion.

(** The argument of [RagPipeline.query]: [RetrievalOptions] and the
    three extra fields. *)
Record QueryOptions := mkQueryOptions {
  base : RetrievalOptions;
  transformQuery : option TransformKind;
  customSystemPrompt : option jstring;
  llmGenerate : option (jstring -> M jstring)
}.

(** The object [query] resolves to.  It has these two fields and no
    other. *)
Record QueryResult := mkQueryResult {
  ragContext : RagContext;
  transformedQuery : jstring
}.

Definition transform (options : QueryOptions) : M jstring :=
  let q := query (base options) in
  match orElse (transformQuery options) original, llmGenerate options with
  | expanded, _ => ret (expandQuery q 5)
  | hyde, Some generate => buildHyDEQuery q generate
  | subquestion, Some generate =>
      subquestions <- decomposeQuery q generate ;;
      ret (match subquestions with
           | s :: _ => if truthy s then s else q
           | [] => q
           end)
  | _, _ => ret q
  end.

Definition pipelineQuery (self : Retriever) (options : QueryOptions)
  : M QueryResult :=
  transformed <- transform options ;;
  retrievalResult <- retrieve self (withQuery (base options) transformed) ;;
  let ragContext :=
    buildRagPrompt (config self) (query (base options)) retrievalResult
                   (customSystemPrompt options) in
  ret (mkQueryResult ragContext transformed).

(** ** service.ts: DocumentIngestionService *)

Inductive IngestionStatus := success | failed | partial.

Record IngestionResult := mkIngestionResult {
  documentId : string;
  chunksCount : Z;
  status : IngestionStatus;
  errors : option (list string)
}.

Record ParsedDocument := mkParsedDocument {
  pd_content : jstring;
  title : option string;
  fileType : string;
  fileSize : Z
}.

(** [/[.!?]+/] *)
Definition reSentenceEnds (_ : option ascii) (s : jstring) : nat :=
  length (takeWhile isSentenceEnd s).

Definition calculateChunkQuality (text : jstring) : float :=
  let length := len text in
  let score1 :=
    if (200 <=? length) && (length <=? 1000) then (50 + 20)%float
    else if 1000 <? length then (50 + 10)%float
    else (50 + Z2float length / 50)%float in
  let score2 :=
    if existsb (ascii_is "."%char) text && existsb (ascii_is " "%char) text
    then (score1 + 15)%float else score1 in
  let sentences :=
    List.filter (fun s => 10 <? len (trim s)) (split reSentenceEnds text) in
  let score3 := if 2 <=? len sentences then (score2 + 15)%float else score2 in
  if (score3 <? 100)%float then score3 else 100%float.

(** [prisma.document.update({ where: { id }, data })] rejects when no
    row has the id. *)
Definition documentUpdate (id : string) (change : DocumentRow -> DocumentRow)
  : M unit :=
  fun w =>
    match findDocument w id with
    | Some _ =>
        (Ok tt,
         setDocuments w
           (map (fun d => if String.eqb (doc_id d) id then change d else d)
                (documents w)))
    | None => (Throw "Record to update not found.", w)
    end.

(** [prisma.document.create({ data })] rejects on a duplicate id. *)
Definition documentCreate (d : DocumentRow) : M DocumentRow :=
  fun w =>
    match findDocument w (doc_id d) with
    | Some _ => (Throw "Unique constraint failed on the fields: (id)", w)
    | None => (Ok d, setDocuments w (documents w ++ [d]))
    end.

Definition setChunksCount (n : Z) (d : DocumentRow) : DocumentRow :=
  mkDocumentRow (doc_id d) (doc_name d) (doc_userId d) (doc_content d)
                (doc_status d) (doc_embeddingStatus d) n (doc_processed d).

Definition updateDocumentStatus (id : string) (st : DocStatus)
           (count : option Z) : M unit :=
  documentUpdate id
    (fun d =>
       mkDocumentRow (doc_id d) (doc_name d) (doc_userId d) (doc_content d)
         st st
         (match st with
          | COMPLETED => orDefault count (doc_chunksCount d)
          | _ => doc_chunksCount d
          end)
         (match st with COMPLETED => true | _ => doc_processed d end)).

Definition text_of_nat (n : nat) : string :=
  NilEmpty.string_of_uint (Nat.to_uint n).

Section DocumentIngestionService.

Variable store : VectorStore.
Variable provider : EmbeddingProvider.
Variable cfg : RagConfig.
(** The parser ([parsers.ts] over the file system), [uuidv4()] as the
    [n]-th identifier it hands out, and [path.basename]. *)
Variable parseDocument : string -> M ParsedDocument.
Variable uuidv4 : nat -> string.
Variable basename : string -> string.

Definition batchSize : nat := 100.

(** An entry of [allEmbeddings]; [batch[j]] is [undefined] when the
    provider answers with more results than it was given texts. *)
Definition Embedded : Type := option TextChunk * list float.

(** [for (let j = 0; j < results.length; j++) allEmbeddings.push(...)] *)
Definition attach (batch : list TextChunk) (results : list EmbeddingResult)
  : list Embedded :=
  mapi (fun r j => (nth_error batch j, embedding r)) results 0%nat.

Definition batchError (i : nat) (message : string) : string :=
  ("Embedding batch " ++ text_of_nat (i / batchSize + 1) ++ " failed: "
   ++ message)%string.

(** The [try { embed } catch { errors.push }] of one turn of the batch
    loop, for the value [i] of the loop variable; the state is
    [(allEmbeddings, errors)]. *)
Definition embedAttempt (chunks : list TextChunk)
           (st : list Embedded * list string) (i : nat)
  : M (list Embedded * list string) :=
  let batch := slice chunks (Z.of_nat i) (Z.of_nat i + Z.of_nat batchSize) in
  let texts := map content batch in
  tryCatch
    (results <- embed provider texts ;;
     ret (fst st ++ attach batch results, snd st))
    (fun message => ret (fst st, snd st ++ [batchError i message])).

(** The progress update that ends a turn. *)
Definition reportProgress (documentId : string) (chunks : list TextChunk)
           (i : nat) : M unit :=
  documentUpdate documentId
    (setChunksCount (Z.min (Z.of_nat i + Z.of_nat batchSize) (len chunks))).

(** The batch loop.  [errors] is declared outside the [try] block of
    [processDocument], so its contents are handed on however the loop
    is left: the result pairs the loop's outcome with [errors] as it
    stands then. *)
Fixpoint embedBatches (documentId : string) (chunks : list TextChunk)
         (starts : list nat) (st : list Embedded * list string) (w : World)
  : Result (list Embedded) * list string * World :=
  match starts with
  | [] => (Ok (fst st), snd st, w)
  | i :: starts' =>
      match embedAttempt chunks st i w with
      | (Ok st', w1) =>
          match reportProgress documentId chunks i w1 with
          | (Ok _, w2) => embedBatches documentId chunks starts' st' w2
          | (Throw message, w2) => (Throw message, snd st', w2)
          | (Hangs, w2) => (Hangs, snd st', w2)
          end
      | (Throw message, w1) => (Throw message, snd st, w1)
      | (Hangs, w1) => (Hangs, snd st, w1)
      end
  end.

(** [allEmbeddings.map(({ chunk, embedding }) => ({ id: ..., ... }))];
    reading [chunk.index] of an [undefined] chunk throws. *)
Fixpoint toVectorRecords (documentId : string) (documentName : option string)
         (l : list Embedded) : M (list VectorRecord) :=
  match l with
  | [] => ret []
  | (Some chunk, e) :: r =>
      rest <- toVectorRecords documentId documentName r ;;
      ret (mkVectorRecord
             (documentId ++ "-chunk-" ++ text_of_nat (index chunk))%string
             documentId (index chunk) (content chunk) e
             (Some (mkMetadata (Some (startChar chunk)) (Some (endChar chunk))
                      (Some (calculateChunkQuality (content chunk)))
                      documentName None))
           :: rest)
  | (None, _) :: _ =>
      throw "Cannot read properties of undefined (reading 'index')"
  end.

Definition someIfNonEmpty (l : list string) : option (list string) :=
  match l with [] => None | _ => Some l end.

(** [chunkingConfig]: the caller's options over the service's
    configuration. *)
Definition chunkingConfigOf (chunkingOptions : option PartialChunkOptions)
  : PartialChunkOptions :=
  mkPartialChunkOptions
    (Some (match chunkingOptions with
           | Some o => orElse (p_strategy o) paragraph
           | None => paragraph
           end))
    (Some (orDefault (match chunkingOptions with
                      | Some o => p_chunkSize o | None => None end)
                     (cfg_chunkSize cfg)))
    (Some (orDefault (match chunkingOptions with
                      | Some o => p_chunkOverlap o | None => None end)
                     (cfg_chunkOverlap cfg)))
    (Some (orDefault (match chunkingOptions with
                      | Some o => p_minChunkSize o | None => None end)
                     (cfg_minChunkSize cfg))).

(** The statements of the [try] block between the batch loop and the
    [return]: upsert to the vector store, save the chunks, mark the
    document completed. *)
Definition persist (documentId : string) (parsed : ParsedDocument)
           (allEmbeddings : list Embedded) : M unit :=
  vectorRecords <- toVectorRecords documentId (title parsed) allEmbeddings ;;
  upsert store vectorRecords ;;;
  forEach vectorRecords chunkUpsert ;;;
  updateDocumentStatus documentId COMPLETED (Some (len allEmbeddings)).

(** The [catch] block, given [errors] as it stands at the exception. *)
Definition onError (documentId : string) (errs : list string) (message : string)
  : M IngestionResult :=
  updateDocumentStatus documentId FAILED None ;;;
  ret (mkIngestionResult documentId 0 failed (Some (errs ++ [message]))).

Definition processDocument (documentId : string) (parsed : ParsedDocument)
           (chunkingOptions : option PartialChunkOptions)
  : M IngestionResult :=
  fun w0 =>
    match chunkText (pd_content parsed) (chunkingConfigOf chunkingOptions) with
    | None => (Hangs, w0)
    | Some [] =>
        tryCatch
          (updateDocumentStatus documentId FAILED None ;;;
           ret (mkIngestionResult documentId 0 failed
                                  (Some ["No content to chunk"%string])))
          (onError documentId []) w0
    | Some chunks =>
        match embedBatches documentId chunks
                (batchStarts batchSize (length chunks)) ([], []) w0 with
        | (Ok allEmbeddings, errs, w1) =>
            tryCatch
              (persist documentId parsed allEmbeddings ;;;
               ret (mkIngestionResult documentId (len allEmbeddings)
                      (match errs with [] => success | _ => partial end)
                      (someIfNonEmpty errs)))
              (onError documentId errs) w1
        | (Throw message, errs, w1) => onError documentId errs message w1
        | (Hangs, _, w1) => (Hangs, w1)
        end
    end.

Definition freshUuid : M string :=
  fun w =>
    (Ok (uuidv4 (uuids w)),
     mkWorld (documents w) (chunkRows w) (requests w) (S (uuids w))
             (clock w) (ticks w)).

Definition ingestDocument (filePath : string) (user : string)
           (chunkingOptions : option PartialChunkOptions)
  : M IngestionResult :=
  tryCatch
    (parsed <- parseDocument filePath ;;
     id <- freshUuid ;;
     document <- documentCreate
                   (mkDocumentRow id
                      (match title parsed with
                       | Some t => if String.eqb t "" then basename filePath else t
                       | None => basename filePath
                       end)
                      user (pd_content parsed) PROCESSING PROCESSING 0 false) ;;
     processDocument (doc_id document) parsed chunkingOptions)
    (fun message => ret (mkIngestionResult "" 0 failed (Some [message]))).

End DocumentIngestionService.

(** ** service.ts: deleteDocument *)

(** [prisma.document.delete({ where: { id } })] rejects when no row has
    the id. *)
Definition documentDelete (id : string) : M unit :=
  fun w =>
    match findDocument w id with
    | Some _ =>
        (Ok tt,
         setDocuments w
           (List.filter (fun d => negb (String.eqb (doc_id d) id)) (documents w)))
    | None => (Throw "Record to delete does not exist.", w)
    end.

Definition deleteDocument (store : VectorStore) (documentId : string) : M unit :=
  delete store documentId ;;;
  chunkDeleteMany documentId ;;;
  documentDelete documentId.

(** ** retrieval.ts: Retriever.getDocumentContext *)

(** [new Array(n).fill(0)]; a length that is negative or above 2^32 - 1
    is a RangeError. *)
Definition zeroVector (n : Z) : M (list float) :=
  if (n <? 0) || (4294967295 <? n) then throw "Invalid array length"
  else ret (repeat 0%float (Z.to_nat n)).

(** The inner [for (const result of results)] loop; the state is
    [(chunks, totalChars)], and [break] leaves the loop. *)
Fixpoint collectWithin (limit : Z) (results : list VectorSearchResult)
         (st : list jstring * Z) : list jstring * Z :=
  match results with
  | [] => st
  | result :: rest =>
      if limit <? snd st + len (sr_content result) then st
      else collectWithin limit rest
             (fst st ++ [sr_content result], snd st + len (sr_content result))
  end.

(** The outer [for (const docId of documentIds)] loop. *)
Fixpoint documentContextLoop (self : Retriever) (maxTokens : Z)
         (documentIds : list string) (st : list jstring * Z)
  : M (list jstring * Z) :=
  match documentIds with
  | [] => ret st
  | docId :: rest =>
      queryEmbedding <- zeroVector (embeddingDimension (config self)) ;;
      results <- search (vectorStore self) queryEmbedding 10
                        (Some (mkFilter None (Some (IdIs docId)))) ;;
      documentContextLoop self maxTokens rest
                          (collectWithin (maxTokens * 4) results st)
  end.

Definition contextSeparator : jstring := nlnl ++ $"---" ++ nlnl.

Definition getDocumentContext (self : Retriever) (documentIds : list string)
           (maxTokens : option Z) : M jstring :=
  st <- documentContextLoop self
          (orElse maxTokens (maxContextTokens (config self))) documentIds ([], 0) ;;
  ret (join contextSeparator (fst st)).

(** ** service.ts: utility functions *)

(** [estimateTokens]: [Math.ceil(text.length / 4)] *)
Definition estimateTokens (text : jstring) : M Z := ret (ceilQuarter (len text)).

(** ** parsers.ts *)

(** The double quote, code unit 34. *)
Definition quoteChar : ascii := ascii_of_nat 34.

(** The [for] loop of [CSVParser.parseCSVLine] over the characters still
    to be read; the state is [result], [current] and [inQuotes]. *)
Fixpoint parseCSVLoop (line : jstring) (result : list jstring) (current : jstring)
         (inQuotes : bool) : list jstring :=
  match line with
  | [] => result ++ [trim current]
  | char :: rest =>
      if ascii_is char quoteChar then
        parseCSVLoop rest result current (negb inQuotes)
      else if ascii_is char ","%char && negb inQuotes then
        parseCSVLoop rest (result ++ [trim current]) [] inQuotes
      else
        parseCSVLoop rest result (current ++ [char]) inQuotes
  end.

Definition parseCSVLine (line : jstring) : list jstring :=
  parseCSVLoop line [] [] false.

(** The interface [DocumentParser]; a buffer is its list of bytes, and
    [parseStream], which collects a stream into a buffer and calls
    [parseBuffer], is left out. *)
Record DocumentParser := mkDocumentParser {
  canParse : string -> bool;
  parse : string -> M ParsedDocument;
  parseBuffer : list ascii -> string -> M ParsedDocument
}.

Definition pdfMessage : string :=
  "PDF parsing requires 'pdf-parse' package. Install it with: npm install pdf-parse".

Definition docxMessage : string :=
  "DOCX parsing requires 'mammoth' package. Install it with: npm install mammoth".

(** [s.includes(sub)] *)
Fixpoint includes (s sub : string) : bool :=
  String.prefix sub s
  || match s with
     | EmptyString => false
     | String _ rest => includes rest sub
     end.

(** [/\.docx$/i.test(s)] *)
Definition endsWithDocx (s : string) : bool :=
  let lowered := toLowerCase (list_ascii_of_string s) in
  jstring_eqb (sliceFrom lowered (-5)) $".docx".

Definition PDFParser : DocumentParser :=
  mkDocumentParser
    (fun mimeType => String.eqb mimeType "application/pdf")
    (fun _ => throw pdfMessage)
    (fun _ _ => throw pdfMessage).

Definition DocxParser : DocumentParser :=
  mkDocumentParser
    (fun mimeType =>
       String.eqb mimeType
         "application/vnd.openxmlformats-officedocument.wordprocessingml.document"
       || endsWithDocx mimeType)
    (fun _ => throw docxMessage)
    (fun _ _ => throw docxMessage).

Section Parsers.

(** The three parsers that read a file ([TextParser], [MarkdownParser],
    [CSVParser]) and [path.extname].  ([path.extname] yields the empty
    string or a string that starts with a dot, so the lookup in
    [mimeTypes] below never meets an inherited property of the object.) *)
Variable textParser markdownParser csvParser : DocumentParser.
Variable extname : string -> string.

Definition getParserForMimeType (mimeType : string) : DocumentParser :=
  if String.eqb mimeType "application/pdf" then PDFParser
  else if includes mimeType "wordprocessingml" || includes mimeType "msword"
  then DocxParser
  else if String.eqb mimeType "text/markdown" || String.eqb mimeType "text/x-markdown"
  then markdownParser
  else if String.eqb mimeType "text/csv" || includes mimeType "csv"
  then csvParser
  else textParser.

(** The object literal [mimeTypes]. *)
Definition mimeTypes : list (string * string) :=
  [ (".pdf", "application/pdf");
    (".docx", "application/vnd.openxmlformats-officedocument.wordprocessingml.document");
    (".doc", "application/msword");
    (".md", "text/markdown");
    (".txt", "text/plain");
    (".csv", "text/csv");
    (".json", "application/json");
    (".xml", "application/xml");
    (".html", "text/html");
    (".htm", "text/html") ]%string.

(** [path.extname(filename).toLowerCase()] *)
Definition lowerExtension (filename : string) : string :=
  string_of_list_ascii (toLowerCase (list_ascii_of_string (extname filename))).

Definition getParserForFile (filename : string) : DocumentParser :=
  let ext := lowerExtension filename in
  let mimeType :=
    match find (fun entry => String.eqb (fst entry) ext) mimeTypes with
    | Some (_, m) => if String.eqb m "" then "text/plain"%string else m
    | None => "text/plain"%string
    end in
  getParserForMimeType mimeType.

Definition parseDocument (filePath : string) : M ParsedDocument :=
  parse (getParserForFile filePath) filePath.

Definition parseDocumentFromBuffer (buffer : list ascii) (filename : string)
  : M ParsedDocument :=
  parseBuffer (getParserForFile filename) buffer filename.

End Parsers.

(** ** service.ts: ingestDocumentFromBuffer *)

Section IngestionFromBuffer.

Variable store : VectorStore.
Variable provider : EmbeddingProvider.
Variable cfg : RagConfig.
Variable parseFromBuffer : list ascii -> string -> M ParsedDocument.
Variable uuidv4 : nat -> string.

Definition ingestDocumentFromBuffer (buffer : list ascii) (filename : string)
           (user : string) (chunkingOptions : option PartialChunkOptions)
  : M IngestionResult :=
  tryCatch
    (parsed <- parseFromBuffer buffer filename ;;
     id <- freshUuid uuidv4 ;;
     document <- documentCreate
                   (mkDocumentRow id
                      (match title parsed with
                       | Some t => if String.eqb t "" then filename else t
                       | None => filename
                       end)
                      user (pd_content parsed) PROCESSING PROCESSING 0 false) ;;
     processDocument store provider cfg (doc_id document) parsed chunkingOptions)
    (fun message => ret (mkIngestionResult "" 0 failed (Some [message]))).

End IngestionFromBuffer.

Unset Implicit Arguments.

(** ** vector-store.ts: search, on the JSON that the metadata column holds *)

#[local] Unset Elimination Schemes.

(** [search] reads [chunk.metadata] under the type [any], and [upsert]
    writes [record.metadata], a [Record<string, any>], as it is: the
    column can hold any JSON value, not only the object that [Metadata]
    describes.  [undefined] is the [None] of an option. *)
Inductive Json :=
| JNull
| JBool (b : bool)
| JNumber (x : float)
| JString (s : jstring)
| JArray (items : list Json)
| JObject (fields : list (string * Json)).

#[local] Set Elimination Schemes.

(** [o[key]] for an object read from JSON (its keys are distinct). *)
Definition getField (key : string) (fields : list (string * Json)) : option Json :=
  option_map snd (find (fun kv => String.eqb (fst kv) key) fields).

(** [metadata?.embeddingVector]: only an object has the property. *)
Definition embeddingVectorOf (metadata : Json) : option Json :=
  match metadata with
  | JObject fields => getField "embeddingVector" fields
  | _ => None
  end.

(** Truthiness: [undefined], [null], [false], 0, -0, NaN and the empty
    string are falsy. *)
Definition isTruthy (v : option Json) : bool :=
  match v with
  | None | Some JNull => false
  | Some (JBool b) => b
  | Some (JNumber x) => (negb (x =? 0) && (x =? x))%float
  | Some (JString s) => truthy s
  | Some (JArray _) | Some (JObject _) => true
  end.

(** [a.length === b.length] for an array [a] of [n] elements: an array
    and a string have a length, an object has the one it holds under the
    key [length], a number and a boolean have none. *)
Definition hasLength (b : Json) (n : nat) : bool :=
  match b with
  | JArray items => (length items =? n)%nat
  | JString s => (length s =? n)%nat
  | JObject fields =>
      match getField "length" fields with
      | Some (JNumber x) => (x =? Z2float (Z.of_nat n))%float
      | _ => false
      end
  | _ => false
  end.

(** [b[i]] *)
Definition itemAt (b : Json) (i : nat) : option Json :=
  match b with
  | JArray items => nth_error items i
  | JString s => option_map (fun c => JString [c]) (nth_error s i)
  | JObject fields => getField (text_of_nat i) fields
  | _ => None
  end.

(** A chunk as [findMany] returns it, with the name of its document. *)
Record FoundChunk := mkFoundChunk {
  fc_id : string;
  fc_documentId : string;
  fc_chunkIndex : nat;
  fc_content : jstring;
  fc_metadata : Json;
  fc_documentName : string
}.

Definition resultOf (chunk : FoundChunk) (score : float) : VectorSearchResult :=
  mkVectorSearchResult (fc_id chunk) (fc_documentId chunk) (fc_chunkIndex chunk)
    (fc_content chunk) score
    (Some (mkMetadata None None None (Some (fc_documentName chunk)) None)).

(** [l.map(f)] for a callback that may throw: [inl message] is the
    exception. *)
Fixpoint mapE {A B} (f : A -> string + B) (l : list A) : string + list B :=
  match l with
  | [] => inr []
  | x :: r =>
      match f x with
      | inl message => inl message
      | inr y =>
          match mapE f r with
          | inl message => inl message
          | inr ys => inr (y :: ys)
          end
      end
  end.

Section SearchOnJson.

(** ECMAScript's StringToNumber, and its ToNumber of an array or an object
    (which goes through the value's [valueOf] and [toString], and can throw
    a TypeError).  Nothing is assumed of them. *)
Variable stringToNumber : jstring -> float.
Variable objectToNumber : Json -> string + float.

(** [prisma.chunk.findMany] with the [where] and [include] of [search]
    and [take: n]: whatever the database answers. *)
Variable findMany : option Filter -> Z -> M (list FoundChunk).

(** ToNumber, as [*] applies it to an operand. *)
Definition toNumber (v : option Json) : string + float :=
  match v with
  | None => inr nan
  | Some JNull => inr 0%float
  | Some (JBool b) => inr (if b then 1 else 0)%float
  | Some (JNumber x) => inr x
  | Some (JString s) => inr (stringToNumber s)
  | Some o => objectToNumber o
  end.

(** [a.reduce((sum, val, i) => sum + val * b[i], 0)] *)
Fixpoint dotFrom (a : list float) (b : Json) (i : nat) (sum : float)
  : string + float :=
  match a with
  | [] => inr sum
  | val :: rest =>
      match toNumber (itemAt b i) with
      | inl message => inl message
      | inr x => dotFrom rest b (S i) (sum + val * x)%float
      end
  end.

(** [b.reduce((sum, val) => sum + val * val, 0)] for an array [b] *)
Fixpoint squaresFrom (items : list Json) (sum : float) : string + float :=
  match items with
  | [] => inr sum
  | val :: rest =>
      match toNumber (Some val) with
      | inl message => inl message
      | inr x => squaresFrom rest (sum + x * x)%float
      end
  end.

(** [cosineSimilarity(a, b)] for the value [b] that is stored.  Only an
    array has a [reduce]. *)
Definition cosineSimilarityOf (a : list float) (b : Json) : string + float :=
  if negb (hasLength b (length a)) then inr 0%float
  else
    match dotFrom a b 0 0%float with
    | inl message => inl message
    | inr dotProduct =>
        let magA := magnitude a in
        match b with
        | JArray items =>
            match squaresFrom items 0%float with
            | inl message => inl message
            | inr squares =>
                let magB := sqrt squares in
                if ((magA =? 0) || (magB =? 0))%float then inr 0%float
                else inr (dotProduct / (magA * magB))%float
            end
        | _ => inl "b.reduce is not a function"%string
        end
    end.

(** The callback of [chunks.map] in [search]. *)
Definition scoreFound (queryEmbedding : list float) (chunk : FoundChunk)
  : string + VectorSearchResult :=
  let embedding := embeddingVectorOf (fc_metadata chunk) in
  let score :=
    match embedding with
    | Some b =>
        if isTruthy embedding then cosineSimilarityOf queryEmbedding b
        else inr 0%float
    | None => inr 0%float
    end in
  match score with
  | inl message => inl message
  | inr s => inr (resultOf chunk s)
  end.

Definition searchFound (queryEmbedding : list float) (topK : Z)
           (filter : option Filter) : M (list VectorSearchResult) :=
  chunks <- findMany filter (topK * 2) ;;
  match mapE (scoreFound queryEmbedding) chunks with
  | inl message => throw message
  | inr results => ret (slice (sortBy byScoreDescending results) 0 topK)
  end.

End SearchOnJson.

(** The JSON of a metadata object that has the declared types, and the
    answer of [findMany] on the typed tables. *)
Definition optField (key : string) (v : option Json) : list (string * Json) :=
  match v with Some x => [(key, x)] | None => [] end.

Definition asJson (m : option Metadata) : Json :=
  match m with
  | None => JNull
  | Some md =>
      JObject
        (optField "startChar"
                  (option_map (fun z => JNumber (Z2float z)) (md_startChar md))
         ++ optField "endChar"
                     (option_map (fun z => JNumber (Z2float z)) (md_endChar md))
         ++ optField "qualityScore" (option_map JNumber (md_qualityScore md))
         ++ optField "documentName"
                     (option_map (fun s => JString (lit s)) (md_documentName md))
         ++ optField "embeddingVector"
                     (option_map (fun e => JArray (map JNumber e))
                                 (md_embeddingVector md)))
  end.

Definition found (chunk : ChunkRow * DocumentRow) : FoundChunk :=
  mkFoundChunk (row_id (fst chunk)) (row_documentId (fst chunk))
    (row_chunkIndex (fst chunk)) (row_content (fst chunk))
    (asJson (row_metadata (fst chunk))) (doc_name (snd chunk)).

Definition findManyTyped (filter : option Filter) (n : Z) : M (list FoundChunk) :=
  rows <- findManyChunks filter n ;; ret (map found rows).

(** * Vocabulary of the statements, and sample data *)

(** ** Lists *)

(** [Subseq small big]: [small] is [big] with some elements left out,
    the others in their order. *)
Inductive Subseq {A : Type} : list A -> list A -> Prop :=
| Subseq_nil : Subseq [] []
| Subseq_keep : forall x s l, Subseq s l -> Subseq (x :: s) (x :: l)
| Subseq_drop : forall x s l, Subseq s l -> Subseq s (x :: l).

#[local] Hint Constructors Subseq : core.

Fixpoint totalLength (parts : list jstring) : nat :=
  match parts with
  | [] => 0%nat
  | p :: r => (length p + totalLength r)%nat
  end.

(** ** Chunking *)

(** [current] after it has taken in [next]: the object literal of the
    loop's first branch. *)
Definition absorb (current next : TextChunk) : TextChunk :=
  mkTextChunk (content current ++ nlnl ++ content next)
              (index current) (startChar current) (endChar next).

(** The inputs used to exercise the chunker: three paragraphs, the
    first one short. *)
Definition sampleText : jstring :=
  $"a" ++ nlnl ++ $"bbbbb" ++ nlnl ++ $"ccccc".

Definition sampleOptions : PartialChunkOptions :=
  mkPartialChunkOptions (Some paragraph) (Some 5) (Some 1) (Some 3).

Definition sampleChunks : list TextChunk :=
  [ mkTextChunk ($"a" ++ nlnl ++ $"a" ++ nlnl ++ $"bbbbb") 0 0 10;
    mkTextChunk ($"b" ++ nlnl ++ $"ccccc") 2 4 12 ].

(** A run of consecutive input chunks that the merge pass turns into one
    output chunk: the chunk that starts the run and the chunks it takes
    in, in order. *)
Record Group := mkGroup {
  leader : TextChunk;
  followers : list TextChunk
}.

Definition members (g : Group) : list TextChunk := leader g :: followers g.

(** The output chunk of a run: the leader after it has absorbed its
    followers one after the other. *)
Definition fused (g : Group) : TextChunk := fold_left absorb (followers g) (leader g).

(** Each absorption happened because what had been accumulated until
    then was below the threshold. *)
Definition absorbedWhileSmall (minSize : Z) (g : Group) : Prop :=
  forall k, (k < length (followers g))%nat ->
            len (content (fold_left absorb (firstn k (followers g)) (leader g)))
            < minSize.

Definition reachedThreshold (minSize : Z) (g : Group) : Prop :=
  minSize <= len (content (fused g)).

(** Two chunk sequences with threshold 3: a short chunk in the middle,
    and a short chunk at the end. *)
Definition shortInMiddle : list TextChunk :=
  [ mkTextChunk $"aaaaa" 0 0 5; mkTextChunk $"b" 1 5 6; mkTextChunk $"ccccc" 2 6 11 ].

Definition shortAtEnd : list TextChunk :=
  [ mkTextChunk $"aaaaa" 0 0 5; mkTextChunk $"b" 1 5 6 ].

(** The chunk at position [i] has index [i]. *)
Definition indexedFrom0 (l : list TextChunk) : Prop :=
  map index l = seq 0 (length l).

(** Start offsets never decrease, and every chunk spans a non-negative
    range that ends after it starts. *)
Definition placed (l : list TextChunk) : Prop :=
  StronglySorted Z.le (map startChar l)
  /\ Forall (fun c => 0 <= startChar c <= endChar c) l.

(** The chunk pushed by one turn of the [while] loop. *)
Definition fixedChunkAt (words : list jstring) (size start : Z) (idx : nat)
  : TextChunk :=
  let end_ := Z.min (start + size) (len words) in
  let text := join $" " (slice words start end_) in
  let beforeText := len (join $" " (slice words 0 start)) in
  mkTextChunk text idx (beforeText + start) (beforeText + start + len text).

(** The [break] condition of that turn. *)
Definition fixedStops (words : list jstring) (size overlap start : Z) : bool :=
  let end_ := Z.min (start + size) (len words) in
  (end_ - start <? overlap) || (len words <=? end_).

(** The accumulator's chunks are numbered from 0 and [index] counts them. *)
Definition accIndexed (a : Acc) : Prop :=
  indexedFrom0 (chunks a) /\ nextIndex a = length (chunks a).

(** The accumulator's chunks are placed, and none starts after
    [currentStart]. *)
Definition accPlaced (a : Acc) : Prop :=
  placed (chunks a)
  /\ Forall (fun c => startChar c <= currentStart a) (chunks a)
  /\ 0 <= currentStart a.

(** The offset the packing loop computes for paragraph [i]. *)
Definition paragraphOffset (paragraphs : list jstring) (i : nat) : Z :=
  len (join nlnl (slice paragraphs 0 (Z.of_nat i)))
  + (if (0 <? i)%nat then 2 else 0).

(** Before paragraph [i] is handled: the chunks pushed are placed, none
    starts after [currentStart], and [currentStart] is at most the offset
    of paragraph [i]. *)
Definition semanticInvariant (paragraphs : list jstring) (i : nat) (a : Acc)
  : Prop :=
  accPlaced a
  /\ currentStart a <= len (join nlnl (firstn i paragraphs)) + 2
  /\ (i = 0%nat -> currentChunk a = []).

(** A second input: a paragraph that fills the chunk, then a short one. *)
Definition longThenShort : jstring := $"aaaaaaaaaa" ++ nlnl ++ $"b".

Definition longThenShortOptions : PartialChunkOptions :=
  mkPartialChunkOptions (Some paragraph) (Some 10) (Some 1) (Some 1).

Definition longThenShortChunks : list TextChunk :=
  [ mkTextChunk $"aaaaaaaaaa" 0 0 10; mkTextChunk ($"a" ++ nlnl ++ $"b") 1 2 6 ].

(** ** truncateContext *)

(** A sentence period or a newline. *)
Definition isBoundary (c : ascii) : bool :=
  ascii_is c "."%char || ascii_is c LF.

(** The position of the last character of [s] that satisfies [p]. *)
Fixpoint lastWhere (p : ascii -> bool) (s : jstring) : option nat :=
  match s with
  | [] => None
  | c :: r =>
      match lastWhere p r with
      | Some i => Some (S i)
      | None => if p c then Some 0%nat else None
      end
  end.

(** The behaviour the specification describes, for a budget of
    [4 * maxTokens] characters: the text itself when it fits; else its
    first [4 * maxTokens] characters, cut after their last boundary when
    that boundary lies within the last 20% of the budget (at or beyond 80%
    of it), and otherwise kept whole and followed by an ellipsis. *)
Definition truncateAsSpecified (text : jstring) (maxTokens : Z) : jstring :=
  let budget := 4 * maxTokens in
  if len text <=? budget then text
  else
    let kept := firstn (Z.to_nat budget) text in
    match lastWhere isBoundary kept with
    | Some p =>
        if 4 * budget <=? 5 * Z.of_nat p then firstn (S p) text
        else kept ++ $"..."
    | None => kept ++ $"..."
    end.

Definition position (p : option nat) : Z :=
  match p with Some i => Z.of_nat i | None => -1 end.

(** [p] is the index of the last boundary of [kept]. *)
Definition LastBoundaryAt (kept : jstring) (p : nat) : Prop :=
  (exists c, nth_error kept p = Some c /\ isBoundary c = true)
  /\ forall j c, (p < j)%nat -> nth_error kept j = Some c -> isBoundary c = false.

Definition NoBoundary (kept : jstring) : Prop :=
  forall c, In c kept -> isBoundary c = false.

(** The budgets, in characters, for which the comparison of
    [truncateContext] is checked below to be the exact one: up to
    [exactBudgets] characters. *)
Definition exactBudgets : Z := 1048576.

(** What is checked at a budget of [m] characters: the rounded product
    [m * 0.8] lies between the greatest integer that is at most four
    fifths of [m] and the next one, and the numbers of the integers around
    [m] are in order. *)
Definition agreesAt (m : Z) : bool :=
  let x := (Z2float m * 0.8)%float in
  let k := 4 * m / 5 in
  negb (x <? Z2float k)%float && (x <? Z2float (k + 1))%float
  && (Z2float (m - 1) <=? Z2float m)%float
  && (Z2float m <=? Z2float (m + 1))%float.

(** The check at the budgets [m], [m + 1], ..., [fuel] of them. *)
Fixpoint agreesFrom (fuel : nat) (m : Z) : bool :=
  match fuel with
  | O => true
  | S fuel' => if agreesAt m then agreesFrom fuel' (m + 1) else false
  end.

(** A text whose first 20 characters have their last period at index 16. *)
Definition periodAtSixteen : jstring := $"aaaa bbbb cccc d. eeee ffff".

Definition twoSentences : jstring := $"One two. Three four five".

(** ** The internal vector store *)

(** A component that is zero (of either sign). *)
Definition isZero (x : float) : Prop := (x = 0 \/ x = -0)%float.

(** The vector [search] reads for a chunk: [chunk.metadata?.embeddingVector]. *)
Definition storedVector (c : ChunkRow) : option (list float) :=
  metaField (row_metadata c) md_embeddingVector.

Definition sampleClock : nat -> Z := fun n => Z.of_nat n.

Definition sampleDocument : DocumentRow :=
  mkDocumentRow "d1" "Doc" "u1" [] COMPLETED COMPLETED 0 true.

Definition userFilter : Filter := mkFilter (Some "u1"%string) None.

Definition emptyStore : World :=
  mkWorld [sampleDocument] [] [] 0 sampleClock 0.

Definition onlyVector (v : list float) : Metadata :=
  mkMetadata None None None None (Some v).

(** Three rows no similarity can be computed from: no metadata, a vector
    of the wrong length, a zero vector. *)
Definition malformedRows : list ChunkRow :=
  [ mkChunkRow "c0" "d1" 0 $"zero" None None None None;
    mkChunkRow "c1" "d1" 1 $"one" None None None (Some (onlyVector [1]%float));
    mkChunkRow "c2" "d1" 2 $"two" None None None (Some (onlyVector [0; -0]%float)) ].

Definition malformedStore : World := setChunkRows emptyStore malformedRows.





Definition docName : option Metadata :=
  Some (mkMetadata None None None (Some "Doc"%string) None).

(** [r] with its [embedding] replaced by [e]. *)
Definition withEmbedding (r : VectorRecord) (e : list float) : VectorRecord :=
  mkVectorRecord (vr_id r) (vr_documentId r) (vr_chunkIndex r) (vr_content r) e
                 (vr_metadata r).

(** A record as [processDocument] builds it (its metadata has no
    [embeddingVector]) and a record whose metadata carries one. *)
Definition recordR : VectorRecord :=
  mkVectorRecord "d1-chunk-1" "d1" 1 $"self" [1; 0]%float
    (Some (mkMetadata (Some 0) (Some 4) (Some 50%float) (Some "Doc"%string) None)).

Definition recordS : VectorRecord :=
  mkVectorRecord "d1-chunk-0" "d1" 0 $"other" [0; 1]%float
    (Some (onlyVector [1; 0]%float)).

Definition afterUpsert : World :=
  snd ((internalUpsert [recordS] ;;; internalUpsert [recordR]) emptyStore).

(** ** Retrieval *)

(** The values [retrieve] destructures from its options. *)
Definition effectiveTopK (self : Retriever) (options : RetrievalOptions) : Z :=
  orElse (topK options) (retrievalTopK (config self)).

Definition effectiveThreshold (self : Retriever) (options : RetrievalOptions)
  : float :=
  orElse (opt_similarityThreshold options) (similarityThreshold (config self)).

Definition searchFilter (options : RetrievalOptions) : Filter :=
  mkFilter (Some (userId options))
    (match documentIds options with
     | Some (id :: ids) => Some (IdIn (id :: ids))
     | _ => None
     end).

(** The results that pass the threshold, cut to [k]. *)
Definition selected (threshold : float) (k : Z) (results : list VectorSearchResult)
  : list VectorSearchResult :=
  slice (List.filter (fun r => (threshold <=? score r)%float) results) 0 k.

(** Scores in descending order. *)
Definition descending (scores : list float) : Prop :=
  StronglySorted (fun a b => (b <=? a)%float = true) scores.

Definition fixedEmbedding : EmbeddingResult :=
  mkEmbeddingResult [1; 0]%float "stub" "stub" 0.

Definition stubProvider : EmbeddingProvider :=
  mkEmbeddingProvider "stub" 2 1
    (fun texts => ret (map (fun _ => fixedEmbedding) texts))
    (fun _ => ret fixedEmbedding).

(** A store holding [candidates], best first; it answers a search for
    [k] neighbours with the first [k] of them. *)
Definition stubStore (candidates : list VectorSearchResult) : VectorStore :=
  mkVectorStore "stub"
    (fun _ => ret tt)
    (fun _ k _ => ret (slice candidates 0 k))
    (fun _ => ret tt) (fun _ => ret tt) (ret (len candidates, 2)).

Definition candidate (id : string) (s : float) : VectorSearchResult :=
  mkVectorSearchResult id "d1" 0 $"text" s docName.

Definition threeCandidates : list VectorSearchResult :=
  [candidate "a" 0.9%float; candidate "b" 0.75%float; candidate "c" 0.5%float].

Definition sampleRetriever : Retriever :=
  mkRetriever (stubStore threeCandidates) stubProvider defaultRagConfig.

Definition askTopK (k : option Z) : RetrievalOptions :=
  mkRetrievalOptions $"question" "u1" None k None None.

Definition chunkOf (id : string) (s : float) : DocumentChunk :=
  toDocumentChunk (candidate id s).

(** ** Query transforms *)

(** [hyde] or [subquestion] was asked for and no [llmGenerate] given. *)
Definition fallbackOccurred (options : QueryOptions) : bool :=
  match transformQuery options, llmGenerate options with
  | Some hyde, None => true
  | Some subquestion, None => true
  | _, _ => false
  end.

Definition withTransform (options : QueryOptions) (t : option TransformKind)
  : QueryOptions :=
  mkQueryOptions (base options) t (customSystemPrompt options) (llmGenerate options).

Definition ask (t : option TransformKind) : QueryOptions :=
  mkQueryOptions (askTopK None) t None None.

(** ** Embedding and ingestion *)

(** The answer of an embedding service that embeds every text as [[1; 0]]. *)
Definition embedAll (input : list jstring) : EmbeddingResponse :=
  mkEmbeddingResponse (map (fun _ => [1; 0]%float) input) (Some 1).

(** An embedding service that rejects the request numbered [bad] and
    answers every other one. *)
Definition failingAt (bad : nat) : EmbeddingsApi :=
  fun n input => if (n =? bad)%nat then Throw "429 rate limit" else Ok (embedAll input).

(** One text more than a sub-batch of the OpenAI provider holds. *)
Definition manyTexts : list jstring := repeat $"x" 2049%nat.

Definition sampleParser (text : jstring) : string -> M ParsedDocument :=
  fun _ => ret (mkParsedDocument text (Some "Doc"%string) "txt" (len text)).

Definition brokenParser : string -> M ParsedDocument :=
  fun _ => throw "Unsupported file type".

Definition sampleUuid (n : nat) : string := ("doc-" ++ text_of_nat n)%string.

Definition ingestWith (api : EmbeddingsApi) (parser : string -> M ParsedDocument)
           (options : option PartialChunkOptions) : M IngestionResult :=
  ingestDocument (InternalVectorStore 1536)
                 (OpenAIEmbeddingProvider api "text-embedding-3-small")
                 defaultRagConfig parser sampleUuid (fun path => path)
                 "doc.txt" "u1" options.

Definition noDocuments : World := mkWorld [] [] [] 0 sampleClock 0.

(** One short paragraph: a single chunk, a single batch. *)
Definition shortDocument : jstring := $"Hello world. This is a text.".

(** 150 paragraphs of ten characters, chunked one paragraph at a time:
    150 chunks, two batches. *)
Definition longDocument : jstring :=
  join nlnl (repeat $"aaaaaaaaaa" 150%nat).

Definition oneParagraphPerChunk : option PartialChunkOptions :=
  Some (mkPartialChunkOptions (Some paragraph) (Some 10) (Some 1) (Some 1)).

Definition never : nat := 1000%nat.

(** [texts.slice(i, i + this.maxBatchSize)] *)
Definition subBatch (batch : nat) (texts : list jstring) (i : nat) : list jstring :=
  slice texts (Z.of_nat i) (Z.of_nat i + Z.of_nat batch).

(** [chunks.slice(i, i + batchSize)] *)
Definition batchAt (chunks : list TextChunk) (i : nat) : list TextChunk :=
  slice chunks (Z.of_nat i) (Z.of_nat i + Z.of_nat batchSize).

(** A run of the batch loop over the remaining values [starts] of the
    loop variable that leaves the loop normally.  Every batch is handed
    to [embed]; a batch that is embedded adds its results to
    [allEmbeddings]; a batch whose [embed] rejects adds a message with
    its number to [errors], and the run goes on with the next batch.
    [failures] lists the values of the loop variable of the batches
    that failed. *)
Inductive BatchRun (provider : EmbeddingProvider) (documentId : string)
          (chunks : list TextChunk) :
  list nat -> list Embedded * list string -> World ->
  list nat -> list Embedded * list string -> World -> Prop :=
| run_done st w : BatchRun provider documentId chunks [] st w [] st w
| run_embedded i starts st w results w1 w2 failures st' w' :
    embed provider (map content (batchAt chunks i)) w = (Ok results, w1) ->
    reportProgress documentId chunks i w1 = (Ok tt, w2) ->
    BatchRun provider documentId chunks starts
             (fst st ++ attach (batchAt chunks i) results, snd st) w2
             failures st' w' ->
    BatchRun provider documentId chunks (i :: starts) st w failures st' w'
| run_failed i starts st w message w1 w2 failures st' w' :
    embed provider (map content (batchAt chunks i)) w = (Throw message, w1) ->
    reportProgress documentId chunks i w1 = (Ok tt, w2) ->
    BatchRun provider documentId chunks starts
             (fst st, snd st ++ [batchError i message]) w2
             failures st' w' ->
    BatchRun provider documentId chunks (i :: starts) st w (i :: failures) st' w'.

(** ** Vocabulary of the further properties *)

(** *** Chunking *)

(** [text] is empty or begins with a white space character. *)
Definition spaceAhead (text : jstring) : Prop :=
  match text with [] => True | c :: _ => isWhiteSpace c = true end.

(** [word] stands in [text] between white space or the ends of the text. *)
Definition standsIn (word text : jstring) : Prop :=
  exists before after_,
    text = before ++ word ++ after_
    /\ isWhiteSpace (last before " "%char) = true
    /\ spaceAhead after_.

(** Eight words, chunked three at a time with an overlap of one, and
    with an overlap of five. *)
Definition eightWords : jstring := $"a b c d e f g h".

Definition threeByOne : ChunkOptions := mkChunkOptions fixed 3 1 1.

Definition threeByFive : ChunkOptions := mkChunkOptions fixed 3 5 1.

(** Two embedding functions: one gives every paragraph the same vector,
    the other gives one-letter paragraphs a vector orthogonal to that of
    the others. *)
Definition sameEmbedding (p : jstring) : M (list float) := ret [1; 0]%float.

Definition byLengthEmbedding (p : jstring) : M (list float) :=
  ret (if (length p =? 1)%nat then [1; 0]%float else [0; 1]%float).

Definition semanticOptions : ChunkOptions := mkChunkOptions semantic 5 1 3.

(** The chunks a run resolves with. *)
Definition resolved {A} (r : Result (list A) * World) : list A :=
  match fst r with Ok l => l | _ => [] end.

(** *** The internal vector store *)

(** The row of the chunk table with a given id. *)
Definition lookupRow (id : string) (rows : list ChunkRow) : option ChunkRow :=
  find (fun c => String.eqb (row_id c) id) rows.

(** The last record of a list that carries a given id. *)
Fixpoint lastRecord (id : string) (records : list VectorRecord)
  : option VectorRecord :=
  match records with
  | [] => None
  | r :: rest =>
      match lastRecord id rest with
      | Some r' => Some r'
      | None => if String.eqb (vr_id r) id then Some r else None
      end
  end.

(** The outcome and the final world of a run. *)
Definition outcome {A} (r : Result A * World) : Result A := fst r.
Definition after {A} (r : Result A * World) : World := snd r.

(** *** Retrieval *)

(** A store whose search answers with two chunks of 5 and 7 characters. *)
Definition twoChunkStore : VectorStore :=
  stubStore [ mkVectorSearchResult "a" "d1" 0 $"alpha" 0%float None;
              mkVectorSearchResult "b" "d1" 1 $"bravo12" 0%float None ].

Definition twoChunkRetriever : Retriever :=
  mkRetriever twoChunkStore stubProvider defaultRagConfig.

(** The searches of a [getDocumentContext] call: one for each document
    id, in order, with a vector of zeros, a [topK] of 10 and the id as
    filter, each in the world the one before left; [answers] holds what
    the store resolved with. *)
Inductive Answered (self : Retriever)
  : list string -> World -> list (list VectorSearchResult) -> World -> Prop :=
| AnsweredNone w : Answered self [] w [] w
| AnsweredNext docId rest w queryEmbedding w1 results w2 answers w' :
    zeroVector (embeddingDimension (config self)) w = (Ok queryEmbedding, w1) ->
    search (vectorStore self) queryEmbedding 10
           (Some (mkFilter None (Some (IdIs docId)))) w1
    = (Ok results, w2) ->
    Answered self rest w2 answers w' ->
    Answered self (docId :: rest) w (results :: answers) w'.

(** [kept] holds the contents of the first results of an answer. *)
Definition firstContents (kept : list jstring) (results : list VectorSearchResult)
  : Prop :=
  kept = firstn (length kept) (map sr_content results).


(** A stand-in for the language model: it answers every prompt with the
    same three lines. *)
Definition cannedAnswer (p : jstring) : M jstring :=
  ret ($"1. What is a vector store?" ++ nl ++ $"2) short" ++ nl
       ++ $"   How are chunks embedded?  ").

(** A query with retrieval switched off. *)
Definition withoutRag : QueryOptions :=
  mkQueryOptions (mkRetrievalOptions $"question" "u1" None None None (Some false))
                 (Some expanded) None None.

(** *** Chunk quality *)

(** The score [calculateChunkQuality] computes from the length term and
    the outcome of its two tests. *)
Definition qualityFrom (base : float) (structured coherent : bool) : float :=
  let score2 := if structured then (base + 15)%float else base in
  let score3 := if coherent then (score2 + 15)%float else score2 in
  if (score3 <? 100)%float then score3 else 100%float.

Definition inQualityRange (x : float) : bool := ((50 <=? x) && (x <=? 100))%float.

(** Every content length below 200, with every outcome of the tests. *)
Definition shortQualitiesInRange : bool :=
  forallb (fun n =>
             forallb (fun b1 =>
                        forallb (fun b2 =>
                                   inQualityRange
                                     (qualityFrom (50 + Z2float (Z.of_nat n) / 50)%float
                                                  b1 b2))
                                [true; false])
                     [true; false])
          (seq 0 200).

(** *** CSV lines *)

(** A field of a CSV line as it is written: bare, or between double
    quotes. *)
Inductive CsvField :=
| Bare (value : jstring)
| Quoted (value : jstring).

Definition written (f : CsvField) : jstring :=
  match f with
  | Bare value => value
  | Quoted value => [quoteChar] ++ value ++ [quoteChar]
  end.

Definition valueOf (f : CsvField) : jstring :=
  match f with Bare value | Quoted value => value end.

(** A bare field holds neither a quote nor a comma; a quoted field holds
    no quote. *)
Definition wellFormed (f : CsvField) : Prop :=
  match f with
  | Bare value => ~ In quoteChar value /\ ~ In ","%char value
  | Quoted value => ~ In quoteChar value
  end.

(** *** Embedding and ingestion *)

(** An embeddings service that answers every request with one vector
    per input. *)
Definition alwaysEmbeds : EmbeddingsApi := fun _ input => Ok (embedAll input).

(** The id [processDocument] gives to the record of a chunk. *)
Definition recordId (documentId : string) (c : TextChunk) : string :=
  (documentId ++ "-chunk-" ++ text_of_nat (index c))%string.

(** The status the document row gets for a result. *)
Definition rowStatus (s : IngestionStatus) : DocStatus :=
  match s with failed => FAILED | _ => COMPLETED end.

(** A run of [processDocument] on a one-paragraph document whose row
    exists, with an embedding service that answers every request. *)
Definition sampleParsed : ParsedDocument :=
  mkParsedDocument shortDocument (Some "Doc"%string) "txt" 28.

Definition processingDocument : World :=
  setDocuments noDocuments
    [mkDocumentRow "doc-0" "Doc" "u1" shortDocument PROCESSING PROCESSING 0 false].

Definition sampleProcessing : Result IngestionResult * World :=
  processDocument (InternalVectorStore 1536)
                  (OpenAIEmbeddingProvider alwaysEmbeds "text-embedding-3-small")
                  defaultRagConfig "doc-0" sampleParsed None processingDocument.

Definition sampleResult : IngestionResult :=
  mkIngestionResult "doc-0" 1 success None.

(** The record [processDocument] builds for an embedded chunk. *)
Definition recordOf (documentId : string) (documentName : option string)
           (e : TextChunk * list float) : VectorRecord :=
  mkVectorRecord (recordId documentId (fst e)) documentId (index (fst e))
                 (content (fst e)) (snd e)
                 (Some (mkMetadata (Some (startChar (fst e))) (Some (endChar (fst e)))
                          (Some (calculateChunkQuality (content (fst e))))
                          documentName None)).

(** A retriever over the internal store and the OpenAI provider. *)
Definition internalRetriever (dimension : Z) (api : EmbeddingsApi) (model : string)
           (cfg : RagConfig) : Retriever :=
  mkRetriever (InternalVectorStore dimension) (OpenAIEmbeddingProvider api model) cfg.

(** The value a run resolves with (an empty result otherwise). *)
Definition resolvedWith (r : Result RetrievalResult * World) : RetrievalResult :=
  match fst r with
  | Ok x => x
  | _ => mkRetrievalResult [] 0 [] 0
  end.

(** *** Blank texts *)

(** A text made of white space only (the empty text is one). *)
Definition blank (text : jstring) : Prop :=
  Forall (fun c => isWhiteSpace c = true) text.

(** A document that holds two spaces and a line feed. *)
Definition blankParsed : ParsedDocument :=
  mkParsedDocument ($"  " ++ nl) (Some "Doc"%string) "txt" 3.

(** * Properties *)

(** ** Subsequences *)

Section SubseqFacts.

Context {A : Type}.

Lemma Subseq_refl (l : list A) : Subseq l l.
Proof. induction l; auto. Qed.

Lemma Subseq_nil_l (l : list A) : Subseq [] l.
Proof. induction l; auto. Qed.

Lemma Subseq_In (s l : list A) : Subseq s l -> forall x, In x s -> In x l.
Proof.
  induction 1; simpl; intros y Hy; auto.
  destruct Hy; auto.
Qed.

Lemma Subseq_trans (a b c : list A) : Subseq a b -> Subseq b c -> Subseq a c.
Proof.
  intros Hab Hbc. revert a Hab.
  induction Hbc; intros a Hab; auto.
  inversion Hab; subst; auto.
Qed.

Lemma Subseq_length (s l : list A) : Subseq s l -> (length s <= length l)%nat.
Proof. induction 1; simpl; lia. Qed.

Lemma Subseq_filter (p : A -> bool) (l : list A) : Subseq (List.filter p l) l.
Proof.
  induction l as [|x l IH]; simpl; auto.
  destruct (p x); auto.
Qed.

Lemma Subseq_firstn (n : nat) (l : list A) : Subseq (firstn n l) l.
Proof.
  revert n; induction l as [|x l IH]; intros [|n]; simpl; auto.
  apply Subseq_nil_l.
Qed.

Lemma Subseq_skipn (n : nat) (l : list A) : Subseq (skipn n l) l.
Proof.
  revert n; induction l as [|x l IH]; intros [|n]; simpl; auto.
  apply Subseq_refl.
Qed.

Lemma Subseq_map {B} (f : A -> B) (s l : list A) :
  Subseq s l -> Subseq (map f s) (map f l).
Proof. induction 1; simpl; auto. Qed.

Lemma Subseq_sorted (R : A -> A -> Prop) (s l : list A) :
  Subseq s l -> StronglySorted R l -> StronglySorted R s.
Proof.
  induction 1; intros Hs; auto.
  - inversion Hs; subst. constructor; auto.
    rewrite Forall_forall in *. intros y Hy.
    eauto using Subseq_In.
  - inversion Hs; subst. auto.
Qed.

End SubseqFacts.

(** ** Facts about the JavaScript primitives *)

Lemma len_nonneg {A} (l : list A) : 0 <= len l.
Proof. unfold len; lia. Qed.

Lemma len_app {A} (a b : list A) : len (a ++ b) = len a + len b.
Proof. unfold len; rewrite length_app; lia. Qed.

Lemma relIndex_le (n : nat) (k : Z) : (relIndex n k <= n)%nat.
Proof. unfold relIndex; destruct (k <? 0) eqn:E; lia. Qed.

Lemma relIndex_nonneg (n : nat) (k : Z) :
  0 <= k -> relIndex n k = Nat.min (Z.to_nat k) n.
Proof. intros H; unfold relIndex. destruct (k <? 0) eqn:E; [lia | reflexivity]. Qed.

(** [l.slice(0, e)] with [e >= 0] is the prefix of length [e]. *)
Lemma slice_prefix {A} (l : list A) (e : Z) :
  0 <= e -> slice l 0 e = firstn (Z.to_nat e) l.
Proof.
  intros H. unfold slice.
  rewrite (relIndex_nonneg _ e H), (relIndex_nonneg _ 0) by lia.
  simpl. rewrite Nat.sub_0_r.
  destruct (Nat.le_ge_cases (Z.to_nat e) (length l)) as [Hle | Hge].
  - now rewrite Nat.min_l.
  - rewrite Nat.min_r by assumption.
    now rewrite !firstn_all2 by lia.
Qed.

Lemma slice_Subseq {A} (l : list A) (s e : Z) : Subseq (slice l s e) l.
Proof.
  unfold slice.
  eapply Subseq_trans; [apply Subseq_firstn | apply Subseq_skipn].
Qed.

Lemma slice_length_le {A} (l : list A) (e : Z) :
  0 <= e -> len (slice l 0 e) <= e.
Proof.
  intros H. rewrite slice_prefix by assumption.
  unfold len. rewrite length_firstn. lia.
Qed.

Lemma join_length (sep : jstring) (parts : list jstring) :
  length (join sep parts)
  = (totalLength parts + length sep * (length parts - 1))%nat.
Proof.
  induction parts as [|p [|q r] IH]; simpl in *; try lia.
  rewrite !length_app, IH. lia.
Qed.

Lemma totalLength_firstn_mono (parts : list jstring) (n m : nat) :
  (n <= m)%nat ->
  (totalLength (firstn n parts) <= totalLength (firstn m parts))%nat.
Proof.
  revert n m; induction parts as [|p r IH]; intros [|n] [|m] H; simpl; try lia.
  specialize (IH n m). lia.
Qed.

Lemma join_firstn_mono (sep : jstring) (parts : list jstring) (n m : nat) :
  (n <= m)%nat ->
  (length (join sep (firstn n parts)) <= length (join sep (firstn m parts)))%nat.
Proof.
  intros H. rewrite !join_length.
  pose proof (totalLength_firstn_mono parts n m H).
  rewrite !length_firstn.
  assert (Nat.min n (length parts) <= Nat.min m (length parts))%nat by lia.
  nia.
Qed.

(** ** mergeSmallChunks *)

Lemma mergeLoop_small (minSize : Z) current next rest :
  len (content current) < minSize ->
  mergeLoop minSize current (next :: rest)
  = mergeLoop minSize (absorb current next) rest.
Proof. intros H. simpl. destruct (Z.ltb_spec (len (content current)) minSize); [reflexivity | lia]. Qed.

Lemma mergeLoop_big (minSize : Z) current next rest :
  minSize <= len (content current) ->
  mergeLoop minSize current (next :: rest)
  = current :: mergeLoop minSize next rest.
Proof. intros H. simpl. destruct (Z.ltb_spec (len (content current)) minSize); [lia | reflexivity]. Qed.

Lemma mergeSmallChunks_loop (minSize : Z) first rest :
  mergeSmallChunks (first :: rest) minSize = mergeLoop minSize first rest.
Proof. destruct rest; reflexivity. Qed.

Lemma mergeLoop_not_nil (minSize : Z) rest current :
  mergeLoop minSize current rest <> [].
Proof.
  revert current; induction rest as [|next rest IH]; intros current; simpl.
  - discriminate.
  - destruct (len (content current) <? minSize); [apply IH | discriminate].
Qed.

(** Everything [merged.push(current)] pushes inside the loop has reached
    the threshold; only the push after the loop is unconditional. *)
Lemma mergeLoop_all_but_last (minSize : Z) rest current :
  Forall (fun c => minSize <= len (content c))
         (removelast (mergeLoop minSize current rest)).
Proof.
  revert current; induction rest as [|next rest IH]; intros current.
  - constructor.
  - destruct (Z.lt_ge_cases (len (content current)) minSize) as [Hs | Hb].
    + rewrite mergeLoop_small by assumption. apply IH.
    + rewrite mergeLoop_big by assumption.
      pose proof (mergeLoop_not_nil minSize rest next) as Hne.
      destruct (mergeLoop minSize next rest) as [|c l] eqn:E; [congruence |].
      change (removelast (current :: c :: l)) with (current :: removelast (c :: l)).
      constructor; [assumption |]. rewrite <- E. apply IH.
Qed.

Lemma mergeSmallChunks_all_but_last (chunks : list TextChunk) (minSize : Z) :
  Forall (fun c => minSize <= len (content c))
         (removelast (mergeSmallChunks chunks minSize)).
Proof.
  destruct chunks as [|first rest]; [constructor |].
  rewrite mergeSmallChunks_loop. apply mergeLoop_all_but_last.
Qed.

(** Every strategy ends with the merge pass. *)
Lemma chunkText_is_merged (text : jstring) (options : PartialChunkOptions) out :
  chunkText text options = Some out ->
  exists pre,
    out = mergeSmallChunks pre (minChunkSize (effectiveOptions options)).
Proof.
  unfold chunkText, chunkByFixedSize, chunkByParagraph, chunkBySentence.
  destruct (strategy (effectiveOptions options));
    match goal with
    | |- context [match ?x with Some _ => _ | None => _ end] => destruct x
    end; intros H; inversion H; eauto.
Qed.

(** ** Chunk sizes after the merge pass *)

Lemma chunkText_sample : chunkText sampleText sampleOptions = Some sampleChunks.
Proof. reflexivity. Qed.

(** C7.  Whatever the text, the options and the strategy, when the
    chunker returns a chunk sequence, every chunk of it except possibly
    the last has a content of at least [minChunkSize] characters (the
    [minChunkSize] in force, i.e. after the defaults of [chunkText]). *)
Theorem C7_all_but_last_reach_minChunkSize
        (text : jstring) (options : PartialChunkOptions) (out : list TextChunk) :
  chunkText text options = Some out ->
  Forall (fun c => minChunkSize (effectiveOptions options) <= len (content c))
         (removelast out).
Proof.
  intros H. destruct (chunkText_is_merged text options out H) as [pre ->].
  apply mergeSmallChunks_all_but_last.
Qed.

Lemma C7_witness :
  chunkText sampleText sampleOptions = Some sampleChunks
  /\ Forall (fun c => minChunkSize (effectiveOptions sampleOptions) <= len (content c))
            (removelast sampleChunks).
Proof.
  split; [reflexivity |].
  apply (C7_all_but_last_reach_minChunkSize sampleText sampleOptions sampleChunks).
  reflexivity.
Defined.

(** ** What the merge pass does *)

Lemma mergeLoop_groups (minSize : Z) (rest : list TextChunk) :
  forall current,
  exists (taken : list TextChunk) (others : list Group),
    rest = taken ++ flat_map members others
    /\ mergeLoop minSize current rest
       = fused (mkGroup current taken) :: map fused others
    /\ absorbedWhileSmall minSize (mkGroup current taken)
    /\ (others <> [] -> reachedThreshold minSize (mkGroup current taken))
    /\ Forall (absorbedWhileSmall minSize) others
    /\ Forall (reachedThreshold minSize) (removelast others).
Proof.
  induction rest as [|next rest IH]; intros current.
  - exists [], []. repeat split; simpl; auto.
    + intros k Hk; simpl in Hk; lia.
    + intros H; congruence.
  - destruct (Z.lt_ge_cases (len (content current)) minSize) as [Hs | Hb].
    + destruct (IH (absorb current next))
        as (taken & others & Hrest & Hloop & Hsmall & Hreach & Hall & Hlast).
      exists (next :: taken), others.
      rewrite mergeLoop_small by assumption.
      repeat split; auto.
      * simpl; congruence.
      * intros [|k] Hk; simpl in *; [assumption |].
        apply (Hsmall k); simpl; lia.
    + destruct (IH next)
        as (taken & others & Hrest & Hloop & Hsmall & Hreach & Hall & Hlast).
      exists [], (mkGroup next taken :: others).
      rewrite mergeLoop_big by assumption.
      repeat split; auto.
      * cbn [flat_map members leader followers app]. now rewrite Hrest.
      * cbn [map fused leader followers fold_left]. now rewrite Hloop.
      * intros k Hk; simpl in Hk; lia.
      * destruct others as [|g others'].
        -- constructor.
        -- change (removelast (mkGroup next taken :: g :: others'))
             with (mkGroup next taken :: removelast (g :: others')).
           constructor; [apply Hreach; discriminate | assumption].
Qed.

(** C8 (amended).  The merge pass cuts the chunk sequence into runs of
    consecutive chunks and returns one chunk per run.  In a run the first
    chunk absorbs the chunks after it (always forwards: it keeps its own
    [index] and [startChar] and takes the last [endChar]); each absorption
    happens because the content accumulated so far is shorter than
    [minSize], and a run ends when the accumulated content reaches
    [minSize] or the input is exhausted.  So only the last run can end
    below the threshold. *)
Theorem C8_merge_is_forward_absorption (chunks : list TextChunk) (minSize : Z) :
  exists runs : list Group,
    flat_map members runs = chunks
    /\ mergeSmallChunks chunks minSize = map fused runs
    /\ Forall (absorbedWhileSmall minSize) runs
    /\ Forall (reachedThreshold minSize) (removelast runs).
Proof.
  destruct chunks as [|first rest].
  - exists []. repeat split; constructor.
  - destruct (mergeLoop_groups minSize rest first)
      as (taken & others & Hrest & Hloop & Hsmall & Hreach & Hall & Hlast).
    exists (mkGroup first taken :: others).
    rewrite mergeSmallChunks_loop.
    repeat split.
    + cbn [flat_map members leader followers app]. now rewrite Hrest.
    + cbn [map]. now rewrite Hloop.
    + constructor; assumption.
    + destruct others as [|g others'].
      * constructor.
      * change (removelast (mkGroup first taken :: g :: others'))
          with (mkGroup first taken :: removelast (g :: others')).
        constructor; [apply Hreach; discriminate | assumption].
Qed.

(** C8, as stated, fails: a short chunk that is not the first is not
    merged into the chunk before it (it absorbs the chunk after it), and
    a short last chunk stays although two chunks are left. *)
Lemma C8_counterexample :
  mergeSmallChunks shortInMiddle 3
  = [ mkTextChunk $"aaaaa" 0 0 5; mkTextChunk ($"b" ++ nlnl ++ $"ccccc") 1 5 11 ]
  /\ mergeSmallChunks shortAtEnd 3 = shortAtEnd
  /\ len (content (mkTextChunk $"b" 1 5 6)) < 3.
Proof. repeat split. Qed.

(** ** Indices and offsets of the chunk sequence *)

Lemma seq_StronglySorted (a n : nat) : StronglySorted lt (seq a n).
Proof.
  revert a; induction n as [|n IH]; intros a; simpl; constructor; auto.
  rewrite Forall_forall. intros x Hx. apply in_seq in Hx. lia.
Qed.

Lemma StronglySorted_snoc {A} (R : A -> A -> Prop) (l : list A) (y : A) :
  StronglySorted R l -> Forall (fun x => R x y) l -> StronglySorted R (l ++ [y]).
Proof.
  induction l as [|x l IH]; simpl; intros Hs Hf.
  - repeat constructor.
  - inversion Hs; inversion Hf; subst. constructor; auto.
    rewrite Forall_app; auto.
Qed.

Lemma indexedFrom0_snoc (l : list TextChunk) (c : TextChunk) :
  indexedFrom0 l -> index c = length l -> indexedFrom0 (l ++ [c]).
Proof.
  unfold indexedFrom0. intros H Hc.
  rewrite map_app, length_app, H. simpl.
  rewrite Nat.add_1_r, seq_S. simpl. congruence.
Qed.

Lemma placed_nil : placed [].
Proof. split; constructor. Qed.

Lemma placed_snoc (l : list TextChunk) (c : TextChunk) :
  placed l ->
  Forall (fun x => startChar x <= startChar c) l ->
  0 <= startChar c <= endChar c ->
  placed (l ++ [c]).
Proof.
  intros [Hs Hf] Hle Hc. split.
  - rewrite map_app. simpl. apply StronglySorted_snoc; [assumption |].
    rewrite Forall_map. assumption.
  - rewrite Forall_app. split; [assumption | repeat constructor; lia].
Qed.

(** In a placed sequence every start offset is at most the end offset of
    the last chunk. *)
Lemma placed_last_end (l : list TextChunk) (c : TextChunk) :
  placed (l ++ [c]) -> Forall (fun x => startChar x <= endChar c) (l ++ [c]).
Proof.
  intros [Hs Hf]. rewrite Forall_app in Hf. destruct Hf as [_ Hc].
  inversion Hc; subst.
  rewrite Forall_app. split; [| repeat constructor; lia].
  rewrite map_app in Hs. simpl in Hs.
  induction l as [|x l IH]; [constructor |].
  simpl in Hs. inversion Hs; subst. constructor.
  - rewrite Forall_app in H4. destruct H4 as [_ H4]. inversion H4; subst. lia.
  - apply IH. assumption.
Qed.

Section MergeKeeps.

Context {K : Type} (key : TextChunk -> K).
Hypothesis key_absorb : forall c n, key (absorb c n) = key c.

(** The merge pass never changes the [key] of the chunk that leads a
    run, and drops the keys of the chunks it absorbs. *)
Lemma mergeLoop_keys (minSize : Z) (rest : list TextChunk) :
  forall current,
  exists tl,
    map key (mergeLoop minSize current rest) = key current :: tl
    /\ Subseq tl (map key rest).
Proof.
  induction rest as [|next rest IH]; intros current.
  - exists []. split; [reflexivity | constructor].
  - destruct (Z.lt_ge_cases (len (content current)) minSize) as [Hs | Hb].
    + rewrite mergeLoop_small by assumption.
      destruct (IH (absorb current next)) as (tl & Heq & Hsub).
      exists tl. rewrite Heq, key_absorb. split; [reflexivity |].
      simpl. apply Subseq_drop. assumption.
    + rewrite mergeLoop_big by assumption.
      destruct (IH next) as (tl & Heq & Hsub).
      exists (key next :: tl). simpl. rewrite Heq. split; [reflexivity |].
      apply Subseq_keep. assumption.
Qed.

Lemma mergeSmallChunks_keys (chunks : list TextChunk) (minSize : Z) :
  Subseq (map key (mergeSmallChunks chunks minSize)) (map key chunks)
  /\ hd_error (map key (mergeSmallChunks chunks minSize))
     = hd_error (map key chunks).
Proof.
  destruct chunks as [|first rest].
  - split; [constructor | reflexivity].
  - rewrite mergeSmallChunks_loop.
    destruct (mergeLoop_keys minSize rest first) as (tl & Heq & Hsub).
    rewrite Heq. simpl. split; [apply Subseq_keep; assumption | reflexivity].
Qed.

End MergeKeeps.

Lemma mergeLoop_placed (minSize : Z) (rest : list TextChunk) :
  forall current, placed (current :: rest) -> placed (mergeLoop minSize current rest).
Proof.
  induction rest as [|next rest IH]; intros current Hp.
  - exact Hp.
  - destruct Hp as [Hs Hf]. simpl in Hs.
    inversion Hs as [|? ? Hs' Hall]; subst.
    inversion Hs' as [|? ? Hs'' Hall']; subst.
    inversion Hall as [|? ? Hcn Hall'']; subst.
    inversion Hf as [|? ? Hc Hf']; subst.
    inversion Hf' as [|? ? Hn Hf'']; subst.
    destruct (Z.lt_ge_cases (len (content current)) minSize) as [Hsm | Hb].
    + rewrite mergeLoop_small by assumption. apply IH. split.
      * simpl. constructor; assumption.
      * constructor; [simpl; lia | assumption].
    + rewrite mergeLoop_big by assumption.
      assert (Hrec : placed (mergeLoop minSize next rest))
        by (apply IH; split; assumption).
      destruct Hrec as [Hrs Hrf]. split.
      * simpl. constructor; [assumption |].
        destruct (mergeLoop_keys startChar (fun _ _ => eq_refl) minSize rest next)
          as (tl & Heq & Hsub).
        rewrite Heq. constructor; [assumption |].
        rewrite Forall_forall in *. intros z Hz.
        apply Hall''. eapply Subseq_In; eassumption.
      * constructor; assumption.
Qed.

Lemma mergeSmallChunks_placed (chunks : list TextChunk) (minSize : Z) :
  placed chunks -> placed (mergeSmallChunks chunks minSize).
Proof.
  destruct chunks as [|first rest]; [trivial |].
  rewrite mergeSmallChunks_loop. apply mergeLoop_placed.
Qed.

(** *** The fixed-size chunker *)

Lemma fixedLoop_unfold fuel words size overlap start idx chunks :
  fixedLoop (S fuel) words size overlap start idx chunks
  = if start <? len words then
      if fixedStops words size overlap start
      then Some (chunks ++ [fixedChunkAt words size start idx])
      else fixedLoop fuel words size overlap (start + (size - overlap)) (S idx)
                     (chunks ++ [fixedChunkAt words size start idx])
    else Some chunks.
Proof. reflexivity. Qed.

(** A turn that does not [break] moves [start] forwards (or leaves it
    where it is). *)
Lemma fixedStops_false words size overlap start :
  fixedStops words size overlap start = false -> 0 <= size - overlap.
Proof.
  unfold fixedStops. intros H.
  apply orb_false_iff in H. destruct H as [H1 H2].
  apply Z.ltb_ge in H1. apply Z.leb_gt in H2. lia.
Qed.

Lemma wordOffset_mono (words : list jstring) (a b : Z) :
  0 <= a <= b ->
  len (join $" " (slice words 0 a)) + a <= len (join $" " (slice words 0 b)) + b.
Proof.
  intros H. rewrite !slice_prefix by lia.
  pose proof (join_firstn_mono $" " words (Z.to_nat a) (Z.to_nat b)).
  unfold len. lia.
Qed.

Lemma fixedLoop_indexed words size overlap :
  forall fuel start idx chunks out,
    indexedFrom0 chunks -> idx = length chunks ->
    fixedLoop fuel words size overlap start idx chunks = Some out ->
    indexedFrom0 out.
Proof.
  induction fuel as [|fuel IH]; intros start idx chunks out Hi Hidx H.
  - discriminate.
  - rewrite fixedLoop_unfold in H.
    assert (Hnew : indexedFrom0 (chunks ++ [fixedChunkAt words size start idx]))
      by (apply indexedFrom0_snoc; [assumption | exact Hidx]).
    destruct (start <? len words); [| inversion H; subst; assumption].
    destruct (fixedStops words size overlap start).
    + inversion H; subst; assumption.
    + eapply IH; [exact Hnew | | exact H].
      rewrite length_app. simpl. lia.
Qed.

Lemma fixedLoop_placed words size overlap :
  forall fuel start idx chunks out,
    0 <= start -> placed chunks ->
    Forall (fun c => startChar c <= len (join $" " (slice words 0 start)) + start)
           chunks ->
    fixedLoop fuel words size overlap start idx chunks = Some out ->
    placed out.
Proof.
  induction fuel as [|fuel IH]; intros start idx chunks out H0 Hp Hb H.
  - discriminate.
  - rewrite fixedLoop_unfold in H.
    assert (Hnew : placed (chunks ++ [fixedChunkAt words size start idx])).
    { apply placed_snoc; [assumption | exact Hb |].
      unfold fixedChunkAt. cbn [startChar endChar].
      pose proof (len_nonneg (join $" " (slice words 0 start))).
      pose proof (len_nonneg
                    (join $" " (slice words start (Z.min (start + size) (len words))))).
      lia. }
    destruct (start <? len words); [| inversion H; subst; assumption].
    destruct (fixedStops words size overlap start) eqn:Estop.
    + inversion H; subst; assumption.
    + apply fixedStops_false in Estop.
      eapply IH; [| exact Hnew | | exact H]; [lia |].
      pose proof (wordOffset_mono words start (start + (size - overlap))) as Hm.
      rewrite Forall_app. split.
      * rewrite Forall_forall in *. intros c Hc. specialize (Hb c Hc). lia.
      * repeat constructor. unfold fixedChunkAt. cbn [startChar]. lia.
Qed.

Lemma chunkByFixedSize_indexed text options out :
  chunkByFixedSize text options = Some out ->
  exists pre, indexedFrom0 pre
              /\ out = mergeSmallChunks pre (minChunkSize options).
Proof.
  unfold chunkByFixedSize.
  destruct (fixedLoop _ _ _ _ _ _ _) as [pre|] eqn:E; [| discriminate].
  intros H; inversion H; subst. exists pre. split; [| reflexivity].
  eapply fixedLoop_indexed; [| | exact E]; reflexivity.
Qed.

Lemma chunkByFixedSize_placed text options out :
  chunkByFixedSize text options = Some out -> placed out.
Proof.
  unfold chunkByFixedSize.
  destruct (fixedLoop _ _ _ _ _ _ _) as [pre|] eqn:E; [| discriminate].
  intros H; inversion H; subst. apply mergeSmallChunks_placed.
  eapply fixedLoop_placed; [| apply placed_nil | constructor | exact E]. lia.
Qed.

(** *** Termination of the fixed-size chunker *)

Lemma fixedLoop_more_fuel words size overlap :
  forall fuel start idx chunks out,
    fixedLoop fuel words size overlap start idx chunks = Some out ->
    forall extra,
      fixedLoop (fuel + extra) words size overlap start idx chunks = Some out.
Proof.
  induction fuel as [|fuel IH]; intros start idx chunks out H extra.
  - discriminate.
  - change (S fuel + extra)%nat with (S (fuel + extra)).
    rewrite fixedLoop_unfold in *.
    destruct (start <? len words); [| exact H].
    destruct (fixedStops words size overlap start); [exact H |].
    apply IH, H.
Qed.

(** When every turn advances [start], the loop ends within as many
    turns as there are words left. *)
Lemma fixedLoop_enough words size overlap :
  1 <= size - overlap ->
  forall fuel start idx chunks,
    0 <= start ->
    (Z.to_nat (len words - start) < fuel)%nat ->
    exists out, fixedLoop fuel words size overlap start idx chunks = Some out.
Proof.
  intros Hstep. induction fuel as [|fuel IH]; intros start idx chunks H0 Hf.
  - lia.
  - rewrite fixedLoop_unfold.
    destruct (Z.ltb_spec start (len words)) as [Hlt | Hge]; [| eauto].
    destruct (fixedStops words size overlap start); [eauto |].
    apply IH; lia.
Qed.

(** When [chunkSize = chunkOverlap], a turn that does not [break] leaves
    [start] where it is, and the loop never ends. *)
Lemma fixedLoop_stuck words size overlap start :
  size - overlap = 0 ->
  (start <? len words) = true ->
  fixedStops words size overlap start = false ->
  forall fuel idx chunks,
    fixedLoop fuel words size overlap start idx chunks = None.
Proof.
  intros Hstep Hlt Hstop. induction fuel as [|fuel IH]; intros idx chunks.
  - reflexivity.
  - rewrite fixedLoop_unfold, Hlt, Hstop, Hstep, Z.add_0_r. apply IH.
Qed.

(** [fixedFuel] is enough: a run that ends with some fuel ends with it. *)
Lemma fixedFuel_adequate words size overlap fuel out :
  fixedLoop fuel words size overlap 0 0%nat [] = Some out ->
  fixedLoop (fixedFuel words) words size overlap 0 0%nat [] = Some out.
Proof.
  intros H. destruct fuel as [|fuel]; [discriminate |].
  unfold fixedFuel. rewrite fixedLoop_unfold in *.
  destruct (Z.ltb_spec 0 (len words)) as [Hlt | Hge]; [| exact H].
  destruct (fixedStops words size overlap 0) eqn:Estop; [exact H |].
  pose proof (fixedStops_false _ _ _ _ Estop) as Hstep.
  destruct (Z.eq_dec (size - overlap) 0) as [Hz | Hnz].
  - rewrite Hz in H. change (0 + 0) with 0 in H.
    rewrite fixedLoop_stuck in H; try assumption; [discriminate |].
    apply Z.ltb_lt; assumption.
  - destruct (fixedLoop_enough words size overlap ltac:(lia) (length words)
                (0 + (size - overlap)) 1%nat
                ([] ++ [fixedChunkAt words size 0 0])) as [out' Hout'].
    + lia.
    + unfold len in *. lia.
    + pose proof (fixedLoop_more_fuel _ _ _ _ _ _ _ _ H (length words)) as H1.
      pose proof (fixedLoop_more_fuel _ _ _ _ _ _ _ _ Hout' fuel) as H2.
      rewrite Nat.add_comm in H2. rewrite H1 in H2. congruence.
Qed.

(** [split] always yields at least one piece. *)
Lemma splitBy_not_nil matchAt s : forall prev skip cur,
  splitBy matchAt prev skip cur s <> [].
Proof.
  induction s as [|c s IH]; intros prev skip cur; simpl; [discriminate |].
  destruct skip; [| apply IH].
  destruct (matchAt prev (c :: s)); [apply IH | discriminate].
Qed.

(** The fixed-size chunker fails to return exactly when the overlap
    equals the chunk size and the text has more words than that: the
    loop then repeats its first turn for ever. *)
Theorem chunkByFixedSize_hangs_iff (text : jstring) (options : ChunkOptions) :
  chunkByFixedSize text options = None
  <-> chunkSize options = chunkOverlap options
      /\ chunkSize options < len (split reWhitespace text).
Proof.
  unfold chunkByFixedSize.
  set (words := split reWhitespace text).
  assert (Hw : 0 < len words).
  { unfold len. pose proof (splitBy_not_nil reWhitespace text None 0%nat []) as Hn.
    fold (split reWhitespace text) in Hn. fold words in Hn.
    destruct words; [congruence | simpl; lia]. }
  unfold fixedFuel. rewrite fixedLoop_unfold.
  destruct (Z.ltb_spec 0 (len words)) as [_ | Hc]; [| lia].
  destruct (fixedStops words (chunkSize options) (chunkOverlap options) 0) eqn:Estop.
  - split; [discriminate |]. intros [He Hl].
    unfold fixedStops in Estop. apply orb_true_iff in Estop.
    destruct Estop as [E | E]; [apply Z.ltb_lt in E | apply Z.leb_le in E]; lia.
  - pose proof (fixedStops_false _ _ _ _ Estop) as Hstep.
    pose proof Estop as Estop'. unfold fixedStops in Estop'.
    apply orb_false_iff in Estop'. destruct Estop' as [E1 E2].
    apply Z.ltb_ge in E1. apply Z.leb_gt in E2.
    destruct (Z.eq_dec (chunkSize options - chunkOverlap options) 0) as [Hz | Hnz].
    + rewrite Hz. change (0 + 0) with 0.
      rewrite fixedLoop_stuck; try assumption; [| apply Z.ltb_lt; lia].
      split; [intros _; lia | reflexivity].
    + destruct (fixedLoop_enough words (chunkSize options) (chunkOverlap options)
                  ltac:(lia) (length words)
                  (0 + (chunkSize options - chunkOverlap options)) 1%nat
                  ([] ++ [fixedChunkAt words (chunkSize options) 0 0]))
        as [out Hout]; [lia | unfold len in *; lia |].
      rewrite Hout. split; [discriminate | lia].
Qed.

(** *** The sentence and paragraph chunkers *)

Lemma foldM_preserves {A B} (P : A -> Prop) (f : A -> B -> option A) (l : list B) :
  (forall a x a', P a -> f a x = Some a' -> P a') ->
  forall a a', P a -> foldM f l a = Some a' -> P a'.
Proof.
  intros Hstep. induction l as [|x l IH]; intros a a' Ha H; simpl in H.
  - inversion H; subst; assumption.
  - destruct (f a x) as [a1|] eqn:E; [| discriminate]. eauto.
Qed.

(** A property of the accumulator that every operation of the two loop
    bodies maintains is maintained by the loop bodies.  [okDelta] says by
    how much [currentStart] may be moved, [goodSubs] what is known of the
    chunks a sub-chunker returns. *)
Section StepInvariant.

Variable P : Acc -> Prop.
Variable goodSubs : list TextChunk -> Prop.
Variable okDelta : Z -> Prop.

Hypothesis P_push : forall a, P a -> P (pushCurrent a).
Hypothesis P_chunk : forall a s, P a -> P (setCurrentChunk a s).
Hypothesis P_start :
  forall a d, okDelta d -> P a -> P (setCurrentStart a (currentStart a + d)).
Hypothesis P_subs :
  forall a subs, goodSubs subs -> P a ->
                 P (resumeAfterLast (fold_left pushSub subs a)).

Lemma sentenceStep_preserves options a piece a' :
  okDelta 0 -> okDelta (chunkOverlap options) ->
  (forall s o subs, chunkByFixedSize s o = Some subs -> goodSubs subs) ->
  P a -> sentenceStep options a piece = Some a' -> P a'.
Proof.
  intros Hd0 Hdo Hsub Ha. unfold sentenceStep.
  destruct (negb (truthy (trim piece))); [intros H; inversion H; subst; assumption |].
  destruct (chunkSize options <? len (trim piece)).
  - destruct (chunkByFixedSize _ _) as [subs|] eqn:E; [| discriminate].
    intros H; inversion H; subst. apply P_subs; [eauto |].
    destruct (truthy (trim (currentChunk a))); auto.
  - intros H; inversion H; subst. apply P_chunk.
    destruct (_ && _); [| assumption].
    match goal with
    | |- P (setCurrentStart ?b (_ + ?d)) =>
        change (P (setCurrentStart b (currentStart b + d)))
    end.
    apply P_start; [destruct (0 <? _); assumption |].
    apply P_chunk, P_push, Ha.
Qed.

Lemma paragraphStep_preserves options a piece a' :
  okDelta 2 ->
  (forall s o subs, chunkOverlap o = chunkOverlap options ->
                    chunkBySentence s o = Some subs -> goodSubs subs) ->
  P a -> paragraphStep options a piece = Some a' -> P a'.
Proof.
  intros Hd2 Hsub Ha. unfold paragraphStep.
  destruct (negb (truthy (trim piece))); [intros H; inversion H; subst; assumption |].
  destruct (chunkSize options <? len (trim piece)).
  - destruct (chunkBySentence _ _) as [subs|] eqn:E; [| discriminate].
    intros H; inversion H; subst. apply P_subs; [eapply Hsub; [| exact E]; reflexivity |].
    destruct (truthy (trim (currentChunk a))); auto.
  - destruct (_ && _); intros H; inversion H; subst; [| apply P_chunk, Ha].
    match goal with
    | |- P (setCurrentStart ?b ?z) =>
        replace z with (currentStart b + 2)
    end.
    + apply P_start; [assumption |]. apply P_chunk, P_push, Ha.
    + cbn [currentStart setCurrentChunk pushCurrent].
      rewrite !len_app. unfold nlnl, len. simpl. lia.
Qed.

End StepInvariant.

Lemma accIndexed_push a : accIndexed a -> accIndexed (pushCurrent a).
Proof.
  intros [Hi Hn]. split; simpl.
  - apply indexedFrom0_snoc; [assumption | exact Hn].
  - rewrite length_app. simpl. lia.
Qed.

Lemma accIndexed_pushSub a sub : accIndexed a -> accIndexed (pushSub a sub).
Proof.
  intros [Hi Hn]. split; simpl.
  - apply indexedFrom0_snoc; [assumption | exact Hn].
  - rewrite length_app. simpl. lia.
Qed.

Lemma accIndexed_subs a subs :
  accIndexed a -> accIndexed (resumeAfterLast (fold_left pushSub subs a)).
Proof.
  intros Ha.
  assert (H : accIndexed (fold_left pushSub subs a)).
  { revert a Ha. induction subs as [|s subs IH]; intros a Ha; simpl; [assumption |].
    apply IH, accIndexed_pushSub, Ha. }
  exact H.
Qed.

Lemma accPlaced_push a : accPlaced a -> accPlaced (pushCurrent a).
Proof.
  intros (Hp & Hb & H0). repeat split; simpl; try assumption.
  - apply placed_snoc; [assumption | exact Hb |].
    simpl. pose proof (len_nonneg (currentChunk a)). lia.
  - destruct (placed_snoc (chunks a)
                (mkTextChunk (trim (currentChunk a)) (nextIndex a) (currentStart a)
                             (currentStart a + len (currentChunk a))) Hp Hb) as [_ Hf].
    + simpl. pose proof (len_nonneg (currentChunk a)). lia.
    + exact Hf.
  - rewrite Forall_app. split; [assumption | repeat constructor; simpl; lia].
Qed.

Lemma accPlaced_start a d :
  0 <= d -> accPlaced a -> accPlaced (setCurrentStart a (currentStart a + d)).
Proof.
  intros Hd (Hp & Hb & H0). repeat split; simpl; try apply Hp; [| lia].
  rewrite Forall_forall in *. intros c Hc. specialize (Hb c Hc). lia.
Qed.

(** Pushing the chunks of a sub-chunker, shifted by [currentStart]. *)
Lemma pushSubs_placed (subs : list TextChunk) :
  forall a m,
    placed subs -> 0 <= m ->
    Forall (fun s => m <= startChar s) subs ->
    placed (chunks a) ->
    Forall (fun c => startChar c <= currentStart a + m) (chunks a) ->
    0 <= currentStart a ->
    placed (chunks (fold_left pushSub subs a))
    /\ currentStart (fold_left pushSub subs a) = currentStart a.
Proof.
  induction subs as [|s subs IH]; intros a m Hs Hm Hge Hp Hb H0.
  - split; [assumption | reflexivity].
  - simpl. destruct Hs as [Hss Hsf]. simpl in Hss.
    inversion Hss as [|? ? Hss' Hall]; subst.
    inversion Hsf as [|? ? Hsc Hsf']; subst.
    inversion Hge as [|? ? Hms Hge']; subst.
    destruct (IH (pushSub a s) (startChar s)) as [H1 H2].
    + split; assumption.
    + lia.
    + rewrite Forall_map in Hall. exact Hall.
    + simpl. apply placed_snoc; [assumption | |simpl; lia].
      simpl. rewrite Forall_forall in *. intros c Hc. specialize (Hb c Hc). lia.
    + simpl. rewrite Forall_app. split.
      * rewrite Forall_forall in *. intros c Hc. specialize (Hb c Hc). lia.
      * repeat constructor. simpl. lia.
    + simpl. assumption.
    + split; [assumption |]. rewrite H2. reflexivity.
Qed.

Lemma last_map_Some {A} (l : list A) (x : A) :
  last (map Some (l ++ [x])) None = Some x.
Proof. rewrite map_app. simpl. apply last_last. Qed.

Lemma accPlaced_resume a :
  placed (chunks a) ->
  (forall c l, chunks a = l ++ [c] -> endChar c = 0 ->
               Forall (fun x => startChar x <= currentStart a) (chunks a)) ->
  0 <= currentStart a ->
  accPlaced (resumeAfterLast a).
Proof.
  intros Hp Hzero H0. unfold resumeAfterLast.
  destruct (chunks a) as [|c0 l0] eqn:E using rev_ind.
  - repeat split; simpl; rewrite ?E; try constructor; try apply placed_nil. assumption.
  - clear IHl0. rewrite last_map_Some.
    pose proof (placed_last_end l0 c0 Hp) as Hlast.
    destruct Hp as [Hs Hf].
    assert (Hc0 : 0 <= startChar c0 <= endChar c0).
    { rewrite Forall_app in Hf. destruct Hf as [_ Hf]. inversion Hf; subst. assumption. }
    destruct (Z.eqb_spec (endChar c0) 0) as [Hz | Hnz].
    + repeat split; simpl; rewrite ?E; try assumption.
      apply (Hzero c0 l0 eq_refl Hz).
    + repeat split; simpl; rewrite ?E; try assumption. lia.
Qed.

Lemma accPlaced_subs a subs :
  placed subs -> accPlaced a -> accPlaced (resumeAfterLast (fold_left pushSub subs a)).
Proof.
  intros Hs (Hp & Hb & H0).
  destruct (pushSubs_placed subs a 0 Hs) as [H1 H2]; try assumption; try lia.
  - destruct Hs as [_ Hf]. rewrite Forall_forall in *. intros s Hin.
    specialize (Hf s Hin). lia.
  - rewrite Forall_forall in *. intros c Hc. specialize (Hb c Hc). lia.
  - apply accPlaced_resume; try assumption; rewrite ?H2; try assumption.
    intros c l Hcl Hz.
    pose proof H1 as H1'. rewrite Hcl in H1'.
    pose proof (placed_last_end l c H1') as Hlast.
    rewrite Hcl. rewrite Forall_forall in *. intros x Hx.
    specialize (Hlast x Hx). lia.
Qed.

Lemma accIndexed_chunk a s : accIndexed a -> accIndexed (setCurrentChunk a s).
Proof. intros Ha; exact Ha. Qed.

Lemma accIndexed_start a d :
  True -> accIndexed a -> accIndexed (setCurrentStart a (currentStart a + d)).
Proof. intros _ Ha; exact Ha. Qed.

Lemma accIndexed_subs' a subs :
  True -> accIndexed a -> accIndexed (resumeAfterLast (fold_left pushSub subs a)).
Proof. intros _; apply accIndexed_subs. Qed.

Lemma accPlaced_chunk a s : accPlaced a -> accPlaced (setCurrentChunk a s).
Proof. intros Ha; exact Ha. Qed.

Lemma accIndexed_init : accIndexed initAcc.
Proof. split; reflexivity. Qed.

Lemma accPlaced_init : accPlaced initAcc.
Proof. repeat split; simpl; try constructor. lia. Qed.

Lemma flushLast_indexed a : accIndexed a -> indexedFrom0 (flushLast a).
Proof.
  intros Ha. unfold flushLast.
  destruct (truthy (trim (currentChunk a))); [apply accIndexed_push, Ha | apply Ha].
Qed.

Lemma flushLast_placed a : accPlaced a -> placed (flushLast a).
Proof.
  intros Ha. unfold flushLast.
  destruct (truthy (trim (currentChunk a))); [apply accPlaced_push, Ha | apply Ha].
Qed.

Lemma chunkBySentence_indexed text options out :
  chunkBySentence text options = Some out ->
  exists pre, indexedFrom0 pre
              /\ out = mergeSmallChunks pre (minChunkSize options).
Proof.
  unfold chunkBySentence.
  destruct (foldM _ _ _) as [a|] eqn:E; [| discriminate].
  intros H; inversion H; subst. exists (flushLast a). split; [| reflexivity].
  apply flushLast_indexed.
  eapply (foldM_preserves accIndexed); [| apply accIndexed_init | exact E].
  intros a0 x a1 Ha0.
  apply (sentenceStep_preserves accIndexed (fun _ => True) (fun _ => True)
           accIndexed_push accIndexed_chunk accIndexed_start accIndexed_subs');
    auto.
Qed.

Lemma chunkBySentence_placed text options out :
  0 <= chunkOverlap options ->
  chunkBySentence text options = Some out -> placed out.
Proof.
  intros Ho. unfold chunkBySentence.
  destruct (foldM _ _ _) as [a|] eqn:E; [| discriminate].
  intros H; inversion H; subst.
  apply mergeSmallChunks_placed, flushLast_placed.
  eapply (foldM_preserves accPlaced); [| apply accPlaced_init | exact E].
  intros a0 x a1 Ha0.
  apply (sentenceStep_preserves accPlaced placed (fun d => 0 <= d)
           accPlaced_push accPlaced_chunk accPlaced_start accPlaced_subs);
    [lia | exact Ho | apply chunkByFixedSize_placed | exact Ha0].
Qed.

Lemma chunkByParagraph_indexed text options out :
  chunkByParagraph text options = Some out ->
  exists pre, indexedFrom0 pre
              /\ out = mergeSmallChunks pre (minChunkSize options).
Proof.
  unfold chunkByParagraph.
  destruct (foldM _ _ _) as [a|] eqn:E; [| discriminate].
  intros H; inversion H; subst. exists (flushLast a). split; [| reflexivity].
  apply flushLast_indexed.
  eapply (foldM_preserves accIndexed); [| apply accIndexed_init | exact E].
  intros a0 x a1 Ha0.
  apply (paragraphStep_preserves accIndexed (fun _ => True) (fun _ => True)
           accIndexed_push accIndexed_chunk accIndexed_start accIndexed_subs');
    auto.
Qed.

Lemma chunkByParagraph_placed text options out :
  0 <= chunkOverlap options ->
  chunkByParagraph text options = Some out -> placed out.
Proof.
  intros Ho. unfold chunkByParagraph.
  destruct (foldM _ _ _) as [a|] eqn:E; [| discriminate].
  intros H; inversion H; subst.
  apply mergeSmallChunks_placed, flushLast_placed.
  eapply (foldM_preserves accPlaced); [| apply accPlaced_init | exact E].
  intros a0 x a1 Ha0.
  apply (paragraphStep_preserves accPlaced placed (fun d => 0 <= d)
           accPlaced_push accPlaced_chunk accPlaced_start accPlaced_subs);
    [lia | | exact Ha0].
  intros s o subs Hov. apply chunkBySentence_placed. lia.
Qed.

(** *** The semantic chunker *)

Lemma paragraphOffset_bound paragraphs i j :
  (i <= j)%nat ->
  0 <= paragraphOffset paragraphs i
  /\ paragraphOffset paragraphs i <= len (join nlnl (firstn j paragraphs)) + 2.
Proof.
  intros H. unfold paragraphOffset. rewrite slice_prefix by lia.
  rewrite Nat2Z.id.
  pose proof (join_firstn_mono nlnl paragraphs i j H).
  unfold len. destruct (0 <? i)%nat; lia.
Qed.

Lemma semanticStep_indexed paragraphs options a i :
  accIndexed a -> accIndexed (semanticStep paragraphs options a i).
Proof.
  intros Ha. unfold semanticStep.
  destruct (_ && _); cbn zeta.
  - match goal with |- context [if ?c then _ else _] => destruct c end;
      apply accIndexed_push, Ha.
  - match goal with |- context [if ?c then _ else _] => destruct c end; exact Ha.
Qed.

Lemma semanticStep_invariant paragraphs options a i :
  semanticInvariant paragraphs i a ->
  semanticInvariant paragraphs (S i) (semanticStep paragraphs options a i).
Proof.
  intros ((Hp & Hb & H0) & Hle & Hfirst).
  pose proof (paragraphOffset_bound paragraphs i i (Nat.le_refl i)) as [Hj0 Hji].
  pose proof (paragraphOffset_bound paragraphs i (S i) ltac:(lia)) as [_ Hjs].
  pose proof (join_firstn_mono nlnl paragraphs i (S i) ltac:(lia)) as Hmono.
  unfold semanticStep. fold (paragraphOffset paragraphs i).
  destruct (_ && truthy (currentChunk a)) eqn:Epush; cbn zeta.
  - (* a chunk is pushed, so this is not the first paragraph *)
    assert (Hi : i <> 0%nat).
    { intros ->. rewrite (Hfirst eq_refl) in Epush.
      rewrite andb_false_r in Epush. discriminate. }
    cbn [currentStart setCurrentChunk setCurrentStart pushCurrent].
    change (0 =? 0) with true. cbn iota.
    destruct (accPlaced_push a (conj Hp (conj Hb H0))) as (Hp' & Hb' & _).
    assert (Hoff : paragraphOffset paragraphs i
                   = len (join nlnl (firstn i paragraphs)) + 2).
    { unfold paragraphOffset. rewrite slice_prefix by lia. rewrite Nat2Z.id.
      destruct (Nat.ltb_spec 0 i); [reflexivity | lia]. }
    split; [split; [exact Hp' | split] | split].
    + cbn [chunks currentStart setCurrentStart setCurrentChunk].
      cbn [currentStart pushCurrent] in Hb'.
      rewrite Forall_forall in *. intros c Hc. specialize (Hb' c Hc). lia.
    + cbn [currentStart setCurrentStart]. lia.
    + cbn [currentStart setCurrentStart]. unfold len in *. lia.
    + intros HS; discriminate HS.
  - cbn [currentStart setCurrentChunk].
    destruct (Z.eqb_spec (currentStart a) 0) as [Hz | Hnz].
    + split; [split; [exact Hp | split] | split].
      * cbn [chunks currentStart setCurrentStart setCurrentChunk].
        rewrite Forall_forall in *. intros c Hc. specialize (Hb c Hc). lia.
      * cbn [currentStart setCurrentStart]. lia.
      * cbn [currentStart setCurrentStart]. unfold len in *. lia.
      * intros HS; discriminate HS.
    + split; [split; [exact Hp | split] | split].
      * exact Hb.
      * exact H0.
      * cbn [currentStart setCurrentChunk]. unfold len in *. lia.
      * intros HS; discriminate HS.
Qed.

Lemma semanticLoop_indexed paragraphs options :
  forall n start a,
    accIndexed a ->
    accIndexed (fold_left (semanticStep paragraphs options) (seq start n) a).
Proof.
  induction n as [|n IH]; intros start a Ha; simpl; [exact Ha |].
  apply IH, semanticStep_indexed, Ha.
Qed.

Lemma semanticLoop_invariant paragraphs options :
  forall n start a,
    semanticInvariant paragraphs start a ->
    semanticInvariant paragraphs (start + n)
      (fold_left (semanticStep paragraphs options) (seq start n) a).
Proof.
  induction n as [|n IH]; intros start a Ha; simpl.
  - rewrite Nat.add_0_r. exact Ha.
  - replace (start + S n)%nat with (S start + n)%nat by lia.
    apply IH, semanticStep_invariant, Ha.
Qed.

(** What holds of the chunks [chunkBySemantic] resolves to: they come
    out of the merge pass, are numbered as [chunkText]'s are, and their
    start offsets never decrease. *)
Lemma chunkBySemantic_chunks text options getEmbedding w out w' :
  chunkBySemantic text options getEmbedding w = (Ok out, w') ->
  (exists pre, indexedFrom0 pre
               /\ out = mergeSmallChunks pre (minChunkSize options))
  /\ placed out
  /\ Forall (fun c => minChunkSize options <= len (content c)) (removelast out).
Proof.
  unfold chunkBySemantic.
  destruct (List.filter _ _) as [|p0 ps] eqn:Ep.
  - destruct (chunkByFixedSize text options) as [chunks0|] eqn:Ef; [| discriminate].
    intros H; inversion H; subst.
    pose proof (chunkByFixedSize_placed _ _ _ Ef) as Hplaced.
    destruct (chunkByFixedSize_indexed _ _ _ Ef) as (pre & Hpre & ->).
    split; [eauto |]. split; [exact Hplaced |].
    apply mergeSmallChunks_all_but_last.
  - unfold bind, ret.
    destruct (mapM _ _ w) as [[embeddings| |] w1]; try discriminate.
    intros H.
    assert (Hout : out = mergeSmallChunks
                           (flushLast
                              (fold_left (semanticStep (p0 :: ps) options)
                                         (seq 0 (length (p0 :: ps))) initAcc))
                           (minChunkSize options))
      by (inversion H; reflexivity).
    clear H. rewrite Hout. split; [| split].
    + eexists. split; [| reflexivity].
      apply flushLast_indexed, semanticLoop_indexed, accIndexed_init.
    + apply mergeSmallChunks_placed, flushLast_placed.
      apply (semanticLoop_invariant (p0 :: ps) options (length (p0 :: ps)) 0%nat).
      split; [apply accPlaced_init | split; [| reflexivity]].
      cbn [currentStart initAcc firstn join]. unfold len. simpl. lia.
    + apply mergeSmallChunks_all_but_last.
Qed.

(** *** The chunk sequence of [chunkText] *)

Lemma chunkText_indexed text options out :
  chunkText text options = Some out ->
  exists pre,
    indexedFrom0 pre
    /\ out = mergeSmallChunks pre (minChunkSize (effectiveOptions options)).
Proof.
  unfold chunkText.
  destruct (strategy (effectiveOptions options)).
  - apply chunkByFixedSize_indexed.
  - apply chunkByParagraph_indexed.
  - apply chunkByParagraph_indexed.
  - apply chunkBySentence_indexed.
Qed.

Lemma chunkText_placed text options out :
  0 <= chunkOverlap (effectiveOptions options) ->
  chunkText text options = Some out -> placed out.
Proof.
  unfold chunkText. intros Ho.
  destruct (strategy (effectiveOptions options)).
  - apply chunkByFixedSize_placed.
  - apply chunkByParagraph_placed, Ho.
  - apply chunkByParagraph_placed, Ho.
  - apply chunkBySentence_placed, Ho.
Qed.

(** C5 (amended).  Whatever the text, the options and the strategy, when
    the chunker returns a chunk sequence: its indices increase strictly
    and start at 0 (they are the indices 0, 1, 2, ... given before the
    merge pass, without those of the chunks the merge pass absorbed, which
    leaves gaps); and, when the overlap in force is not negative, its
    [startChar] values never decrease.  Nothing is stated of [endChar]. *)
Theorem C5_indices_increase_starts_do_not_decrease
        (text : jstring) (options : PartialChunkOptions) (out : list TextChunk) :
  chunkText text options = Some out ->
  StronglySorted lt (map index out)
  /\ (forall c, hd_error out = Some c -> index c = 0%nat)
  /\ (exists pre, indexedFrom0 pre
                  /\ out = mergeSmallChunks pre (minChunkSize (effectiveOptions options)))
  /\ (0 <= chunkOverlap (effectiveOptions options) ->
      StronglySorted Z.le (map startChar out)).
Proof.
  intros H.
  destruct (chunkText_indexed text options out H) as (pre & Hpre & Hout).
  destruct (mergeSmallChunks_keys index (fun _ _ => eq_refl) pre
              (minChunkSize (effectiveOptions options))) as [Hsub Hhd].
  rewrite <- Hout in Hsub, Hhd.
  repeat split.
  - eapply Subseq_sorted; [exact Hsub |].
    rewrite Hpre. apply seq_StronglySorted.
  - intros c Hc. rewrite Hpre in Hhd.
    destruct out as [|c0 out']; [discriminate |].
    inversion Hc; subst c0. simpl in Hhd.
    destruct (length pre); simpl in Hhd; [discriminate | congruence].
  - exists pre. split; assumption.
  - intros Ho. exact (proj1 (chunkText_placed text options out Ho H)).
Qed.

Lemma C5_witness :
  chunkText sampleText sampleOptions = Some sampleChunks
  /\ StronglySorted lt (map index sampleChunks)
  /\ (forall c, hd_error sampleChunks = Some c -> index c = 0%nat)
  /\ (exists pre, indexedFrom0 pre
                  /\ sampleChunks
                     = mergeSmallChunks pre (minChunkSize (effectiveOptions sampleOptions)))
  /\ (0 <= chunkOverlap (effectiveOptions sampleOptions) ->
      StronglySorted Z.le (map startChar sampleChunks)).
Proof.
  split; [reflexivity |].
  apply (C5_indices_increase_starts_do_not_decrease sampleText sampleOptions).
  reflexivity.
Defined.

(** C5, as stated, fails on both counts: with the first sample the
    returned indices are 0 and 2, and with the second the [endChar]
    values are 10 and then 6. *)
Lemma C5_counterexample :
  (chunkText sampleText sampleOptions = Some sampleChunks
   /\ map index sampleChunks = [0; 2]%nat)
  /\ (chunkText longThenShort longThenShortOptions = Some longThenShortChunks
      /\ map endChar longThenShortChunks = [10; 6]).
Proof. repeat split. Qed.

(** With a negative overlap the start offsets can decrease, which is why
    the statement on [startChar] asks for an overlap that is not negative. *)
Example negative_overlap_starts_decrease :
  option_map (map startChar)
    (chunkText $"Aaaa bbbb. Cccc dddd. Eeee ffff."
               (mkPartialChunkOptions (Some sentence) (Some 12) (Some (-3)) (Some 1)))
  = Some [0; -3; -6].
Proof. reflexivity. Qed.

(** ** truncateContext *)

(** [lastWhere] finds a position that holds the property and is followed
    by none that does. *)
Lemma lastWhere_Some (p : ascii -> bool) (s : jstring) (i : nat) :
  lastWhere p s = Some i ->
  (exists c, nth_error s i = Some c /\ p c = true)
  /\ forall j c, (i < j)%nat -> nth_error s j = Some c -> p c = false.
Proof.
  revert i; induction s as [|x r IH]; intros i H; simpl in H; [discriminate |].
  destruct (lastWhere p r) as [k|] eqn:E.
  - inversion H; subst. destruct (IH k eq_refl) as [Hex Hafter].
    split; [exact Hex |].
    intros [|j] c Hj Hc; [lia |]. simpl in Hc. apply (Hafter j c); [lia | exact Hc].
  - destruct (p x) eqn:Ex; [| discriminate]. inversion H; subst.
    split; [exists x; auto |].
    intros [|j] c Hj Hc; [lia |]. simpl in Hc.
    clear - E Hc. revert j Hc.
    induction r as [|y r IHr]; intros j Hc; [destruct j; discriminate |].
    simpl in E. destruct (lastWhere p r) eqn:Er; [discriminate |].
    destruct (p y) eqn:Ey; [discriminate |].
    destruct j; simpl in Hc; [inversion Hc; subst; exact Ey | eauto].
Qed.

Lemma lastWhere_None (p : ascii -> bool) (s : jstring) :
  lastWhere p s = None -> forall c, In c s -> p c = false.
Proof.
  induction s as [|x r IH]; intros H c Hc; [contradiction |].
  simpl in H. destruct (lastWhere p r); [discriminate |].
  destruct (p x) eqn:Ex; [discriminate |].
  destruct Hc as [<- | Hc]; auto.
Qed.

Lemma lastWhere_lt (p : ascii -> bool) (s : jstring) (i : nat) :
  lastWhere p s = Some i -> (i < length s)%nat.
Proof.
  revert i; induction s as [|x r IH]; intros i H; simpl in H; [discriminate |].
  destruct (lastWhere p r) as [k|].
  - inversion H; subst. specialize (IH k eq_refl). simpl. lia.
  - destruct (p x); inversion H; subst. simpl. lia.
Qed.

Lemma lastIndexFrom_spec (c : ascii) (s : jstring) :
  forall i found,
    lastIndexFrom c s i found
    = match lastWhere (fun x => ascii_is x c) s with
      | Some p => i + Z.of_nat p
      | None => found
      end.
Proof.
  induction s as [|x r IH]; intros i found; simpl; [reflexivity |].
  rewrite IH. destruct (lastWhere _ r) as [k|]; [lia |].
  destruct (ascii_is x c); lia.
Qed.

Lemma lastIndexOf_spec (s : jstring) (c : ascii) :
  lastIndexOf s c = position (lastWhere (fun x => ascii_is x c) s).
Proof.
  unfold lastIndexOf. rewrite lastIndexFrom_spec.
  destruct (lastWhere _ s); simpl; lia.
Qed.

(** [Math.max(lastPeriod, lastNewline)] is the last boundary. *)
Lemma cutoff_spec (s : jstring) :
  Z.max (lastIndexOf s "."%char) (lastIndexOf s LF)
  = position (lastWhere isBoundary s).
Proof.
  rewrite !lastIndexOf_spec.
  induction s as [|x r IH]; [reflexivity |].
  simpl. unfold isBoundary in *.
  destruct (lastWhere (fun x => ascii_is x "."%char) r) as [a|];
    destruct (lastWhere (fun x => ascii_is x LF) r) as [b|];
    destruct (lastWhere (fun c => ascii_is c "."%char || ascii_is c LF) r) as [k|];
    simpl in IH; try lia;
    destruct (ascii_is x "."%char); destruct (ascii_is x LF); simpl; lia.
Qed.

(** *** Order of binary64 numbers *)

Lemma SF_lt_le_trans (x y z : spec_float) :
  SFltb x y = true -> SFleb y z = true -> SFltb x z = true.
Proof.
  unfold SFltb, SFleb.
  destruct x as [sx|sx| |sx mx ex], y as [sy|sy| |sy my ey], z as [sz|sz| |sz mz ez];
    try destruct sx; try destruct sy; try destruct sz; cbn;
    try discriminate; try reflexivity.
  all: rewrite ?Pos.compare_cont_spec; cbn [Pos.switch_Eq].
  all: destruct (Z.compare_spec ex ey), (Z.compare_spec ey ez), (Z.compare_spec ex ez);
    try discriminate; try reflexivity; try lia; subst.
  all: destruct (Pos.compare_spec mx my), (Pos.compare_spec my mz),
         (Pos.compare_spec mx mz);
    cbn; try discriminate; try reflexivity; try lia.
Qed.

Lemma SF_le_le_trans (x y z : spec_float) :
  SFleb x y = true -> SFleb y z = true -> SFleb x z = true.
Proof.
  unfold SFleb.
  destruct x as [sx|sx| |sx mx ex], y as [sy|sy| |sy my ey], z as [sz|sz| |sz mz ez];
    try destruct sx; try destruct sy; try destruct sz; cbn;
    try discriminate; try reflexivity.
  all: rewrite ?Pos.compare_cont_spec; cbn [Pos.switch_Eq].
  all: destruct (Z.compare_spec ex ey), (Z.compare_spec ey ez), (Z.compare_spec ex ez);
    try discriminate; try reflexivity; try lia; subst.
  all: destruct (Pos.compare_spec mx my), (Pos.compare_spec my mz),
         (Pos.compare_spec mx mz);
    cbn; try discriminate; try reflexivity; try lia.
Qed.

Lemma float_lt_le_trans (x y z : float) :
  (x <? y)%float = true -> (y <=? z)%float = true -> (x <? z)%float = true.
Proof. rewrite !ltb_spec, leb_spec. apply SF_lt_le_trans. Qed.

Lemma float_le_le_trans (x y z : float) :
  (x <=? y)%float = true -> (y <=? z)%float = true -> (x <=? z)%float = true.
Proof. rewrite !leb_spec. apply SF_le_le_trans. Qed.

(** Rounding keeps the sign. *)
Lemma binary_round_aux_sign (sx : bool) (mx ex : Z) (lx : location) :
  match binary_round_aux prec emax sx mx ex lx with
  | S754_zero s | S754_infinity s | S754_finite s _ _ => s = sx
  | S754_nan => True
  end.
Proof.
  unfold binary_round_aux.
  destruct (shr_fexp prec emax mx ex lx) as [mrs' e'].
  destruct (shr_fexp prec emax _ e' loc_Exact) as [mrs'' e''].
  destruct (shr_m mrs''); [reflexivity | | exact I].
  destruct (e'' <=? emax - prec); reflexivity.
Qed.

(** The number of an integer that is not negative is not negative. *)
Lemma Z2float_sign (z : Z) :
  0 <= z ->
  match Prim2SF (Z2float z) with
  | S754_zero s | S754_infinity s | S754_finite s _ _ => s = false
  | S754_nan => True
  end.
Proof.
  intros H. unfold Z2float.
  destruct (Z.ltb_spec z 0) as [Hn | _]; [lia |].
  rewrite of_uint63_spec. unfold binary_normalize.
  destruct (Uint63.to_Z (Uint63.of_Z z)) eqn:E; [reflexivity | |].
  - unfold binary_round.
    destruct (shl_align _ _ _) as [mz ez]. apply binary_round_aux_sign.
  - pose proof (Uint63.to_Z_bounded (Uint63.of_Z z)) as Hb. lia.
Qed.

(** Without a boundary ([cutoff] is -1) the comparison fails for every
    budget that is not negative. *)
Lemma aboveFourFifths_no_boundary (maxChars : Z) :
  0 <= maxChars -> aboveFourFifths (-1) maxChars = false.
Proof.
  intros H. unfold aboveFourFifths.
  rewrite ltb_spec, mul_spec.
  pose proof (Z2float_sign maxChars H) as Hs.
  change (Prim2SF (Z2float (-1))) with (S754_finite true 4503599627370496 (-52)).
  change (Prim2SF 0.8) with (S754_finite false 7205759403792794 (-53)).
  destruct (Prim2SF (Z2float maxChars)) as [s|s| |s m e]; try subst s;
    try reflexivity.
  unfold SF64mul, SFmul. cbn [xorb].
  pose proof (binary_round_aux_sign false (Z.pos (m * 7205759403792794))
                                    (e + -53) loc_Exact) as Hr.
  destruct (binary_round_aux prec emax false _ _ loc_Exact) as [s|s| |s m' e'];
    try subst s; reflexivity.
Qed.

(** *** The comparison of [truncateContext] is the exact one *)

Lemma agreesFrom_spec (fuel : nat) :
  forall m0, agreesFrom fuel m0 = true ->
             forall m, m0 <= m < m0 + Z.of_nat fuel -> agreesAt m = true.
Proof.
  induction fuel as [|fuel IH]; intros m0 H m Hm; [lia |].
  cbn [agreesFrom] in H. destruct (agreesAt m0) eqn:E; [| discriminate].
  destruct (Z.eq_dec m m0) as [-> | Hne]; [exact E |].
  apply (IH (m0 + 1) H). lia.
Qed.

Lemma agrees_checked : agreesFrom (Z.to_nat (exactBudgets + 1)) 0 = true.
Proof. vm_compute. reflexivity. Qed.

Lemma agreesAt_checked (m : Z) : 0 <= m <= exactBudgets -> agreesAt m = true.
Proof.
  intros H. apply (agreesFrom_spec _ 0 agrees_checked).
  rewrite Z2Nat.id by (unfold exactBudgets; lia). lia.
Qed.

(** The numbers of the integers from -1 to [exactBudgets + 1] are in order. *)
Lemma Z2float_mono (a b : Z) :
  -1 <= a <= b -> b <= exactBudgets + 1 ->
  (Z2float a <=? Z2float b)%float = true.
Proof.
  intros Ha Hb.
  assert (Hstep : forall c, -1 <= c <= exactBudgets ->
                            (Z2float c <=? Z2float (c + 1))%float = true).
  { intros c Hc. destruct (Z.eq_dec c (-1)) as [-> | Hne].
    - pose proof (agreesAt_checked 0 ltac:(unfold exactBudgets; lia)) as H0.
      unfold agreesAt in H0. apply andb_true_iff in H0. destruct H0 as [H0 _].
      apply andb_true_iff in H0. exact (proj2 H0).
    - pose proof (agreesAt_checked c ltac:(lia)) as H0.
      unfold agreesAt in H0. apply andb_true_iff in H0. exact (proj2 H0). }
  assert (Hrefl : (Z2float a <=? Z2float a)%float = true).
  { destruct (Z.eq_dec a (exactBudgets + 1)) as [-> | Hne]; [reflexivity |].
    destruct (Z.eq_dec a (-1)) as [-> | Hne']; [reflexivity |].
    pose proof (Hstep (a - 1) ltac:(lia)) as H1.
    pose proof (Hstep a ltac:(lia)) as H2.
    replace (a - 1 + 1) with a in H1 by lia.
    rewrite leb_spec in *. clear - H1 H2.
    unfold SFleb in *.
    destruct (Prim2SF (Z2float a)) as [s|s| |s m e]; try destruct s; cbn;
      try reflexivity.
    - destruct (Prim2SF (Z2float (a - 1))); discriminate.
    - rewrite Z.compare_refl, Pos.compare_cont_refl. reflexivity.
    - rewrite Z.compare_refl, Pos.compare_cont_refl. reflexivity. }
  remember (Z.to_nat (b - a)) as n eqn:En. revert b Ha Hb En.
  induction n as [|n IH]; intros b Ha Hb En.
  - replace b with a by lia. exact Hrefl.
  - apply (float_le_le_trans _ (Z2float (b - 1))).
    + apply IH; lia.
    + replace b with (b - 1 + 1) at 2 by lia. apply Hstep. lia.
Qed.

(** For a budget of at most [exactBudgets] characters the binary64
    comparison [cutoff > maxChars * 0.8] holds exactly when [cutoff] is
    greater than four fifths of [maxChars]. *)
Lemma aboveFourFifths_exact (cutoff maxChars : Z) :
  0 <= maxChars <= exactBudgets -> -1 <= cutoff <= maxChars ->
  aboveFourFifths cutoff maxChars = (4 * maxChars <? 5 * cutoff).
Proof.
  intros Hm Hc. unfold aboveFourFifths.
  pose proof (agreesAt_checked maxChars Hm) as H. unfold agreesAt in H.
  apply andb_true_iff in H. destruct H as [H _].
  apply andb_true_iff in H. destruct H as [H _].
  apply andb_true_iff in H. destruct H as [Hlow Hhigh].
  apply negb_true_iff in Hlow.
  set (k := 4 * maxChars / 5) in *.
  assert (Hk : 5 * k <= 4 * maxChars < 5 * (k + 1)).
  { unfold k. pose proof (Z.div_mod (4 * maxChars) 5 ltac:(lia)).
    pose proof (Z.mod_pos_bound (4 * maxChars) 5 ltac:(lia)). lia. }
  destruct (Z.ltb_spec (4 * maxChars) (5 * cutoff)) as [Habove | Hbelow].
  - apply (float_lt_le_trans _ _ _ Hhigh).
    apply Z2float_mono; lia.
  - destruct (Z2float maxChars * 0.8 <? Z2float cutoff)%float eqn:E; [| reflexivity].
    rewrite <- Hlow. symmetry.
    apply (float_lt_le_trans _ _ _ E). apply Z2float_mono; lia.
Qed.

(** *** The last boundary *)

Lemma lastWhere_at (kept : jstring) (p : nat) :
  LastBoundaryAt kept p -> lastWhere isBoundary kept = Some p.
Proof.
  intros [(c & Hc & Hb) Hafter].
  destruct (lastWhere isBoundary kept) as [q|] eqn:E.
  - destruct (lastWhere_Some _ _ _ E) as [(c' & Hc' & Hb') Hafter'].
    destruct (Nat.lt_trichotomy p q) as [Hlt | [-> | Hgt]]; [| reflexivity |].
    + rewrite (Hafter q c' Hlt Hc') in Hb'. discriminate.
    + rewrite (Hafter' p c Hgt Hc) in Hb. discriminate.
  - rewrite (lastWhere_None _ _ E c (nth_error_In _ _ Hc)) in Hb. discriminate.
Qed.

Lemma lastWhere_none (kept : jstring) :
  NoBoundary kept -> lastWhere isBoundary kept = None.
Proof.
  intros H. destruct (lastWhere isBoundary kept) as [q|] eqn:E; [| reflexivity].
  destruct (lastWhere_Some _ _ _ E) as [(c & Hc & Hb) _].
  rewrite (H c (nth_error_In _ _ Hc)) in Hb. discriminate.
Qed.

(** C9.  For every text and every [maxTokens] that is not negative, with
    the budget of [4 * maxTokens] characters: a text within the budget is
    returned unchanged; of a longer one the first [4 * maxTokens]
    characters are kept, cut just after their last period or newline when
    the index of that character is greater than 0.8 times the budget as
    binary64 computes it, and otherwise (also when they hold no period or
    newline) kept whole and followed by ["..."].  For a budget of at most
    [exactBudgets] characters the comparison is the exact one: the index
    is greater than four fifths of the budget.  (A boundary at exactly 80%
    of the budget is not used, and the statement does not extend to a
    negative [maxTokens].) *)
Theorem C9_truncateContext_cuts_beyond_four_fifths (text : jstring) (maxTokens : Z) :
  0 <= maxTokens ->
  let budget := Z.to_nat (4 * maxTokens) in
  let kept := firstn budget text in
  ((length text <= budget)%nat -> truncateContext text maxTokens = text)
  /\ ((budget < length text)%nat ->
      (NoBoundary kept -> truncateContext text maxTokens = kept ++ $"...")
      /\ (forall p,
             LastBoundaryAt kept p ->
             truncateContext text maxTokens
             = if aboveFourFifths (Z.of_nat p) (4 * maxTokens)
               then firstn (S p) text
               else kept ++ $"..."))
  /\ (4 * maxTokens <= exactBudgets ->
      forall p, (p < budget)%nat ->
                aboveFourFifths (Z.of_nat p) (4 * maxTokens)
                = (4 * (4 * maxTokens) <? 5 * Z.of_nat p)).
Proof.
  intros H budget kept.
  assert (Hb : maxTokens * 4 = Z.of_nat budget) by (unfold budget; lia).
  split; [| split].
  - intros Hfit. unfold truncateContext.
    destruct (Z.leb_spec (len text) (maxTokens * 4)) as [_ | Hc];
      [reflexivity | unfold len in Hc; lia].
  - intros Hover.
    assert (Hcut : truncateContext text maxTokens
                   = if aboveFourFifths (position (lastWhere isBoundary kept))
                                        (4 * maxTokens)
                     then slice kept 0 (position (lastWhere isBoundary kept) + 1)
                     else kept ++ $"...").
    { unfold truncateContext.
      destruct (Z.leb_spec (len text) (maxTokens * 4)) as [Hc | _];
        [unfold len in Hc; lia |].
      rewrite slice_prefix by lia.
      replace (Z.to_nat (maxTokens * 4)) with budget by lia.
      fold kept. rewrite cutoff_spec.
      replace (maxTokens * 4) with (4 * maxTokens) by lia. reflexivity. }
    split.
    + intros Hnone. rewrite Hcut, (lastWhere_none _ Hnone). cbn [position].
      rewrite aboveFourFifths_no_boundary by lia. reflexivity.
    + intros p Hp. rewrite Hcut, (lastWhere_at _ _ Hp). cbn [position].
      destruct (aboveFourFifths (Z.of_nat p) (4 * maxTokens)); [| reflexivity].
      rewrite slice_prefix by lia.
      replace (Z.to_nat (Z.of_nat p + 1)) with (S p) by lia.
      unfold kept. rewrite firstn_firstn. f_equal.
      pose proof (lastWhere_lt _ _ _ (lastWhere_at _ _ Hp)) as Hlt.
      unfold kept in Hlt. rewrite length_firstn in Hlt. lia.
  - intros Hsmall p Hp. apply aboveFourFifths_exact; lia.
Qed.

Lemma C9_witness :
  0 <= 4
  /\ LastBoundaryAt (firstn 16 $"One two three. Four five") 13
  /\ truncateContext $"One two three. Four five" 4 = $"One two three.".
Proof.
  assert (Hlast : LastBoundaryAt (firstn 16 $"One two three. Four five") 13).
  { split.
    - exists "."%char. split; reflexivity.
    - intros j c Hj Hc.
      do 14 (destruct j as [|j]; [lia |]).
      destruct j as [|j]; [inversion Hc; reflexivity |].
      destruct j as [|j]; [inversion Hc; reflexivity |].
      destruct j; discriminate. }
  split; [lia |]. split; [exact Hlast |].
  pose proof (C9_truncateContext_cuts_beyond_four_fifths
                $"One two three. Four five" 4 ltac:(lia)) as H.
  cbv zeta in H. destruct H as (_ & Hover & _).
  destruct (Hover ltac:(simpl; lia)) as [_ Hcut].
  exact (Hcut 13%nat Hlast).
Defined.

(** C9, as stated, fails in two ways.  A period at index 16 of a budget
    of 20 characters lies within the last 20% of the budget, and the code
    does not cut there; and for a negative [maxTokens] the code returns
    the empty text, with no ellipsis, where there is no boundary to cut
    at. *)
Lemma C9_counterexample :
  truncateContext periodAtSixteen 5 = $"aaaa bbbb cccc d. ee..."
  /\ truncateAsSpecified periodAtSixteen 5 = $"aaaa bbbb cccc d."
  /\ truncateContext $"abcdefgh" (-1) = []
  /\ truncateAsSpecified $"abcdefgh" (-1) = $"...".
Proof. repeat split. Qed.

Example truncateContext_fits : truncateContext twoSentences 6 = twoSentences.
Proof. reflexivity. Qed.

Example truncateContext_cuts_at_period :
  truncateContext $"One two three. Four five" 4 = $"One two three.".
Proof. reflexivity. Qed.

Example truncateContext_ellipsis :
  truncateContext twoSentences 3 = $"One two. Thr...".
Proof. reflexivity. Qed.

(** ** The internal vector store: scores *)

Open Scope float_scope.

Lemma sumSquares_zero (v : list float) :
  Forall isZero v ->
  forall i, reduceFrom (fun sum val _ => sum + val * val) v i 0 = 0.
Proof.
  induction 1 as [|x r Hx _ IH]; intros i; simpl; [reflexivity |].
  destruct Hx as [-> | ->]; apply IH.
Qed.

(** The computed magnitude of a zero vector is zero. *)
Lemma magnitude_zero (v : list float) :
  Forall isZero v -> (magnitude v =? 0) = true.
Proof.
  intros H. unfold magnitude, reduce. rewrite sumSquares_zero by assumption.
  reflexivity.
Qed.

Close Scope float_scope.

Lemma cosineSimilarity_wrong_length (a b : list float) :
  length a <> length b -> cosineSimilarity a b = 0%float.
Proof.
  intros H. unfold cosineSimilarity.
  destruct (Nat.eqb_spec (length a) (length b)); [contradiction | reflexivity].
Qed.


Lemma scoreChunk_score (q : list float) (chunk : ChunkRow * DocumentRow) :
  score (scoreChunk q chunk)
  = match storedVector (fst chunk) with
    | Some e => cosineSimilarity q e
    | None => 0%float
    end.
Proof.
  unfold scoreChunk, storedVector, metaField. simpl.
  destruct (row_metadata (fst chunk)); reflexivity.
Qed.

Lemma insertBy_In {A} (after : A -> A -> bool) (x y : A) (l : list A) :
  In y (insertBy after x l) -> y = x \/ In y l.
Proof.
  induction l as [|z l IH]; simpl.
  - intros [<- | []]; auto.
  - destruct (after x z); simpl; intros [H | H]; auto.
    destruct (IH H); auto.
Qed.

Lemma sortBy_In {A} (after : A -> A -> bool) (y : A) (l : list A) :
  In y (sortBy after l) -> In y l.
Proof.
  induction l as [|x l IH]; simpl; [auto |].
  intros H. apply insertBy_In in H. destruct H; auto.
Qed.

Lemma take_In {A} (n : Z) (l : list A) (x : A) : In x (take n l) -> In x l.
Proof.
  unfold take. destruct (n <? 0); intros H.
  - eapply Subseq_In; [apply Subseq_skipn | exact H].
  - eapply Subseq_In; [apply Subseq_firstn | exact H].
Qed.

Lemma filterMap_In {A B} (f : A -> option B) (l : list A) (y : B) :
  In y (filterMap f l) -> exists x, In x l /\ f x = Some y.
Proof.
  induction l as [|x l IH]; simpl; [contradiction |].
  destruct (f x) as [z|] eqn:E.
  - intros [<- | H]; [eauto |]. destruct (IH H) as (x' & ? & ?); eauto.
  - intros H. destruct (IH H) as (x' & ? & ?); eauto.
Qed.

(** *** Sample stores *)

Example search_malformedStore :
  internalSearch [1; 0]%float 5 (Some userFilter) malformedStore
  = (Ok [ mkVectorSearchResult "c0" "d1" 0 $"zero" 0%float docName;
          mkVectorSearchResult "c1" "d1" 1 $"one" 0%float docName;
          mkVectorSearchResult "c2" "d1" 2 $"two" 0%float docName ],
     malformedStore).
Proof. reflexivity. Qed.

(** ** Search on the stored JSON *)



Section SearchOnJsonFacts.

Variable stringToNumber : jstring -> float.
Variable objectToNumber : Json -> string + float.
Variable findMany : option Filter -> Z -> M (list FoundChunk).

(** On an array of numbers the two reductions are those of the typed
    [cosineSimilarity]. *)
Lemma dotFrom_numbers (e : list float) (a : list float) :
  forall i sum,
    dotFrom stringToNumber objectToNumber a (JArray (map JNumber e)) i sum
    = inr (reduceFrom (fun sum val i => sum + val * at_ e i)%float a i sum).
Proof.
  induction a as [|val a IH]; intros i sum; [reflexivity |].
  cbn [dotFrom reduceFrom itemAt].
  assert (Hitem : toNumber stringToNumber objectToNumber
                           (nth_error (map JNumber e) i)
                  = inr (at_ e i)).
  { unfold at_. rewrite nth_error_map.
    destruct (nth_error e i) as [x|] eqn:E; cbn.
    - rewrite (nth_error_nth _ _ _ E). reflexivity.
    - rewrite nth_overflow by (apply nth_error_None, E). reflexivity. }
  rewrite Hitem. apply IH.
Qed.

Lemma squaresFrom_numbers (e : list float) :
  forall i sum,
    squaresFrom stringToNumber objectToNumber (map JNumber e) sum
    = inr (reduceFrom (fun sum val _ => sum + val * val)%float e i sum).
Proof.
  induction e as [|x e IH]; intros i sum; [reflexivity |].
  cbn [squaresFrom map toNumber reduceFrom]. apply IH.
Qed.

Lemma cosineSimilarityOf_numbers (a e : list float) :
  cosineSimilarityOf stringToNumber objectToNumber a (JArray (map JNumber e))
  = inr (cosineSimilarity a e).
Proof.
  unfold cosineSimilarityOf, cosineSimilarity. cbn [hasLength].
  rewrite length_map, (Nat.eqb_sym (length e) (length a)).
  destruct (negb (length a =? length e)%nat); [reflexivity |].
  rewrite dotFrom_numbers, (squaresFrom_numbers e 0%nat).
  unfold magnitude, reduce.
  destruct ((_ =? 0) || (_ =? 0))%float; reflexivity.
Qed.


(** The typed model of [search] is this one on the tables that hold
    metadata of the declared types. *)
Lemma scoreFound_typed (q : list float) (chunk : ChunkRow * DocumentRow) :
  scoreFound stringToNumber objectToNumber q (found chunk)
  = inr (scoreChunk q chunk).
Proof.
  unfold scoreFound, scoreChunk, found, resultOf. cbn [fc_metadata fc_id
    fc_documentId fc_chunkIndex fc_content fc_documentName].
  destruct (row_metadata (fst chunk)) as [md|]; [| reflexivity].
  assert (Hv : embeddingVectorOf (asJson (Some md))
               = option_map (fun e => JArray (map JNumber e)) (md_embeddingVector md)).
  { unfold asJson, embeddingVectorOf, getField.
    destruct (md_startChar md), (md_endChar md), (md_qualityScore md),
      (md_documentName md), (md_embeddingVector md); reflexivity. }
  rewrite Hv. destruct (md_embeddingVector md) as [e|]; [| reflexivity].
  cbn [option_map isTruthy]. rewrite cosineSimilarityOf_numbers. reflexivity.
Qed.

Lemma internalSearch_on_json (q : list float) (k : Z) (filter : option Filter)
      (w : World) :
  internalSearch q k filter w
  = searchFound stringToNumber objectToNumber findManyTyped q k filter w.
Proof.
  unfold internalSearch, searchFound, findManyTyped, bind, ret.
  destruct (findManyChunks filter (k * 2) w) as [[rows| |] w1]; try reflexivity.
  cbv beta iota.
  assert (Hall : mapE (scoreFound stringToNumber objectToNumber q) (map found rows)
                 = inr (map (scoreChunk q) rows)).
  { induction rows as [|chunk rows IH]; [reflexivity |].
    cbn [map mapE]. rewrite scoreFound_typed, IH. reflexivity. }
  rewrite Hall. reflexivity.
Qed.


End SearchOnJsonFacts.



(** ** Upsert, then search with the same embedding *)

Lemma upsertRow_ignores_embedding (r : VectorRecord) (e : list float)
      (rows : list ChunkRow) :
  upsertRow (withEmbedding r e) rows = upsertRow r rows.
Proof.
  induction rows as [|c rows IH]; simpl; [reflexivity |].
  destruct (String.eqb (row_id c) (vr_id r)); [reflexivity | now rewrite IH].
Qed.

Lemma internalUpsert_ignores_embedding (r : VectorRecord) (e : list float)
      (w : World) :
  internalUpsert [withEmbedding r e] w = internalUpsert [r] w.
Proof.
  unfold internalUpsert, forEach, bind, chunkUpsert, ret.
  now rewrite upsertRow_ignores_embedding.
Qed.

(** C1 fails on the code.  After a successful [upsert] of [recordR], a
    search with [recordR]'s own embedding (and a filter that matches its
    document) scores [recordR] 0, below [recordS]; with [topK = 1] it is
    not returned at all.  Its similarity with itself is 1. *)
Lemma C1_upsert_then_search_misses_record :
  fst ((internalUpsert [recordS] ;;; internalUpsert [recordR]) emptyStore) = Ok tt
  /\ cosineSimilarity (vr_embedding recordR) (vr_embedding recordR) = 1%float
  /\ internalSearch (vr_embedding recordR) 2 (Some userFilter) afterUpsert
     = (Ok [ mkVectorSearchResult "d1-chunk-0" "d1" 0 $"other" 1%float docName;
             mkVectorSearchResult "d1-chunk-1" "d1" 1 $"self" 0%float docName ],
        afterUpsert)
  /\ internalSearch (vr_embedding recordR) 1 (Some userFilter) afterUpsert
     = (Ok [ mkVectorSearchResult "d1-chunk-0" "d1" 0 $"other" 1%float docName ],
        afterUpsert).
Proof. repeat split. Qed.

(** ** Retriever.retrieve *)

(** What a [retrieve] that resolves has done: it has embedded the query,
    searched the store for [2 * topK] candidates, and kept [selected]. *)
Lemma retrieve_inv self options w result w' :
  orElse (useRag options) true = true ->
  retrieve self options w = (Ok result, w') ->
  exists e w1 results w2,
    embedSingle (embeddingProvider self) (query options) (snd (dateNow w))
    = (Ok e, w1)
    /\ search (vectorStore self) (embedding e) (effectiveTopK self options * 2)
              (Some (searchFilter options)) w1
       = (Ok results, w2)
    /\ rr_chunks result
       = map toDocumentChunk
             (selected (effectiveThreshold self options)
                       (effectiveTopK self options) results)
    /\ totalChunks result = len results.
Proof.
  intros Hrag. unfold retrieve, bind. simpl. rewrite Hrag. simpl.
  fold (effectiveTopK self options) (effectiveThreshold self options)
       (searchFilter options).
  destruct (embedSingle _ _ _) as [[e| |] w1] eqn:Ee; try discriminate.
  destruct (search _ _ _ _ _) as [[results| |] w2] eqn:Es; try discriminate.
  intros H. exists e, w1, results, w2.
  split; [reflexivity |]. split; [exact Es |].
  destruct (rerankEnabled (config self) && isSet (rerankModel (config self)));
    unfold rerankResults, ret in H; simpl in H; inversion H; subst; simpl;
    split; reflexivity.
Qed.

Lemma selected_Subseq threshold k results :
  Subseq (selected threshold k results) results.
Proof.
  unfold selected.
  eapply Subseq_trans; [apply slice_Subseq | apply Subseq_filter].
Qed.

Lemma selected_above threshold k results :
  Forall (fun r => (threshold <=? score r)%float = true)
         (selected threshold k results).
Proof.
  rewrite Forall_forall. intros r Hr.
  apply (Subseq_In _ _ (slice_Subseq _ _ _)) in Hr.
  apply filter_In in Hr. apply Hr.
Qed.

Lemma selected_length threshold k results :
  0 <= k -> len (selected threshold k results) <= k.
Proof. intros H. apply slice_length_le, H. Qed.

(** C2 (amended).  For every [retrieve] call with [useRag] on that
    resolves: every returned chunk carries a score that is at least the
    threshold in force; the returned chunks are, in their order, results
    of the vector store's search with some left out, so a descending
    order of the store is kept; when the [topK] in force is not negative,
    at most [topK] chunks are returned; and when the store's candidates
    score 0.9, 0.75 and 0.5, the threshold is 0.7 and [topK] is at least
    2, exactly the first two are returned, in that order. *)
Theorem C2_retrieve_filters_bounds_and_keeps_order
        (self : Retriever) (options : RetrievalOptions) (w w' : World)
        (result : RetrievalResult) :
  orElse (useRag options) true = true ->
  retrieve self options w = (Ok result, w') ->
  exists e w1 results w2 ranked,
    embedSingle (embeddingProvider self) (query options) (snd (dateNow w))
    = (Ok e, w1)
    /\ search (vectorStore self) (embedding e) (effectiveTopK self options * 2)
              (Some (searchFilter options)) w1
       = (Ok results, w2)
    /\ rr_chunks result = map toDocumentChunk ranked
    /\ Forall (fun r => (effectiveThreshold self options <=? score r)%float = true)
              ranked
    /\ Subseq ranked results
    /\ (descending (map score results) -> descending (map score ranked))
    /\ (0 <= effectiveTopK self options ->
        len (rr_chunks result) <= effectiveTopK self options)
    /\ (forall r1 r2 r3,
           results = [r1; r2; r3] ->
           score r1 = 0.9%float -> score r2 = 0.75%float -> score r3 = 0.5%float ->
           effectiveThreshold self options = 0.7%float ->
           2 <= effectiveTopK self options ->
           rr_chunks result = [toDocumentChunk r1; toDocumentChunk r2]).
Proof.
  intros Hrag H.
  destruct (retrieve_inv self options w result w' Hrag H)
    as (e & w1 & results & w2 & He & Hs & Hc & _).
  exists e, w1, results, w2,
    (selected (effectiveThreshold self options) (effectiveTopK self options) results).
  repeat split; try assumption.
  - apply selected_above.
  - apply selected_Subseq.
  - intros Hd. eapply Subseq_sorted; [| exact Hd].
    apply Subseq_map, selected_Subseq.
  - intros Hk. rewrite Hc. unfold len. rewrite length_map.
    apply selected_length, Hk.
  - intros r1 r2 r3 -> H1 H2 H3 Ht Hk. rewrite Hc. unfold selected.
    simpl. rewrite Ht, H1, H2, H3. simpl.
    rewrite slice_prefix by lia.
    rewrite firstn_all2 by (simpl; lia). reflexivity.
Qed.

(** *** A store that answers with given results *)

Example retrieve_default_topK :
  fst (retrieve sampleRetriever (askTopK None) emptyStore)
  = Ok (mkRetrievalResult [chunkOf "a" 0.9%float; chunkOf "b" 0.75%float]
                          3 $"question" 1).
Proof. reflexivity. Qed.

Lemma C2_witness :
  orElse (useRag (askTopK None)) true = true
  /\ retrieve sampleRetriever (askTopK None) emptyStore
     = (Ok (mkRetrievalResult [chunkOf "a" 0.9%float; chunkOf "b" 0.75%float]
                              3 $"question" 1),
        snd (retrieve sampleRetriever (askTopK None) emptyStore))
  /\ exists e w1 results w2 ranked,
      embedSingle (embeddingProvider sampleRetriever) (query (askTopK None))
                  (snd (dateNow emptyStore))
      = (Ok e, w1)
      /\ search (vectorStore sampleRetriever) (embedding e)
                (effectiveTopK sampleRetriever (askTopK None) * 2)
                (Some (searchFilter (askTopK None))) w1
         = (Ok results, w2)
      /\ [chunkOf "a" 0.9%float; chunkOf "b" 0.75%float] = map toDocumentChunk ranked
      /\ Forall (fun r => (effectiveThreshold sampleRetriever (askTopK None)
                           <=? score r)%float = true) ranked
      /\ Subseq ranked results
      /\ (descending (map score results) -> descending (map score ranked))
      /\ (0 <= effectiveTopK sampleRetriever (askTopK None) ->
          len [chunkOf "a" 0.9%float; chunkOf "b" 0.75%float]
          <= effectiveTopK sampleRetriever (askTopK None))
      /\ (forall r1 r2 r3,
             results = [r1; r2; r3] ->
             score r1 = 0.9%float -> score r2 = 0.75%float -> score r3 = 0.5%float ->
             effectiveThreshold sampleRetriever (askTopK None) = 0.7%float ->
             2 <= effectiveTopK sampleRetriever (askTopK None) ->
             [chunkOf "a" 0.9%float; chunkOf "b" 0.75%float]
             = [toDocumentChunk r1; toDocumentChunk r2]).
Proof.
  split; [reflexivity |]. split; [reflexivity |].
  apply (C2_retrieve_filters_bounds_and_keeps_order
           sampleRetriever (askTopK None) emptyStore
           (snd (retrieve sampleRetriever (askTopK None) emptyStore))
           (mkRetrievalResult [chunkOf "a" 0.9%float; chunkOf "b" 0.75%float]
                              3 $"question" 1));
    reflexivity.
Defined.

(** C2, as stated, fails.  With the candidates scoring 0.9, 0.75 and 0.5
    and the threshold 0.7, a call with [topK = 1] returns the first
    candidate only, not the first two; and with [topK = -1] the length of
    the returned list (0) is not at most [topK]. *)
Lemma C2_counterexample :
  fst (retrieve sampleRetriever (askTopK (Some 1)) emptyStore)
  = Ok (mkRetrievalResult [chunkOf "a" 0.9%float] 2 $"question" 1)
  /\ fst (retrieve sampleRetriever (askTopK (Some (-1))) emptyStore)
     = Ok (mkRetrievalResult [] 1 $"question" 1)
  /\ ~ (len (@nil DocumentChunk) <= -1).
Proof. repeat split. unfold len; simpl; lia. Qed.

(** ** RagPipeline.query: transforms that need a callback *)

Lemma withQuery_same (o : RetrievalOptions) : withQuery o (query o) = o.
Proof. destruct o; reflexivity. Qed.

Lemma transform_fallback (options : QueryOptions) :
  fallbackOccurred options = true ->
  transform options = ret (query (base options)).
Proof.
  unfold fallbackOccurred, transform.
  destruct (transformQuery options) as [[| | |]|];
    destruct (llmGenerate options); simpl; intros H;
    try discriminate; reflexivity.
Qed.

Lemma transform_original (options : QueryOptions) :
  transformQuery options = Some original ->
  transform options = ret (query (base options)).
Proof.
  unfold transform. intros ->. simpl.
  destruct (llmGenerate options); reflexivity.
Qed.

(** C4 (amended).  For every [query] call that asks for [hyde] or
    [subquestion] without an [llmGenerate] callback: the query is left as
    it is, retrieval runs on the unmodified query, the reported
    [transformedQuery] is the original query, and the whole call behaves
    exactly as the same call with the [original] transform.  (The result
    has the fields [ragContext] and [transformedQuery] only; nothing in
    it tells the fallback from a plain [original] request.) *)
Theorem C4_fallback_behaves_as_original
        (self : Retriever) (options : QueryOptions) :
  fallbackOccurred options = true ->
  transform options = ret (query (base options))
  /\ (forall w,
         pipelineQuery self options w
         = (retrievalResult <- retrieve self (base options) ;;
            ret (mkQueryResult
                   (buildRagPrompt (config self) (query (base options))
                                   retrievalResult (customSystemPrompt options))
                   (query (base options)))) w)
  /\ (forall w r w',
         pipelineQuery self options w = (Ok r, w') ->
         transformedQuery r = query (base options))
  /\ (forall w,
         pipelineQuery self options w
         = pipelineQuery self (withTransform options (Some original)) w).
Proof.
  intros Hf.
  assert (Hrun : forall w,
             pipelineQuery self options w
             = (retrievalResult <- retrieve self (base options) ;;
                ret (mkQueryResult
                       (buildRagPrompt (config self) (query (base options))
                                       retrievalResult (customSystemPrompt options))
                       (query (base options)))) w).
  { intros w. unfold pipelineQuery. rewrite (transform_fallback options Hf).
    unfold bind at 1. unfold ret at 1. rewrite withQuery_same. reflexivity. }
  repeat split.
  - apply transform_fallback, Hf.
  - exact Hrun.
  - intros w r w' H. rewrite Hrun in H. unfold bind, ret in H.
    destruct (retrieve self (base options) w) as [[rr| |] w1];
      inversion H; subst; reflexivity.
  - intros w. rewrite Hrun. unfold pipelineQuery.
    rewrite (transform_original (withTransform options (Some original)) eq_refl).
    unfold bind at 2. unfold ret at 2. simpl base.
    rewrite withQuery_same. reflexivity.
Qed.

Lemma C4_witness :
  fallbackOccurred (ask (Some hyde)) = true
  /\ transform (ask (Some hyde)) = ret (query (base (ask (Some hyde))))
  /\ (forall w,
         pipelineQuery sampleRetriever (ask (Some hyde)) w
         = (retrievalResult <- retrieve sampleRetriever (base (ask (Some hyde))) ;;
            ret (mkQueryResult
                   (buildRagPrompt (config sampleRetriever)
                                   (query (base (ask (Some hyde))))
                                   retrievalResult
                                   (customSystemPrompt (ask (Some hyde))))
                   (query (base (ask (Some hyde)))))) w)
  /\ (forall w r w',
         pipelineQuery sampleRetriever (ask (Some hyde)) w = (Ok r, w') ->
         transformedQuery r = query (base (ask (Some hyde))))
  /\ (forall w,
         pipelineQuery sampleRetriever (ask (Some hyde)) w
         = pipelineQuery sampleRetriever
                         (withTransform (ask (Some hyde)) (Some original)) w).
Proof.
  split; [reflexivity |].
  apply (C4_fallback_behaves_as_original sampleRetriever (ask (Some hyde))).
  reflexivity.
Defined.

(** C4, as stated, fails: the call that falls back from [hyde] and the
    call that asks for [original] resolve to the same result, so no
    reading of the result can signal the fallback. *)
Lemma C4_counterexample :
  fallbackOccurred (ask (Some hyde)) = true
  /\ fallbackOccurred (ask (Some original)) = false
  /\ fst (pipelineQuery sampleRetriever (ask (Some hyde)) emptyStore)
     = fst (pipelineQuery sampleRetriever (ask (Some original)) emptyStore)
  /\ ~ (exists flag : QueryResult -> bool,
           forall options r w',
             pipelineQuery sampleRetriever options emptyStore = (Ok r, w') ->
             flag r = fallbackOccurred options).
Proof.
  repeat split.
  intros [flag Hflag].
  destruct (pipelineQuery sampleRetriever (ask (Some hyde)) emptyStore)
    as [[r| |] w'] eqn:E; try discriminate E.
  pose proof (Hflag (ask (Some hyde)) r w' E) as H1.
  pose proof (Hflag (ask (Some original)) r w' E) as H2.
  cbv [fallbackOccurred ask transformQuery llmGenerate] in H1, H2. congruence.
Qed.

(** ** OpenAIEmbeddingProvider.embed: a failing sub-batch *)

Section EmbedAborts.

Variable api : EmbeddingsApi.
Variable model : string.
Variable batch : nat.
Variable texts : list jstring.

Lemma openaiEmbedLoop_unfold i starts results w :
  openaiEmbedLoop api model batch texts (i :: starts) results w
  = match api (length (requests w)) (subBatch batch texts i) with
    | Ok response =>
        openaiEmbedLoop api model batch texts starts
          (results ++ map (toResult model response) (data response))
          (mkWorld (documents w) (chunkRows w) (requests w ++ [subBatch batch texts i])
                   (uuids w) (clock w) (ticks w))
    | Throw message =>
        (Throw message,
         mkWorld (documents w) (chunkRows w) (requests w ++ [subBatch batch texts i])
                 (uuids w) (clock w) (ticks w))
    | Hangs =>
        (Hangs,
         mkWorld (documents w) (chunkRows w) (requests w ++ [subBatch batch texts i])
                 (uuids w) (clock w) (ticks w))
    end.
Proof.
  simpl. unfold bind, embeddingsCreate, subBatch.
  destruct (api _ _); reflexivity.
Qed.

(** When the loop rejects, the request that failed is the last one
    made: the sub-batches after it are never requested. *)
Lemma openaiEmbedLoop_throw :
  forall starts results w message w',
    openaiEmbedLoop api model batch texts starts results w = (Throw message, w') ->
    exists before i after,
      starts = before ++ i :: after
      /\ requests w' = requests w ++ map (subBatch batch texts) (before ++ [i])
      /\ api (length (requests w) + length before)%nat (subBatch batch texts i) = Throw message.
Proof.
  induction starts as [|i starts IH]; intros results w message w' H.
  - discriminate.
  - rewrite openaiEmbedLoop_unfold in H.
    destruct (api (length (requests w)) (subBatch batch texts i)) as [response|m|] eqn:E.
    + apply IH in H. destruct H as (before & j & after & Hs & Hr & Ha).
      exists (i :: before), j, after. simpl in *. split; [congruence |].
      split.
      * rewrite Hr, <- app_assoc. reflexivity.
      * rewrite length_app in Ha. simpl in Ha.
        replace (length (requests w) + S (length before))%nat
          with (length (requests w) + 1 + length before)%nat by lia.
        exact Ha.
    + inversion H; subst. exists [], i, starts. simpl.
      repeat split. rewrite Nat.add_0_r. exact E.
    + discriminate.
Qed.

(** The loop resolves only when every sub-batch was requested and
    answered. *)
Lemma openaiEmbedLoop_ok :
  forall starts results w out w',
    openaiEmbedLoop api model batch texts starts results w = (Ok out, w') ->
    requests w' = requests w ++ map (subBatch batch texts) starts
    /\ forall n i, nth_error starts n = Some i ->
                   exists response,
                     api (length (requests w) + n)%nat (subBatch batch texts i) = Ok response.
Proof.
  induction starts as [|i starts IH]; intros results w out w' H.
  - inversion H; subst. simpl. rewrite app_nil_r. split; [reflexivity |].
    intros [|n] j Hn; discriminate.
  - rewrite openaiEmbedLoop_unfold in H.
    destruct (api (length (requests w)) (subBatch batch texts i)) as [response|m|] eqn:E;
      try discriminate.
    apply IH in H. destruct H as [Hr Ha]. simpl in *. split.
    + rewrite Hr, <- app_assoc. reflexivity.
    + intros [|n] j Hn; simpl in Hn.
      * inversion Hn; subst. rewrite Nat.add_0_r. eauto.
      * destruct (Ha n j Hn) as [resp Hresp]. exists resp.
        rewrite length_app in Hresp. simpl in Hresp.
        replace (length (requests w) + S n)%nat
          with (length (requests w) + 1 + n)%nat by lia.
        exact Hresp.
Qed.

End EmbedAborts.

(** ** The batch loop of processDocument *)

Section BatchRuns.

Variable provider : EmbeddingProvider.
Variable documentId : string.
Variable chunks : list TextChunk.

Lemma embedAttempt_cases st i w :
  embedAttempt provider chunks st i w
  = match embed provider (map content (batchAt chunks i)) w with
    | (Ok results, w1) => (Ok (fst st ++ attach (batchAt chunks i) results, snd st), w1)
    | (Throw message, w1) => (Ok (fst st, snd st ++ [batchError i message]), w1)
    | (Hangs, w1) => (Hangs, w1)
    end.
Proof.
  unfold embedAttempt, tryCatch, bind, ret, batchAt.
  destruct (embed provider _ w) as [[results|message|] w1]; reflexivity.
Qed.

Lemma embedBatches_run :
  forall starts st w embs errs w',
    embedBatches provider documentId chunks starts st w = (Ok embs, errs, w') ->
    exists failures, BatchRun provider documentId chunks starts st w failures (embs, errs) w'.
Proof.
  induction starts as [|i starts IH]; intros st w embs errs w' H; simpl in H.
  - inversion H; subst. exists []. destruct st; constructor.
  - rewrite embedAttempt_cases in H.
    destruct (embed provider (map content (batchAt chunks i)) w)
      as [[results|message|] w1] eqn:Ee; try discriminate.
    + destruct (reportProgress documentId chunks i w1) as [[[]| |] w2] eqn:Ep;
        try discriminate.
      destruct (IH _ _ _ _ _ H) as [failures Hrun].
      exists failures. eapply run_embedded; eassumption.
    + destruct (reportProgress documentId chunks i w1) as [[[]| |] w2] eqn:Ep;
        try discriminate.
      destruct (IH _ _ _ _ _ H) as [failures Hrun].
      exists (i :: failures). eapply run_failed; eassumption.
Qed.

Lemma run_embedBatches starts st w failures st' w' :
  BatchRun provider documentId chunks starts st w failures st' w' ->
  embedBatches provider documentId chunks starts st w = (Ok (fst st'), snd st', w').
Proof.
  induction 1 as [st w | i starts st w results w1 w2 failures st' w' He Hp _ IH
                 | i starts st w message w1 w2 failures st' w' He Hp _ IH];
    simpl.
  - reflexivity.
  - rewrite embedAttempt_cases, He, Hp. exact IH.
  - rewrite embedAttempt_cases, He, Hp. exact IH.
Qed.


End BatchRuns.

(** C6 (amended).  A failing sub-batch inside [embed] aborts the call:
    when [embed] rejects, the request that failed is the last one made
    (the sub-batches after it are not requested) and the caller gets the
    error and no results; [embed] resolves only when every sub-batch was
    requested and answered.  It is the batch loop of [processDocument]
    that survives a failure: it hands every batch to [embed], records a
    failed batch with its number in [errors], goes on with the remaining
    batches, and ends with the embedded results and the error list. *)
Theorem C6_embed_aborts_ingestion_loop_continues
        (api : EmbeddingsApi) (model : string) (batch : nat) (texts : list jstring)
        (provider : EmbeddingProvider) (documentId : string)
        (chunks : list TextChunk) :
  (forall w message w',
      openaiEmbed api model batch texts w = (Throw message, w') ->
      exists before i after,
        batchStarts batch (length texts) = before ++ i :: after
        /\ requests w' = requests w ++ map (subBatch batch texts) (before ++ [i])
        /\ api (length (requests w) + length before)%nat (subBatch batch texts i)
           = Throw message)
  /\ (forall w out w',
         openaiEmbed api model batch texts w = (Ok out, w') ->
         requests w' = requests w
                       ++ map (subBatch batch texts) (batchStarts batch (length texts))
         /\ forall n i,
             nth_error (batchStarts batch (length texts)) n = Some i ->
             exists response,
               api (length (requests w) + n)%nat (subBatch batch texts i)
               = Ok response)
  /\ (forall starts st w embs errs w',
         embedBatches provider documentId chunks starts st w = (Ok embs, errs, w')
         <-> exists failures,
             BatchRun provider documentId chunks starts st w failures (embs, errs) w').
Proof.
  repeat split.
  - intros w message w' H. unfold openaiEmbed in H.
    exact (openaiEmbedLoop_throw api model batch texts _ _ _ _ _ H).
  - unfold openaiEmbed in H.
    exact (proj1 (openaiEmbedLoop_ok api model batch texts _ _ _ _ _ H)).
  - unfold openaiEmbed in H.
    exact (proj2 (openaiEmbedLoop_ok api model batch texts _ _ _ _ _ H)).
  - apply embedBatches_run.
  - intros [failures Hrun].
    exact (run_embedBatches provider documentId chunks _ _ _ _ _ _ Hrun).
Qed.

(** *** An embedding service that fails on one request *)

(** C6, as stated, fails for [embed].  With two sub-batches, when the
    first request is rejected the second sub-batch is never requested;
    when the second request is rejected the call rejects as a whole, and
    the 2048 embeddings of the first sub-batch do not reach the caller. *)
Lemma C6_counterexample :
  (fst (embed (OpenAIEmbeddingProvider (failingAt 0%nat) "text-embedding-3-small")
              manyTexts emptyStore)
   = Throw "429 rate limit"
   /\ requests (snd (embed (OpenAIEmbeddingProvider (failingAt 0%nat)
                                                    "text-embedding-3-small")
                           manyTexts emptyStore))
      = [repeat $"x" 2048%nat])
  /\ (fst (embed (OpenAIEmbeddingProvider (failingAt 1%nat) "text-embedding-3-small")
                 manyTexts emptyStore)
      = Throw "429 rate limit"
      /\ failingAt 1%nat 0%nat (repeat $"x" 2048%nat) = Ok (embedAll (repeat $"x" 2048%nat))).
Proof. repeat split; vm_compute; reflexivity. Qed.

(** ** The status an ingestion reports *)

Lemma bind_Ok {A B} (m : M A) (k : A -> M B) (w w1 : World) (a : A) :
  m w = (Ok a, w1) -> bind m k w = k a w1.
Proof. intros H. unfold bind. rewrite H. reflexivity. Qed.

Lemma bind_Throw {A B} (m : M A) (k : A -> M B) (w w1 : World) (e : string) :
  m w = (Throw e, w1) -> bind m k w = (Throw e, w1).
Proof. intros H. unfold bind. rewrite H. reflexivity. Qed.


Section IngestionStatus.

Variable store : VectorStore.
Variable provider : EmbeddingProvider.
Variable cfg : RagConfig.
Variable parseDocument : string -> M ParsedDocument.
Variable uuidv4 : nat -> string.
Variable basename : string -> string.

Lemma ingestDocument_parse_failure filePath user options w message w1 :
  parseDocument filePath w = (Throw message, w1) ->
  ingestDocument store provider cfg parseDocument uuidv4 basename
                 filePath user options w
  = (Ok (mkIngestionResult "" 0 failed (Some [message])), w1).
Proof.
  intros H. unfold ingestDocument, tryCatch.
  rewrite (bind_Throw _ _ _ _ _ H). reflexivity.
Qed.





End IngestionStatus.

(** *** Sample ingestions *)

Example ingest_success :
  fst (ingestWith (failingAt never) (sampleParser shortDocument) None noDocuments)
  = Ok (mkIngestionResult "doc-0" 1 success None).
Proof. vm_compute. reflexivity. Qed.

Example ingest_partial :
  fst (ingestWith (failingAt 1%nat) (sampleParser longDocument)
                  oneParagraphPerChunk noDocuments)
  = Ok (mkIngestionResult "doc-0" 100 partial
          (Some ["Embedding batch 2 failed: 429 rate limit"%string])).
Proof. vm_compute. reflexivity. Qed.

Example ingest_parse_failure :
  fst (ingestWith (failingAt never) brokenParser None noDocuments)
  = Ok (mkIngestionResult "" 0 failed (Some ["Unsupported file type"%string])).
Proof. vm_compute. reflexivity. Qed.

Example ingest_no_chunks :
  fst (ingestWith (failingAt never) (sampleParser $"   ") None noDocuments)
  = Ok (mkIngestionResult "doc-0" 0 failed (Some ["No content to chunk"%string])).
Proof. vm_compute. reflexivity. Qed.


(** * Further properties *)

(** ** The chunkers return *)

(** X1.  The fixed-size chunker returns unless the overlap equals the chunk
    size and the text has more words than that. *)
Theorem X1_fixed_chunker_returns_iff (text : jstring) (options : ChunkOptions) :
  (exists out, chunkByFixedSize text options = Some out)
  <-> (chunkSize options <> chunkOverlap options
       \/ len (split reWhitespace text) <= chunkSize options).
Proof.
  pose proof (chunkByFixedSize_hangs_iff text options) as H.
  destruct (chunkByFixedSize text options) as [out|].
  - split; [| eauto]. intros _.
    destruct (Z.eq_dec (chunkSize options) (chunkOverlap options)); [| auto].
    destruct (Z_le_gt_dec (len (split reWhitespace text)) (chunkSize options)); [auto |].
    assert (Hn : @None (list TextChunk) = None) by reflexivity.
    destruct H as [_ H]. discriminate H. split; [assumption | lia].
  - split.
    + intros [out Hout]. discriminate.
    + intros Hc. destruct H as [H _]. specialize (H eq_refl). lia.
Qed.

Lemma chunkByFixedSize_returns (text : jstring) (options : ChunkOptions) :
  chunkSize options <> chunkOverlap options ->
  exists out, chunkByFixedSize text options = Some out.
Proof.
  intros Hne. pose proof (chunkByFixedSize_hangs_iff text options) as H.
  destruct (chunkByFixedSize text options) as [out|]; [eauto |].
  destruct H as [H _]. specialize (H eq_refl). lia.
Qed.

Lemma foldM_total {A B} (f : A -> B -> option A) :
  (forall a x, exists a', f a x = Some a') ->
  forall l a, exists a', foldM f l a = Some a'.
Proof.
  intros Hf. induction l as [|x l IH]; intros a; simpl; [eauto |].
  destruct (Hf a x) as [a' ->]. apply IH.
Qed.

Lemma chunkBySentence_returns (text : jstring) (options : ChunkOptions) :
  chunkSize options / 2 <> chunkOverlap options ->
  exists out, chunkBySentence text options = Some out.
Proof.
  intros Hne. unfold chunkBySentence.
  destruct (foldM_total (sentenceStep options)) with
    (l := split reAfterSentence text) (a := initAcc) as [a ->]; [| eauto].
  intros a piece. unfold sentenceStep.
  destruct (negb (truthy (trim piece))); [eauto |].
  destruct (chunkSize options <? len (trim piece)); [| eauto].
  destruct (chunkByFixedSize_returns (trim piece)
              (withChunkSize options (chunkSize options / 2))) as [subs ->];
    [exact Hne | eauto].
Qed.

Lemma chunkByParagraph_returns (text : jstring) (options : ChunkOptions) :
  chunkSize options / 2 / 2 <> chunkOverlap options ->
  exists out, chunkByParagraph text options = Some out.
Proof.
  intros Hne. unfold chunkByParagraph.
  destruct (foldM_total (paragraphStep options)) with
    (l := split reBlankLines text) (a := initAcc) as [a ->]; [| eauto].
  intros a piece. unfold paragraphStep.
  destruct (negb (truthy (trim piece))); [eauto |].
  destruct (chunkSize options <? len (trim piece)).
  - destruct (chunkBySentence_returns (trim piece)
                (withChunkSize options (chunkSize options / 2))) as [subs ->];
      [exact Hne | eauto].
  - destruct ((chunkSize options <? len (currentChunk a) + len (trim piece))
              && truthy (trim (currentChunk a))); eauto.
Qed.

(** X2.  [chunkText] returns for every text when the overlap in force
    differs from the chunk size the fixed-size chunker is run with: the
    chunk size itself for the fixed strategy, its half rounded down for
    the sentence strategy (which hands long sentences to the fixed-size
    chunker), that half halved and rounded down again for the paragraph
    strategy, which the semantic strategy shares (long paragraphs go to
    the sentence chunker). With the defaults (1000 and 200) it always
    returns. *)
Theorem X2_chunkText_returns (text : jstring) (options : PartialChunkOptions) :
  chunkOverlap (effectiveOptions options)
  <> match strategy (effectiveOptions options) with
     | fixed => chunkSize (effectiveOptions options)
     | sentence => chunkSize (effectiveOptions options) / 2
     | paragraph | semantic => chunkSize (effectiveOptions options) / 2 / 2
     end ->
  exists out, chunkText text options = Some out.
Proof.
  intros H. unfold chunkText.
  destruct (strategy (effectiveOptions options)).
  - apply chunkByFixedSize_returns; congruence.
  - apply chunkByParagraph_returns; congruence.
  - apply chunkByParagraph_returns; congruence.
  - apply chunkBySentence_returns; congruence.
Qed.

Lemma X2_witness :
  exists out,
    chunkText sampleText (mkPartialChunkOptions None None None None) = Some out.
Proof.
  apply (X2_chunkText_returns sampleText (mkPartialChunkOptions None None None None)).
  vm_compute. discriminate.
Defined.

(** ** What the fixed-size chunker keeps of the text *)

Lemma splitBy_pieces (matchAt : option ascii -> jstring -> nat) (P : ascii -> Prop) :
  (forall prev c rest, matchAt prev (c :: rest) = 0%nat -> P c) ->
  forall s prev skip cur,
    Forall P cur ->
    Forall (Forall P) (splitBy matchAt prev skip cur s).
Proof.
  intros Hm. induction s as [|c s IH]; intros prev skip cur Hcur; cbn [splitBy].
  - constructor; [| constructor]. apply Forall_rev, Hcur.
  - destruct skip as [|k]; [| apply IH, Hcur].
    destruct (matchAt prev (c :: s)) as [|k] eqn:E.
    + apply IH. constructor; [exact (Hm _ _ _ E) | exact Hcur].
    + constructor; [apply Forall_rev, Hcur |]. apply IH. constructor.
Qed.

Lemma splitBy_chars (matchAt : option ascii -> jstring -> nat) (P : ascii -> Prop) :
  forall s prev skip cur,
    Forall P s -> Forall P cur ->
    Forall (Forall P) (splitBy matchAt prev skip cur s).
Proof.
  induction s as [|c s IH]; intros prev skip cur Hs Hcur; cbn [splitBy].
  - constructor; [| constructor]. apply Forall_rev, Hcur.
  - inversion Hs as [|? ? Hc Hs']; subst.
    destruct skip as [|k]; [| apply IH; assumption].
    destruct (matchAt prev (c :: s)) as [|k].
    + apply IH; [assumption |]. constructor; assumption.
    + constructor; [apply Forall_rev, Hcur |]. apply IH; [assumption | constructor].
Qed.

Lemma words_have_no_space (s : jstring) :
  Forall (Forall (fun c => isWhiteSpace c = false)) (split reWhitespace s).
Proof.
  apply splitBy_pieces; [| constructor].
  intros prev c rest H. unfold reWhitespace in H. cbn [takeWhile] in H.
  destruct (isWhiteSpace c); [discriminate | reflexivity].
Qed.

Lemma slice_between {A} (l : list A) (s e : Z) :
  0 <= s <= e ->
  slice l s e = firstn (Z.to_nat e - Z.to_nat s) (skipn (Z.to_nat s) l).
Proof.
  intros H. unfold slice. rewrite !relIndex_nonneg by lia.
  destruct (Nat.le_gt_cases (length l) (Z.to_nat s)) as [Hout | Hin].
  - rewrite !skipn_all2 by lia. rewrite !firstn_nil. reflexivity.
  - rewrite (Nat.min_l (Z.to_nat s)) by lia.
    destruct (Nat.le_gt_cases (Z.to_nat e) (length l)) as [Hfit | Hcut].
    + rewrite Nat.min_l by lia. reflexivity.
    + rewrite Nat.min_r by lia.
      rewrite !firstn_all2; [reflexivity | |]; rewrite length_skipn; lia.
Qed.

Lemma firstn_plus {A} (n m : nat) (l : list A) :
  firstn (n + m) l = firstn n l ++ firstn m (skipn n l).
Proof.
  revert l. induction n as [|n IH]; intros l; [reflexivity |].
  destruct l as [|x l]; simpl; [rewrite firstn_nil; reflexivity |].
  rewrite IH. reflexivity.
Qed.

Lemma firstn_split_In {A} (l : list A) (n m : nat) (x : A) :
  (n <= m)%nat ->
  In x (firstn m l) ->
  In x (firstn n l) \/ In x (firstn (m - n) (skipn n l)).
Proof.
  intros Hnm Hin.
  assert (Hsplit : firstn m l = firstn n l ++ firstn (m - n) (skipn n l)).
  { replace m with (n + (m - n))%nat at 1 by lia. apply firstn_plus. }
  rewrite Hsplit in Hin. apply in_app_or, Hin.
Qed.

(** A run of characters that are not white space, between white space or
    the ends of the text, is one of the words of the text. *)
Lemma splitBy_word (word : jstring) :
  Forall (fun c => isWhiteSpace c = false) word ->
  forall after_ prev cur,
    spaceAhead after_ ->
    In (rev cur ++ word) (splitBy reWhitespace prev 0 cur (word ++ after_)).
Proof.
  induction 1 as [|a word Ha _ IH]; intros after_ prev cur Hy.
  - rewrite app_nil_r. cbn [app].
    destruct after_ as [|c rest]; [left; reflexivity |].
    cbn [splitBy]. unfold reWhitespace. cbn [takeWhile spaceAhead] in *.
    rewrite Hy. cbn [length]. left. reflexivity.
  - cbn [app splitBy]. unfold reWhitespace. cbn [takeWhile]. rewrite Ha.
    cbn [length]. specialize (IH after_ (Some a) (a :: cur) Hy).
    cbn [rev] in IH. rewrite <- app_assoc in IH. exact IH.
Qed.

Lemma splitBy_reaches_word (a : ascii) (word after_ : jstring) :
  isWhiteSpace a = false ->
  Forall (fun c => isWhiteSpace c = false) word ->
  spaceAhead after_ ->
  forall before prev skip cur,
    isWhiteSpace (last before " "%char) = true ->
    (skip = 0%nat
     \/ cur = []
        /\ length (takeWhile isWhiteSpace (before ++ (a :: word) ++ after_)) = skip) ->
    (before = [] -> skip = 0%nat /\ cur = []) ->
    In (a :: word)
       (splitBy reWhitespace prev skip cur (before ++ (a :: word) ++ after_)).
Proof.
  intros Ha Hw Hy. induction before as [|b before IH]; intros prev skip cur Hlast Hst Hend.
  - destruct (Hend eq_refl) as [-> ->]. cbn [app].
    apply (splitBy_word (a :: word) (Forall_cons _ Ha Hw) after_ prev [] Hy).
  - assert (Hlast' : isWhiteSpace (last before " "%char) = true).
    { destruct before as [|b' before']; [reflexivity | exact Hlast]. }
    assert (Hb : before = [] -> isWhiteSpace b = true).
    { intros ->. exact Hlast. }
    assert (Hnext : forall prev',
               isWhiteSpace b = true ->
               In (a :: word)
                  (splitBy reWhitespace prev'
                     (length (takeWhile isWhiteSpace (before ++ (a :: word) ++ after_)))
                     [] (before ++ (a :: word) ++ after_))).
    { intros prev' Hws. apply IH; [exact Hlast' | right; split; reflexivity |].
      intros ->. split; [| reflexivity]. cbn [app takeWhile].
      rewrite Ha. reflexivity. }
    change ((b :: before) ++ (a :: word) ++ after_)
      with (b :: (before ++ (a :: word) ++ after_)) in *.
    cbn [splitBy]. destruct skip as [|k].
    + unfold reWhitespace. cbn [takeWhile].
      destruct (isWhiteSpace b) eqn:Eb.
      * cbn [length]. right. apply Hnext; first [exact Eb | reflexivity].
      * cbn [length]. apply IH; [exact Hlast' | left; reflexivity |].
        intros Hnil. specialize (Hb Hnil). congruence.
    + destruct Hst as [Hst | [-> Hst]]; [discriminate |].
      cbn [takeWhile] in Hst. destruct (isWhiteSpace b) eqn:Eb; [| discriminate].
      cbn [length] in Hst. injection Hst as <-. apply Hnext; first [exact Eb | reflexivity].
Qed.

Lemma standsIn_split (word text : jstring) :
  word <> [] ->
  Forall (fun c => isWhiteSpace c = false) word ->
  standsIn word text ->
  In word (split reWhitespace text).
Proof.
  intros Hne Hw (before & after_ & -> & Hlast & Hahead).
  destruct word as [|a word]; [congruence |].
  inversion Hw as [|? ? Ha Hw']; subst.
  apply splitBy_reaches_word; auto.
Qed.

Lemma last_app_r {A} (a b : list A) (d : A) :
  b <> [] -> last (a ++ b) d = last b d.
Proof.
  intros Hb. induction a as [|x a IH]; [reflexivity |].
  cbn [app]. change (last (x :: a ++ b) d)
    with (match a ++ b with [] => x | _ => last (a ++ b) d end).
  destruct (a ++ b) eqn:E; [| exact IH].
  apply app_eq_nil in E. destruct E as [_ E]. contradiction.
Qed.

Lemma standsIn_app_r (word a b : jstring) :
  standsIn word a -> spaceAhead b -> b <> [] -> standsIn word (a ++ b).
Proof.
  intros (x & y & -> & Hx & Hy) Hb Hne.
  exists x, (y ++ b). rewrite <- !app_assoc. split; [reflexivity |].
  split; [exact Hx |].
  destruct y as [|c y]; [exact Hb | exact Hy].
Qed.

Lemma standsIn_app_l (word a b : jstring) :
  standsIn word b -> isWhiteSpace (last a " "%char) = true -> a <> [] ->
  standsIn word (a ++ b).
Proof.
  intros (x & y & -> & Hx & Hy) Ha Hne.
  exists (a ++ x), y. rewrite <- !app_assoc. split; [reflexivity |].
  split; [| exact Hy].
  destruct x as [|c x]; [rewrite app_nil_r; exact Ha |].
  rewrite last_app_r by discriminate. exact Hx.
Qed.

Lemma standsIn_join (word : jstring) (parts : list jstring) :
  In word parts -> standsIn word (join $" " parts).
Proof.
  induction parts as [|p [|q parts] IH]; [contradiction | |].
  - intros [<- | []]. exists [], []. rewrite app_nil_r. repeat split.
  - intros [<- | H].
    + exists [], ($" " ++ join $" " (q :: parts)). repeat split.
    + change (join $" " (p :: q :: parts))
        with (p ++ $" " ++ join $" " (q :: parts)).
      rewrite app_assoc. apply standsIn_app_l; [exact (IH H) | |].
      * rewrite last_app_r by discriminate. reflexivity.
      * destruct p; discriminate.
Qed.

(** One turn of the loop covers the words from [start] to [end]. *)
Lemma fixedChunkAt_covers (words : list jstring) (size start : Z) (idx : nat)
      (word : jstring) :
  0 <= start -> 0 <= size ->
  In word (firstn (Z.to_nat (Z.min (start + size) (len words)) - Z.to_nat start)
                  (skipn (Z.to_nat start) words)) ->
  standsIn word (content (fixedChunkAt words size start idx)).
Proof.
  intros Hs Hz Hin. unfold fixedChunkAt. cbn [content].
  apply standsIn_join.
  destruct (Z.le_gt_cases start (Z.min (start + size) (len words))) as [Hle | Hgt].
  - rewrite slice_between by lia. exact Hin.
  - replace (Z.to_nat (Z.min (start + size) (len words)) - Z.to_nat start)%nat
      with 0%nat in Hin by lia.
    contradiction.
Qed.

Lemma fixedLoop_covers (words : list jstring) (size overlap : Z) :
  0 <= overlap < size ->
  forall fuel start idx chunks out,
    0 <= start ->
    fixedLoop fuel words size overlap start idx chunks = Some out ->
    (forall word, In word (firstn (Z.to_nat start) words) ->
                  exists c, In c chunks /\ standsIn word (content c)) ->
    forall word, In word words ->
                 exists c, In c out /\ standsIn word (content c).
Proof.
  intros Ho. induction fuel as [|fuel IH]; intros start idx chunks out Hs H Hcov word Hw;
    [discriminate |].
  rewrite fixedLoop_unfold in H.
  destruct (Z.ltb_spec start (len words)) as [Hlt | Hge].
  - set (end_ := Z.min (start + size) (len words)) in *.
    assert (Hchunk : forall word',
               In word' (firstn (Z.to_nat end_ - Z.to_nat start)
                                (skipn (Z.to_nat start) words)) ->
               exists c, In c (chunks ++ [fixedChunkAt words size start idx])
                         /\ standsIn word' (content c)).
    { intros word' Hin. exists (fixedChunkAt words size start idx).
      split; [apply in_or_app; right; left; reflexivity |].
      apply fixedChunkAt_covers; [lia | lia | exact Hin]. }
    assert (Hold : forall word',
               In word' (firstn (Z.to_nat start) words) ->
               exists c, In c (chunks ++ [fixedChunkAt words size start idx])
                         /\ standsIn word' (content c)).
    { intros word' Hin. destruct (Hcov word' Hin) as (c & Hc & Hocc).
      exists c. split; [apply in_or_app; left; exact Hc | exact Hocc]. }
    destruct (fixedStops words size overlap start) eqn:Estop.
    + inversion H; subst out; clear H.
      assert (Hend : end_ = len words).
      { unfold fixedStops in Estop. fold end_ in Estop.
        apply orb_true_iff in Estop.
        destruct Estop as [E | E]; [apply Z.ltb_lt in E | apply Z.leb_le in E];
          unfold end_ in *; lia. }
      assert (Hall : In word (firstn (Z.to_nat end_) words)).
      { rewrite Hend. unfold len. rewrite Nat2Z.id, firstn_all. exact Hw. }
      apply (firstn_split_In words (Z.to_nat start)) in Hall; [| lia].
      destruct Hall as [Hin | Hin]; [apply Hold, Hin | apply Hchunk, Hin].
    + assert (Hend : end_ = start + size).
      { unfold fixedStops in Estop. fold end_ in Estop.
        apply orb_false_iff in Estop. destruct Estop as [_ E].
        apply Z.leb_gt in E. unfold end_ in *. lia. }
      refine (IH _ _ _ _ _ H _ word Hw); [lia |].
      intros word' Hin.
      apply (firstn_split_In words (Z.to_nat start)) in Hin; [| lia].
      destruct Hin as [Hin | Hin]; [apply Hold, Hin |].
      apply Hchunk.
      assert (Hmore : (Z.to_nat (start + (size - overlap)) - Z.to_nat start
                       <= Z.to_nat end_ - Z.to_nat start)%nat) by lia.
      eapply Subseq_In; [| exact Hin].
      replace (Z.to_nat end_ - Z.to_nat start)%nat
        with ((Z.to_nat (start + (size - overlap)) - Z.to_nat start)
              + ((Z.to_nat end_ - Z.to_nat start)
                 - (Z.to_nat (start + (size - overlap)) - Z.to_nat start)))%nat by lia.
      rewrite firstn_plus.
      generalize (firstn (Z.to_nat (start + (size - overlap)) - Z.to_nat start)
                         (skipn (Z.to_nat start) words)).
      intros l. induction l as [|x l IHl]; simpl.
      * apply Subseq_nil_l.
      * apply Subseq_keep, IHl.
  - inversion H; subst out. apply Hcov.
    rewrite firstn_all2 by (unfold len in *; lia). exact Hw.
Qed.

(** The merge pass joins contents with two line feeds, so a word of a
    chunk is a word of the chunk that absorbs it. *)
Lemma mergeLoop_covers (minSize : Z) (word : jstring) (rest : list TextChunk) :
  forall current c,
    In c (current :: rest) ->
    standsIn word (content c) ->
    exists c', In c' (mergeLoop minSize current rest)
               /\ standsIn word (content c').
Proof.
  induction rest as [|next rest IH]; intros current c Hin Hword.
  - destruct Hin as [<- | []]. exists current.
    split; [left; reflexivity | exact Hword].
  - destruct (Z.lt_ge_cases (len (content current)) minSize) as [Hs | Hb].
    + rewrite mergeLoop_small by assumption.
      assert (Habs : exists y, In y (absorb current next :: rest)
                               /\ standsIn word (content y)).
      { destruct Hin as [<- | [<- | Hx]].
        - exists (absorb current next). split; [left; reflexivity |].
          unfold absorb. cbn [content].
          apply standsIn_app_r; [exact Hword | reflexivity | discriminate].
        - exists (absorb current next). split; [left; reflexivity |].
          unfold absorb. cbn [content]. rewrite app_assoc.
          apply standsIn_app_l; [exact Hword | | ].
          + rewrite last_app_r by discriminate. reflexivity.
          + destruct (content current); discriminate.
        - exists c. split; [right; exact Hx | exact Hword]. }
      destruct Habs as (y & Hy & Hocc).
      exact (IH (absorb current next) y Hy Hocc).
    + rewrite mergeLoop_big by assumption.
      destruct Hin as [<- | Hin].
      * exists current. split; [left; reflexivity | exact Hword].
      * destruct (IH next c Hin Hword) as (c' & Hc' & Hocc).
        exists c'. split; [right; exact Hc' | exact Hocc].
Qed.

Lemma mergeSmallChunks_covers (chunks : list TextChunk) (minSize : Z)
      (word : jstring) (c : TextChunk) :
  In c chunks ->
  standsIn word (content c) ->
  exists c', In c' (mergeSmallChunks chunks minSize)
             /\ standsIn word (content c').
Proof.
  destruct chunks as [|first rest]; [contradiction |].
  rewrite mergeSmallChunks_loop. apply mergeLoop_covers.
Qed.

(** X3.  With an overlap that is not negative and is smaller than the chunk
    size, the fixed-size chunker loses no word: every word of the text (a
    piece of its split at white space that is not empty) is a word of the
    content of one of the chunks it returns, also after the merge pass. *)
Theorem X3_fixed_chunker_covers_every_word
        (text : jstring) (options : ChunkOptions) (out : list TextChunk) :
  0 <= chunkOverlap options < chunkSize options ->
  chunkByFixedSize text options = Some out ->
  forall word,
    In word (split reWhitespace text) ->
    word <> [] ->
    exists c, In c out /\ In word (split reWhitespace (content c)).
Proof.
  intros Ho H word Hw Hne. unfold chunkByFixedSize in H.
  destruct (fixedLoop _ _ _ _ 0 0%nat []) as [pre|] eqn:E; [| discriminate].
  inversion H; subst out; clear H.
  assert (Hpre : exists c, In c pre /\ standsIn word (content c)).
  { refine (fixedLoop_covers _ _ _ Ho _ _ _ _ _ _ E _ word Hw); [lia |].
    intros word' Hin. simpl in Hin. contradiction. }
  destruct Hpre as (c & Hc & Hocc).
  destruct (mergeSmallChunks_covers pre (minChunkSize options) word c Hc Hocc)
    as (c' & Hc' & Hocc').
  exists c'. split; [exact Hc' |].
  apply standsIn_split; [exact Hne | | exact Hocc'].
  pose proof (words_have_no_space text) as Hall.
  rewrite Forall_forall in Hall. exact (Hall word Hw).
Qed.

Lemma X3_witness :
  exists c,
    In c [ mkTextChunk $"a b c" 0 0 5; mkTextChunk $"c d e" 1 5 10;
           mkTextChunk $"e f g" 2 11 16; mkTextChunk $"g h" 3 17 20 ]
    /\ In $"f" (split reWhitespace (content c)).
Proof.
  apply (X3_fixed_chunker_covers_every_word eightWords threeByOne).
  - simpl. lia.
  - vm_compute. reflexivity.
  - vm_compute. auto 10.
  - discriminate.
Defined.

(** X4.  With an overlap larger than the chunk size, the fixed-size chunker
    stops after its first turn: it returns a single chunk that holds the
    first [chunkSize] words and starts at 0, and the rest of the text is in
    no chunk. *)
Theorem X4_fixed_chunker_stops_when_overlap_exceeds_size
        (text : jstring) (options : ChunkOptions) :
  0 <= chunkSize options < chunkOverlap options ->
  chunkByFixedSize text options
  = Some [ mkTextChunk
             (join $" " (firstn (Z.to_nat (chunkSize options))
                                (split reWhitespace text)))
             0 0
             (len (join $" " (firstn (Z.to_nat (chunkSize options))
                                     (split reWhitespace text)))) ].
Proof.
  intros Ho. unfold chunkByFixedSize, fixedFuel.
  set (words := split reWhitespace text).
  assert (Hw : 0 < len words).
  { unfold len. pose proof (splitBy_not_nil reWhitespace text None 0%nat []) as Hn.
    fold (split reWhitespace text) in Hn. fold words in Hn.
    destruct words; [congruence | simpl; lia]. }
  rewrite fixedLoop_unfold.
  destruct (Z.ltb_spec 0 (len words)) as [_ | Hc]; [| lia].
  assert (Hstop : fixedStops words (chunkSize options) (chunkOverlap options) 0 = true).
  { unfold fixedStops. apply orb_true_iff. left. apply Z.ltb_lt. lia. }
  rewrite Hstop. cbn [app mergeSmallChunks].
  unfold fixedChunkAt.
  assert (Hslice : slice words 0 (Z.min (0 + chunkSize options) (len words))
                   = firstn (Z.to_nat (chunkSize options)) words).
  { rewrite slice_prefix by lia.
    destruct (Z.le_gt_cases (chunkSize options) (len words)) as [Hle | Hgt].
    - rewrite Z.min_l by lia. reflexivity.
    - rewrite Z.min_r by lia. unfold len in *.
      rewrite !firstn_all2 by lia. reflexivity. }
  rewrite Hslice. reflexivity.
Qed.

Lemma X4_witness :
  chunkByFixedSize eightWords threeByFive = Some [ mkTextChunk $"a b c" 0 0 5 ].
Proof.
  apply (X4_fixed_chunker_stops_when_overlap_exceeds_size eightWords threeByFive).
  simpl. lia.
Defined.

(** ** The merge pass keeps the text *)

Lemma join_cons (sep p : jstring) (rest : list jstring) :
  rest <> [] -> join sep (p :: rest) = p ++ sep ++ join sep rest.
Proof. destruct rest; [congruence | reflexivity]. Qed.

Lemma mergeLoop_text (minSize : Z) (rest : list TextChunk) :
  forall current,
    join nlnl (map content (mergeLoop minSize current rest))
    = join nlnl (content current :: map content rest).
Proof.
  induction rest as [|next rest IH]; intros current; [reflexivity |].
  destruct (Z.lt_ge_cases (len (content current)) minSize) as [Hs | Hb].
  - rewrite mergeLoop_small by assumption. rewrite IH.
    unfold absorb. cbn [content map].
    rewrite (join_cons nlnl (content current)) by discriminate.
    destruct rest as [|c rest]; [reflexivity |].
    cbn [map]. rewrite !(join_cons nlnl _ (_ :: _)) by discriminate.
    rewrite <- !app_assoc. reflexivity.
  - rewrite mergeLoop_big by assumption.
    pose proof (mergeLoop_not_nil minSize rest next) as Hne.
    cbn [map].
    rewrite (join_cons nlnl (content current) (map content (mergeLoop minSize next rest))).
    + rewrite IH.
      rewrite (join_cons nlnl (content current) (content next :: map content rest))
        by discriminate.
      reflexivity.
    + destruct (mergeLoop minSize next rest); [congruence | discriminate].
Qed.

Lemma mergeLoop_span (minSize : Z) (rest : list TextChunk) :
  forall current,
    hd_error (map startChar (mergeLoop minSize current rest)) = Some (startChar current)
    /\ last (map endChar (mergeLoop minSize current rest)) 0
       = last (map endChar (current :: rest)) 0
    /\ (length (mergeLoop minSize current rest) <= S (length rest))%nat.
Proof.
  induction rest as [|next rest IH]; intros current.
  - simpl. auto.
  - destruct (Z.lt_ge_cases (len (content current)) minSize) as [Hs | Hb].
    + rewrite mergeLoop_small by assumption.
      destruct (IH (absorb current next)) as (Hst & He & Hl).
      split; [exact Hst |]. split; [| cbn [length]; lia].
      rewrite He. unfold absorb. cbn [map endChar]. destruct rest; reflexivity.
    + rewrite mergeLoop_big by assumption.
      destruct (IH next) as (Hst & He & Hl).
      split; [reflexivity |]. split; [| cbn [length]; lia].
      pose proof (mergeLoop_not_nil minSize rest next) as Hne.
      cbn [map]. destruct (mergeLoop minSize next rest) as [|c l] eqn:E; [congruence |].
      change (last (endChar current :: map endChar (c :: l)) 0)
        with (last (map endChar (c :: l)) 0).
      rewrite He. reflexivity.
Qed.

(** X5.  The merge pass loses no text and keeps the span: the contents of
    its output, joined by blank lines, are the contents of its input joined
    by blank lines; the output starts where the input starts and ends where
    it ends; and it has at most as many chunks. *)
Theorem X5_mergeSmallChunks_keeps_text (chunks : list TextChunk) (minSize : Z) :
  join nlnl (map content (mergeSmallChunks chunks minSize))
  = join nlnl (map content chunks)
  /\ hd_error (map startChar (mergeSmallChunks chunks minSize))
     = hd_error (map startChar chunks)
  /\ last (map endChar (mergeSmallChunks chunks minSize)) 0
     = last (map endChar chunks) 0
  /\ (length (mergeSmallChunks chunks minSize) <= length chunks)%nat.
Proof.
  destruct chunks as [|first rest]; [simpl; auto |].
  rewrite mergeSmallChunks_loop.
  destruct (mergeLoop_span minSize rest first) as (Hs & He & Hl).
  split; [apply mergeLoop_text |]. auto.
Qed.

Lemma mergeLoop_fixed (minSize : Z) (rest : list TextChunk) :
  forall current,
    Forall (fun c => minSize <= len (content c)) (removelast (current :: rest)) ->
    mergeLoop minSize current rest = current :: rest.
Proof.
  induction rest as [|next rest IH]; intros current H; [reflexivity |].
  change (removelast (current :: next :: rest))
    with (current :: removelast (next :: rest)) in H.
  inversion H as [|? ? Hc Hr]; subst.
  rewrite mergeLoop_big by assumption. rewrite IH by assumption. reflexivity.
Qed.

(** X6.  A chunk sequence in which every chunk but the last reaches the
    threshold is left as it is by the merge pass; so merging twice is
    merging once, and the merge pass changes nothing in what [chunkText]
    returns. *)
Theorem X6_mergeSmallChunks_idempotent (chunks : list TextChunk) (minSize : Z) :
  (Forall (fun c => minSize <= len (content c)) (removelast chunks) ->
   mergeSmallChunks chunks minSize = chunks)
  /\ mergeSmallChunks (mergeSmallChunks chunks minSize) minSize
     = mergeSmallChunks chunks minSize
  /\ (forall text options,
         chunkText text options = Some chunks ->
         mergeSmallChunks chunks (minChunkSize (effectiveOptions options)) = chunks).
Proof.
  assert (Hfix : forall l m,
             Forall (fun c => m <= len (content c)) (removelast l) ->
             mergeSmallChunks l m = l).
  { intros [|first rest] m H; [reflexivity |].
    rewrite mergeSmallChunks_loop. apply mergeLoop_fixed, H. }
  split; [apply Hfix |]. split.
  - apply Hfix, mergeSmallChunks_all_but_last.
  - intros text options H. apply chunkText_is_merged in H.
    destruct H as [pre ->]. apply Hfix, mergeSmallChunks_all_but_last.
Qed.

(** ** The semantic chunker *)

(** X7.  The embeddings do not affect what the semantic chunker returns: it
    asks for them and computes the boundaries, but packs the paragraphs by
    size alone. Two runs on the same text and options that both resolve give
    the same chunks, whatever the embedding functions and the state of the
    world. *)
Theorem X7_chunkBySemantic_ignores_embeddings
        (text : jstring) (options : ChunkOptions)
        (g1 g2 : jstring -> M (list float)) (w1 w2 : World)
        (out1 out2 : list TextChunk) (w1' w2' : World) :
  chunkBySemantic text options g1 w1 = (Ok out1, w1') ->
  chunkBySemantic text options g2 w2 = (Ok out2, w2') ->
  out1 = out2.
Proof.
  unfold chunkBySemantic.
  destruct (List.filter (fun p => truthy (trim p)) (split reBlankLines text))
    as [|p paragraphs].
  - destruct (chunkByFixedSize text options); intros H1 H2;
      inversion H1; inversion H2; subst; reflexivity.
  - unfold bind, ret.
    destruct (mapM (fun p0 => g1 (trim p0)) (p :: paragraphs) w1) as [[e1| |] w1''];
      destruct (mapM (fun p0 => g2 (trim p0)) (p :: paragraphs) w2) as [[e2| |] w2''];
      intros H1 H2; inversion H1; inversion H2; subst; reflexivity.
Qed.

Lemma X7_witness :
  resolved (chunkBySemantic sampleText semanticOptions sameEmbedding noDocuments)
  = resolved (chunkBySemantic sampleText semanticOptions byLengthEmbedding noDocuments).
Proof.
  apply (X7_chunkBySemantic_ignores_embeddings
           sampleText semanticOptions sameEmbedding byLengthEmbedding
           noDocuments noDocuments _ _ noDocuments noDocuments);
    vm_compute; reflexivity.
Defined.

(** ** Cosine similarity *)

Lemma float_mul_comm (x y : float) : (x * y = y * x)%float.
Proof.
  apply Prim2SF_inj. rewrite !mul_spec.
  destruct (Prim2SF x) as [sx|sx| |sx mx ex], (Prim2SF y) as [sy|sy| |sy my ey];
    unfold SF64mul, SpecFloat.SFmul; rewrite ?(xorb_comm sx sy); try reflexivity.
  rewrite (Pos.mul_comm mx my), (Z.add_comm ex ey). reflexivity.
Qed.

Lemma dotProduct_comm :
  forall (a b pa pb : list float) (acc : float),
    length a = length b ->
    length pa = length pb ->
    reduceFrom (fun sum val i => sum + val * at_ (pb ++ b) i)%float a (length pa) acc
    = reduceFrom (fun sum val i => sum + val * at_ (pa ++ a) i)%float b (length pa) acc.
Proof.
  induction a as [|x a IH]; intros [|y b] pa pb acc Hl Hp; try discriminate.
  - reflexivity.
  - cbn [reduceFrom].
    assert (Hy : at_ (pb ++ y :: b) (length pa) = y).
    { unfold at_. rewrite Hp, nth_middle. reflexivity. }
    assert (Hx : at_ (pa ++ x :: a) (length pa) = x).
    { unfold at_. rewrite nth_middle. reflexivity. }
    rewrite Hy, Hx, (float_mul_comm y x).
    specialize (IH b (pa ++ [x]) (pb ++ [y]) (acc + x * y)%float).
    rewrite !length_app, <- !app_assoc in IH. cbn [length app] in IH.
    rewrite Nat.add_1_r in IH. apply IH.
    + simpl in Hl. lia.
    + lia.
Qed.

(** X8.  The similarity is symmetric, bit for bit: the products are taken in
    the same order and only their factors are swapped. *)
Theorem X8_cosineSimilarity_symmetric (a b : list float) :
  cosineSimilarity a b = cosineSimilarity b a.
Proof.
  unfold cosineSimilarity.
  destruct (Nat.eqb_spec (length a) (length b)) as [Hl | Hl].
  - rewrite <- Hl, Nat.eqb_refl. cbn [negb].
    rewrite (orb_comm (magnitude a =? 0)%float).
    destruct ((magnitude b =? 0)%float || (magnitude a =? 0)%float); [reflexivity |].
    rewrite (float_mul_comm (magnitude a) (magnitude b)).
    f_equal. unfold reduce.
    exact (dotProduct_comm a b [] [] 0%float Hl eq_refl).
  - destruct (Nat.eqb_spec (length b) (length a)) as [Hl' | Hl']; [congruence |].
    reflexivity.
Qed.

(** ** The internal vector store: what a search can return *)

Lemma internalSearch_inv (q : list float) (k : Z) (filter : option Filter)
      (w : World) (results : list VectorSearchResult) (w' : World) :
  internalSearch q k filter w = (Ok results, w') ->
  w' = w
  /\ results
     = slice (sortBy byScoreDescending
                (map (scoreChunk q)
                     (take (k * 2) (filterMap (joinDocument w filter) (chunkRows w)))))
             0 k.
Proof.
  unfold internalSearch, bind, findManyChunks, ret.
  destruct filter as [[u [[id|ids]|]]|]; try discriminate;
    intros H; injection H as Hr Hw; subst; auto.
Qed.

Lemma joined_rows (w : World) (filter : option Filter) (n : Z)
      (c : ChunkRow) (d : DocumentRow) :
  In (c, d) (take n (filterMap (joinDocument w filter) (chunkRows w))) ->
  In c (chunkRows w)
  /\ findDocument w (row_documentId c) = Some d
  /\ matchesWhere filter d = true.
Proof.
  intros Hin. apply take_In in Hin. apply filterMap_In in Hin.
  destruct Hin as (c' & Hc' & Hj). unfold joinDocument in Hj.
  destruct (findDocument w (row_documentId c')) as [d'|] eqn:Ed; [| discriminate].
  destruct (matchesWhere filter d') eqn:Em; inversion Hj; subst. auto.
Qed.

(** X9.  A search with a user id in its filter leaves the store as it is and
    returns at most [topK] results (for a [topK] that is not negative);
    every result is a stored chunk whose document exists, is owned by that
    user and has the embedding status COMPLETED (and is the document asked
    for, when the filter names one); and it is one of the first [2 * topK]
    such chunks of the table, the only ones that are scored. *)
Theorem X9_search_stays_within_filter
        (q : list float) (k : Z) (u : string) (docFilter : option DocumentIdFilter)
        (w : World) (results : list VectorSearchResult) (w' : World) :
  internalSearch q k (Some (mkFilter (Some u) docFilter)) w = (Ok results, w') ->
  w' = w
  /\ (0 <= k -> len results <= k)
  /\ Forall (fun r =>
               exists c d,
                 In (c, d) (take (k * 2)
                                 (filterMap (joinDocument w (Some (mkFilter (Some u) docFilter)))
                                            (chunkRows w)))
                 /\ r = scoreChunk q (c, d)
                 /\ In c (chunkRows w)
                 /\ findDocument w (sr_documentId r) = Some d
                 /\ doc_userId d = u
                 /\ doc_embeddingStatus d = COMPLETED
                 /\ (forall id, docFilter = Some (IdIs id) -> id <> ""%string ->
                                doc_id d = id))
            results.
Proof.
  intros H. apply internalSearch_inv in H. destruct H as [-> ->].
  split; [reflexivity |]. split; [apply slice_length_le |].
  rewrite Forall_forall. intros r Hr.
  apply (Subseq_In _ _ (slice_Subseq _ _ _)) in Hr.
  apply sortBy_In in Hr. apply in_map_iff in Hr.
  destruct Hr as ([c d] & <- & Hin).
  exists c, d. split; [exact Hin |]. split; [reflexivity |].
  apply joined_rows in Hin. destruct Hin as (Hc & Hd & Hm).
  split; [exact Hc |]. split; [exact Hd |].
  unfold matchesWhere in Hm.
  apply andb_true_iff in Hm. destruct Hm as [Hm E3].
  apply andb_true_iff in Hm. destruct Hm as [E1 E2].
  apply String.eqb_eq in E2. split; [exact E2 |]. split.
  - destruct (doc_embeddingStatus d); try discriminate; reflexivity.
  - intros id Hid Hne. subst docFilter.
    destruct (String.eqb_spec id ""); [contradiction |].
    apply String.eqb_eq in E3. exact E3.
Qed.

Lemma X9_witness :
  after (internalSearch [1; 0]%float 5 (Some userFilter) malformedStore) = malformedStore.
Proof.
  refine (proj1 (X9_search_stays_within_filter
                   [1; 0]%float 5 "u1" None malformedStore
                   (match outcome (internalSearch [1; 0]%float 5 (Some userFilter)
                                                  malformedStore) with
                    | Ok l => l
                    | _ => []
                    end)
                   (after (internalSearch [1; 0]%float 5 (Some userFilter) malformedStore))
                   _)).
  vm_compute. reflexivity.
Defined.

(** ** The internal vector store: upsert, lookup and delete *)

Lemma lookupRow_upsertRow_same (r : VectorRecord) (rows : list ChunkRow) :
  exists row,
    lookupRow (vr_id r) (upsertRow r rows) = Some row
    /\ row_id row = vr_id r
    /\ row_content row = vr_content r
    /\ row_chunkIndex row = vr_chunkIndex r
    /\ (forall m, vr_metadata r = Some m -> row_metadata row = Some m).
Proof.
  unfold lookupRow. induction rows as [|c rows IH]; simpl.
  - rewrite String.eqb_refl. eexists. split; [reflexivity |]. simpl. auto.
  - destruct (String.eqb_spec (row_id c) (vr_id r)) as [He | Hne]; simpl.
    + rewrite He, String.eqb_refl. eexists. split; [reflexivity |]. simpl.
      repeat split; auto. intros m Hm. rewrite Hm. reflexivity.
    + destruct (String.eqb_spec (row_id c) (vr_id r)); [contradiction |]. exact IH.
Qed.

Lemma lookupRow_upsertRow_other (r : VectorRecord) (id : string)
      (rows : list ChunkRow) :
  vr_id r <> id ->
  lookupRow id (upsertRow r rows) = lookupRow id rows.
Proof.
  intros Hne. unfold lookupRow. induction rows as [|c rows IH]; simpl.
  - destruct (String.eqb_spec (vr_id r) id); [contradiction | reflexivity].
  - destruct (String.eqb_spec (row_id c) (vr_id r)) as [He | Hne']; simpl.
    + destruct (String.eqb_spec (row_id c) id); [congruence | reflexivity].
    + rewrite IH. reflexivity.
Qed.

Lemma upsertRow_length (r : VectorRecord) (rows : list ChunkRow) :
  length (upsertRow r rows)
  = match lookupRow (vr_id r) rows with
    | Some _ => length rows
    | None => S (length rows)
    end.
Proof.
  unfold lookupRow. induction rows as [|c rows IH]; simpl; [reflexivity |].
  destruct (String.eqb (row_id c) (vr_id r)); simpl; [reflexivity |].
  rewrite IH. destruct (find _ rows); reflexivity.
Qed.

Lemma internalUpsert_cons (r : VectorRecord) (records : list VectorRecord) (w : World) :
  internalUpsert (r :: records) w
  = internalUpsert records (setChunkRows w (upsertRow r (chunkRows w))).
Proof. reflexivity. Qed.

Lemma internalUpsert_lookup (records : list VectorRecord) :
  forall w w',
    internalUpsert records w = (Ok tt, w') ->
    documents w' = documents w
    /\ (length (chunkRows w) <= length (chunkRows w')
        <= length (chunkRows w) + length records)%nat
    /\ forall id,
        match lastRecord id records with
        | Some r =>
            exists row,
              lookupRow id (chunkRows w') = Some row
              /\ row_id row = id
              /\ row_content row = vr_content r
              /\ row_chunkIndex row = vr_chunkIndex r
              /\ (forall m, vr_metadata r = Some m -> row_metadata row = Some m)
        | None => lookupRow id (chunkRows w') = lookupRow id (chunkRows w)
        end.
Proof.
  induction records as [|r records IH]; intros w w' H.
  - inversion H; subst. split; [reflexivity |]. split; [simpl; lia |].
    intros id. reflexivity.
  - rewrite internalUpsert_cons in H. apply IH in H.
    destruct H as (Hd & Hl & Hrows). cbn [documents chunkRows setChunkRows] in *.
    split; [exact Hd |]. split.
    + rewrite upsertRow_length in Hl. cbn [length].
      destruct (lookupRow (vr_id r) (chunkRows w)); lia.
    + intros id. specialize (Hrows id). cbn [lastRecord].
      destruct (lastRecord id records) as [r'|]; [exact Hrows |].
      rewrite Hrows.
      destruct (String.eqb_spec (vr_id r) id) as [He | Hne].
      * subst id. apply lookupRow_upsertRow_same.
      * apply lookupRow_upsertRow_other, Hne.
Qed.

(** X10.  After an upsert that resolved, looking up an id gives a row with
    the content, the chunk index and the metadata (when it has some) of the
    last record that carries the id, and the row that was there before when
    no record carries it; the document table is untouched, and the chunk
    table has grown by at most one row per record. *)
Theorem X10_upsert_then_lookup (records : list VectorRecord) (w w' : World) :
  internalUpsert records w = (Ok tt, w') ->
  documents w' = documents w
  /\ (length (chunkRows w) <= length (chunkRows w')
      <= length (chunkRows w) + length records)%nat
  /\ forall id,
      match lastRecord id records with
      | Some r =>
          exists row,
            lookupRow id (chunkRows w') = Some row
            /\ row_id row = id
            /\ row_content row = vr_content r
            /\ row_chunkIndex row = vr_chunkIndex r
            /\ (forall m, vr_metadata r = Some m -> row_metadata row = Some m)
      | None => lookupRow id (chunkRows w') = lookupRow id (chunkRows w)
      end.
Proof. apply internalUpsert_lookup. Qed.

Lemma X10_witness :
  documents afterUpsert = documents emptyStore.
Proof.
  refine (proj1 (X10_upsert_then_lookup [recordS; recordR] emptyStore afterUpsert _)).
  vm_compute. reflexivity.
Defined.

Lemma lookupRow_None_filter (id : string) (rows : list ChunkRow) :
  lookupRow id (List.filter (fun c => negb (String.eqb (row_id c) id)) rows) = None.
Proof.
  unfold lookupRow. induction rows as [|c rows IH]; simpl; [reflexivity |].
  destruct (String.eqb (row_id c) id) eqn:E; simpl; [exact IH |].
  rewrite E. exact IH.
Qed.

Lemma lookupRow_other_filter (id id' : string) (rows : list ChunkRow) :
  id' <> id ->
  lookupRow id' (List.filter (fun c => negb (String.eqb (row_id c) id)) rows)
  = lookupRow id' rows.
Proof.
  intros Hne. unfold lookupRow. induction rows as [|c rows IH]; simpl; [reflexivity |].
  destruct (String.eqb_spec (row_id c) id) as [He | Hne']; simpl.
  - destruct (String.eqb_spec (row_id c) id'); [congruence | exact IH].
  - rewrite IH. reflexivity.
Qed.

Lemma lookupRow_existsb (id : string) (rows : list ChunkRow) :
  existsb (fun c => String.eqb (row_id c) id) rows
  = match lookupRow id rows with Some _ => true | None => false end.
Proof.
  unfold lookupRow. induction rows as [|c rows IH]; simpl; [reflexivity |].
  destruct (String.eqb (row_id c) id); [reflexivity | exact IH].
Qed.

Lemma filter_upsertRow_new (r : VectorRecord) (rows : list ChunkRow) :
  lookupRow (vr_id r) rows = None ->
  List.filter (fun c => negb (String.eqb (row_id c) (vr_id r))) (upsertRow r rows)
  = rows.
Proof.
  unfold lookupRow. induction rows as [|c rows IH]; simpl.
  - rewrite String.eqb_refl. reflexivity.
  - destruct (String.eqb (row_id c) (vr_id r)) eqn:E; [discriminate |].
    intros H. simpl. rewrite E. simpl. rewrite IH by assumption. reflexivity.
Qed.

(** X11.  Deleting a chunk id that is not stored rejects and changes
    nothing. Deleting a stored id resolves, after which the id is not found,
    every other id is found as before and the document table is untouched.
    Upserting a record with a new id and then deleting that id gives back
    the store as it was. *)
Theorem X11_deleteChunk_after_upsert (id : string) (w : World) :
  (lookupRow id (chunkRows w) = None ->
   exists message, internalDeleteChunk id w = (Throw message, w))
  /\ (lookupRow id (chunkRows w) <> None ->
      exists w',
        internalDeleteChunk id w = (Ok tt, w')
        /\ lookupRow id (chunkRows w') = None
        /\ (forall id', id' <> id ->
                        lookupRow id' (chunkRows w') = lookupRow id' (chunkRows w))
        /\ documents w' = documents w)
  /\ (forall r, vr_id r = id ->
                lookupRow id (chunkRows w) = None ->
                (internalUpsert [r] ;;; internalDeleteChunk id) w = (Ok tt, w)).
Proof.
  split; [| split].
  - intros H. unfold internalDeleteChunk. rewrite lookupRow_existsb, H. eauto.
  - intros H. unfold internalDeleteChunk. rewrite lookupRow_existsb.
    destruct (lookupRow id (chunkRows w)); [| congruence].
    eexists. split; [reflexivity |]. cbn [chunkRows documents setChunkRows].
    split; [apply lookupRow_None_filter |].
    split; [| reflexivity].
    intros id' Hne. apply lookupRow_other_filter, Hne.
  - intros r <- H.
    assert (H1 : internalUpsert [r] w
                 = (Ok tt, setChunkRows w (upsertRow r (chunkRows w))))
      by reflexivity.
    rewrite (bind_Ok _ _ _ _ _ H1). unfold internalDeleteChunk.
    cbn [chunkRows setChunkRows].
    rewrite lookupRow_existsb.
    destruct (lookupRow_upsertRow_same r (chunkRows w)) as (row & -> & _).
    rewrite filter_upsertRow_new by assumption.
    destruct w; reflexivity.
Qed.

Lemma findDocument_filter_None (id : string) (w : World) :
  find (fun d => String.eqb (doc_id d) id)
       (List.filter (fun d => negb (String.eqb (doc_id d) id)) (documents w)) = None.
Proof.
  induction (documents w) as [|d ds IH]; simpl; [reflexivity |].
  destruct (String.eqb (doc_id d) id) eqn:E; simpl; [exact IH |].
  rewrite E. exact IH.
Qed.

(** X12.  With the internal store, [deleteDocument] leaves in the chunk
    table exactly the chunks of the other documents, whether it resolves or
    not. It rejects when the document does not exist (the chunks are gone by
    then, the document table is as it was) and resolves when it does, after
    which the document is not found. In both cases a later search returns no
    chunk of that document. *)
Theorem X12_deleteDocument_removes_chunks (dimension : Z) (id : string) (w : World) :
  chunkRows (after (deleteDocument (InternalVectorStore dimension) id w))
  = List.filter (fun c => negb (String.eqb (row_documentId c) id)) (chunkRows w)
  /\ (findDocument w id = None ->
      (exists message,
          outcome (deleteDocument (InternalVectorStore dimension) id w) = Throw message)
      /\ documents (after (deleteDocument (InternalVectorStore dimension) id w))
         = documents w)
  /\ (findDocument w id <> None ->
      outcome (deleteDocument (InternalVectorStore dimension) id w) = Ok tt
      /\ findDocument (after (deleteDocument (InternalVectorStore dimension) id w)) id
         = None)
  /\ (forall q k filter results w',
         internalSearch q k filter
                        (after (deleteDocument (InternalVectorStore dimension) id w))
         = (Ok results, w') ->
         Forall (fun r => sr_documentId r <> id) results).
Proof.
  assert (Hrows :
            chunkRows (after (deleteDocument (InternalVectorStore dimension) id w))
            = List.filter (fun c => negb (String.eqb (row_documentId c) id))
                          (chunkRows w)).
  { unfold deleteDocument, after, bind, chunkDeleteMany, documentDelete.
    cbn [delete InternalVectorStore chunkDeleteMany chunkRows setChunkRows].
    unfold findDocument. cbn [documents setChunkRows].
    assert (Hf : forall l : list ChunkRow,
               List.filter (fun c => negb (String.eqb (row_documentId c) id))
                           (List.filter (fun c => negb (String.eqb (row_documentId c) id)) l)
               = List.filter (fun c => negb (String.eqb (row_documentId c) id)) l).
    { induction l as [|c l IH]; simpl; [reflexivity |].
      destruct (negb (String.eqb (row_documentId c) id)) eqn:E; simpl;
        [rewrite E, IH; reflexivity | exact IH]. }
    destruct (find _ (documents w)); cbn [snd chunkRows setDocuments setChunkRows];
      apply Hf. }
  split; [exact Hrows |]. split; [| split].
  - intros Hd. unfold deleteDocument, outcome, after, bind, chunkDeleteMany,
      documentDelete.
    cbn [delete InternalVectorStore]. unfold chunkDeleteMany, findDocument in *.
    cbn [documents setChunkRows]. rewrite Hd. cbn [fst snd documents setChunkRows].
    eauto.
  - intros Hd. unfold deleteDocument, outcome, after, bind, chunkDeleteMany,
      documentDelete.
    cbn [delete InternalVectorStore]. unfold chunkDeleteMany, findDocument in *.
    cbn [documents setChunkRows].
    destruct (find _ (documents w)); [| congruence].
    cbn [fst snd documents setDocuments]. split; [reflexivity |].
    apply findDocument_filter_None.
  - intros q k filter results w' H. apply internalSearch_inv in H.
    destruct H as [_ ->]. rewrite Forall_forall. intros r Hr.
    apply (Subseq_In _ _ (slice_Subseq _ _ _)) in Hr.
    apply sortBy_In in Hr. apply in_map_iff in Hr.
    destruct Hr as ([c d] & <- & Hin).
    apply joined_rows in Hin. destruct Hin as (Hc & _ & _).
    rewrite Hrows in Hc. apply filter_In in Hc. destruct Hc as [_ Hc].
    cbn [scoreChunk sr_documentId fst].
    destruct (String.eqb_spec (row_documentId c) id); [discriminate | assumption].
Qed.

(** ** Retriever.getDocumentContext *)

Lemma totalLength_app (a b : list jstring) :
  totalLength (a ++ b) = (totalLength a + totalLength b)%nat.
Proof. induction a as [|x a IH]; simpl; [reflexivity | rewrite IH; lia]. Qed.

Lemma collectWithin_budget (limit : Z) (results : list VectorSearchResult) :
  forall st,
    snd st = Z.of_nat (totalLength (fst st)) ->
    snd st <= Z.max 0 limit ->
    snd (collectWithin limit results st)
    = Z.of_nat (totalLength (fst (collectWithin limit results st)))
    /\ snd (collectWithin limit results st) <= Z.max 0 limit
    /\ exists added,
        fst (collectWithin limit results st) = fst st ++ added
        /\ Subseq added (map sr_content results).
Proof.
  induction results as [|result rest IH]; intros st Hs Hb; cbn [collectWithin].
  - split; [exact Hs |]. split; [exact Hb |].
    exists []. rewrite app_nil_r. split; [reflexivity | constructor].
  - destruct (Z.ltb_spec limit (snd st + len (sr_content result))) as [Hover | Hfit].
    + split; [exact Hs |]. split; [exact Hb |].
      exists []. rewrite app_nil_r. split; [reflexivity |].
      apply Subseq_nil_l.
    + destruct (IH (fst st ++ [sr_content result], snd st + len (sr_content result)))
        as (Hs' & Hb' & added & Ha & Hsub).
      * cbn [fst snd]. rewrite totalLength_app. simpl. unfold len. lia.
      * cbn [fst snd]. lia.
      * split; [exact Hs' |]. split; [exact Hb' |].
        exists (sr_content result :: added). cbn [fst] in Ha.
        rewrite Ha, <- app_assoc. split; [reflexivity |].
        cbn [map]. constructor. exact Hsub.
Qed.

Lemma documentContextLoop_budget (self : Retriever) (maxTokens : Z)
      (documentIds : list string) :
  forall st w st' w',
    documentContextLoop self maxTokens documentIds st w = (Ok st', w') ->
    snd st = Z.of_nat (totalLength (fst st)) ->
    snd st <= Z.max 0 (maxTokens * 4) ->
    snd st' = Z.of_nat (totalLength (fst st'))
    /\ snd st' <= Z.max 0 (maxTokens * 4).
Proof.
  induction documentIds as [|docId rest IH]; intros st w st' w' H Hs Hb.
  - inversion H; subst. auto.
  - cbn [documentContextLoop] in H. unfold bind in H.
    destruct (zeroVector (embeddingDimension (config self)) w) as [[q| |] w1];
      try discriminate.
    destruct (search (vectorStore self) q 10 _ w1) as [[results| |] w2];
      try discriminate.
    destruct (collectWithin_budget (maxTokens * 4) results st Hs Hb)
      as (Hs' & Hb' & _).
    exact (IH _ _ _ _ H Hs' Hb').
Qed.

Lemma collectWithin_prefix (limit : Z) (results : list VectorSearchResult) :
  forall st,
  exists kept,
    collectWithin limit results st
    = (fst st ++ kept, snd st + Z.of_nat (totalLength kept))
    /\ firstContents kept results
    /\ forall c, nth_error (map sr_content results) (length kept) = Some c ->
                 limit < snd st + Z.of_nat (totalLength kept) + len c.
Proof.
  unfold firstContents.
  induction results as [|result rest IH]; intros st; cbn [collectWithin].
  - exists []. cbn. rewrite app_nil_r, Z.add_0_r. split; [destruct st; reflexivity |].
    split; [reflexivity | discriminate].
  - destruct (Z.ltb_spec limit (snd st + len (sr_content result))) as [Hover | Hfit].
    + exists []. cbn. rewrite app_nil_r, Z.add_0_r.
      split; [destruct st; reflexivity |]. split; [reflexivity |].
      intros c Hc. inversion Hc; subst. lia.
    + destruct (IH (fst st ++ [sr_content result], snd st + len (sr_content result)))
        as (kept & Heq & Hpre & Hnext).
      exists (sr_content result :: kept). cbn [fst snd] in *.
      split; [| split].
      * rewrite Heq. rewrite <- app_assoc. cbn [totalLength app]. unfold len.
        f_equal. lia.
      * cbn [length map firstn]. f_equal. exact Hpre.
      * intros c Hc. cbn [length map nth_error] in Hc.
        specialize (Hnext c Hc). cbn [totalLength]. unfold len in *. lia.
Qed.

Lemma concat_firstn_cons {A} (k : nat) (x : list A) (l : list (list A)) :
  concat (firstn (S k) (x :: l)) = x ++ concat (firstn k l).
Proof. reflexivity. Qed.

Lemma documentContextLoop_inv (self : Retriever) (maxTokens : Z)
      (documentIds : list string) :
  forall st w st' w',
    documentContextLoop self maxTokens documentIds st w = (Ok st', w') ->
    exists answers taken,
      Answered self documentIds w answers w'
      /\ Forall2 firstContents taken answers
      /\ st' = (fst st ++ concat taken,
                snd st + Z.of_nat (totalLength (concat taken)))
      /\ forall k results kept c,
          nth_error answers k = Some results ->
          nth_error taken k = Some kept ->
          nth_error (map sr_content results) (length kept) = Some c ->
          maxTokens * 4
          < snd st + Z.of_nat (totalLength (concat (firstn (S k) taken))) + len c.
Proof.
  induction documentIds as [|docId rest IH]; intros st w st' w' H.
  - inversion H; subst. exists [], []. cbn. rewrite app_nil_r, Z.add_0_r.
    split; [constructor |]. split; [constructor |].
    split; [destruct st'; reflexivity |].
    intros [|k] ? ? ? Hk; discriminate.
  - cbn [documentContextLoop] in H. unfold bind in H.
    destruct (zeroVector (embeddingDimension (config self)) w) as [[q| |] w1] eqn:Ez;
      try discriminate.
    destruct (search (vectorStore self) q 10 _ w1) as [[results| |] w2] eqn:Es;
      try discriminate.
    destruct (collectWithin_prefix (maxTokens * 4) results st)
      as (kept & Heq & Hpre & Hnext).
    rewrite Heq in H.
    destruct (IH _ _ _ _ H) as (answers & taken & Hans & Hall & Hst & Hmax).
    cbn [fst snd] in *.
    exists (results :: answers), (kept :: taken).
    split; [econstructor; eassumption |].
    split; [constructor; assumption |].
    split.
    + rewrite Hst. cbn [concat]. rewrite <- app_assoc, totalLength_app.
      f_equal. lia.
    + intros [|k] results' kept' c Ha Ht Hc; cbn [nth_error] in Ha, Ht.
      * inversion Ha; inversion Ht; subst.
        cbn [firstn concat]. rewrite app_nil_r. exact (Hnext c Hc).
      * specialize (Hmax k results' kept' c Ha Ht Hc).
        rewrite concat_firstn_cons, totalLength_app. lia.
Qed.

(** X13.  A [getDocumentContext] call that resolves has searched the store
    once for each document id, in order; its text joins, with the
    separator, the contents of the first results of each answer, answer
    after answer.  The contents taken have together at most
    [4 * maxTokens] characters (none is taken for a budget that is not
    positive; the separators are not counted), and an answer is left at
    the first result whose content would exceed the budget. *)
Theorem X13_getDocumentContext_within_budget
        (self : Retriever) (documentIds : list string) (maxTokens : option Z)
        (w : World) (text : jstring) (w' : World) :
  getDocumentContext self documentIds maxTokens w = (Ok text, w') ->
  exists answers taken,
    Answered self documentIds w answers w'
    /\ Forall2 firstContents taken answers
    /\ text = join contextSeparator (concat taken)
    /\ Z.of_nat (totalLength (concat taken))
       <= Z.max 0 (4 * orElse maxTokens (maxContextTokens (config self)))
    /\ forall k results kept c,
        nth_error answers k = Some results ->
        nth_error taken k = Some kept ->
        nth_error (map sr_content results) (length kept) = Some c ->
        4 * orElse maxTokens (maxContextTokens (config self))
        < Z.of_nat (totalLength (concat (firstn (S k) taken))) + len c.
Proof.
  unfold getDocumentContext, bind, ret. intros H.
  destruct (documentContextLoop self _ documentIds ([], 0) w) as [[st| |] w1] eqn:E;
    try discriminate.
  inversion H; subst; clear H.
  destruct (documentContextLoop_inv _ _ _ _ _ _ _ E)
    as (answers & taken & Hans & Hall & Hst & Hmax).
  destruct (documentContextLoop_budget _ _ _ _ _ _ _ E) as [Hs Hb];
    [reflexivity | cbn [snd]; lia |].
  subst st. cbn [fst snd app] in *.
  exists answers, taken.
  split; [exact Hans |]. split; [exact Hall |]. split; [reflexivity |].
  split; [lia |].
  intros k results kept c Ha Ht Hc.
  specialize (Hmax k results kept c Ha Ht Hc). lia.
Qed.

Lemma X13_witness :
  exists answers taken,
    Answered twoChunkRetriever ["d1"%string] noDocuments answers noDocuments
    /\ Forall2 firstContents taken answers
    /\ $"alpha" = join contextSeparator (concat taken)
    /\ Z.of_nat (totalLength (concat taken)) <= Z.max 0 (4 * 2)
    /\ forall k results kept c,
        nth_error answers k = Some results ->
        nth_error taken k = Some kept ->
        nth_error (map sr_content results) (length kept) = Some c ->
        4 * 2 < Z.of_nat (totalLength (concat (firstn (S k) taken))) + len c.
Proof.
  apply (X13_getDocumentContext_within_budget
           twoChunkRetriever ["d1"%string] (Some 2) noDocuments $"alpha" noDocuments).
  vm_compute. reflexivity.
Defined.

(** ** QueryBuilder *)







Lemma dropWhile_head {A} (p : A -> bool) (l : list A) :
  match dropWhile p l with [] => True | x :: _ => p x = false end.
Proof.
  induction l as [|x l IH]; simpl; [exact I |].
  destruct (p x) eqn:E; [exact IH | exact E].
Qed.

Lemma dropWhile_suffix {A} (p : A -> bool) (l : list A) :
  exists pre, l = pre ++ dropWhile p l.
Proof.
  induction l as [|x l IH]; simpl; [exists []; reflexivity |].
  destruct (p x).
  - destruct IH as [pre Hpre]. exists (x :: pre). simpl. congruence.
  - exists []. reflexivity.
Qed.

Lemma dropWhile_fixed {A} (p : A -> bool) (l : list A) :
  match l with [] => True | x :: _ => p x = false end ->
  dropWhile p l = l.
Proof. destruct l as [|x l]; simpl; [reflexivity |]. intros ->. reflexivity. Qed.

Lemma dropWhile_In {A} (p : A -> bool) (l : list A) (x : A) :
  In x (dropWhile p l) -> In x l.
Proof.
  destruct (dropWhile_suffix p l) as [pre Hpre]. intros H.
  rewrite Hpre. apply in_or_app. right. exact H.
Qed.

Lemma trim_In (s : jstring) (c : ascii) : In c (trim s) -> In c s.
Proof.
  unfold trim. intros H. apply in_rev in H. apply dropWhile_In in H.
  apply in_rev in H. apply dropWhile_In in H. exact H.
Qed.

(** A trimmed string is left as it is by [trim]. *)
Lemma trim_trim (s : jstring) : trim (trim s) = trim s.
Proof.
  unfold trim.
  set (a := dropWhile isWhiteSpace s).
  set (b := dropWhile isWhiteSpace (rev a)).
  assert (Hb : dropWhile isWhiteSpace b = b)
    by (apply dropWhile_fixed, dropWhile_head).
  assert (Hrb : dropWhile isWhiteSpace (rev b) = rev b).
  { apply dropWhile_fixed.
    destruct (dropWhile_suffix isWhiteSpace (rev a)) as [pre Hpre]. fold b in Hpre.
    assert (Ha : a = rev b ++ rev pre)
      by (rewrite <- rev_app_distr, <- Hpre, rev_involutive; reflexivity).
    pose proof (dropWhile_head isWhiteSpace s) as Hh. fold a in Hh.
    destruct (rev b) as [|x r]; [exact I |].
    rewrite Ha in Hh. exact Hh. }
  rewrite Hrb, rev_involutive, Hb. reflexivity.
Qed.

Lemma stripNumbering_In (s : jstring) (c : ascii) :
  In c (stripNumbering s) -> In c s.
Proof.
  unfold stripNumbering.
  destruct (takeWhile isDigit s) as [|d ds]; [auto |].
  destruct (dropWhile isDigit s) as [|x rest] eqn:E; [auto |].
  destruct (ascii_is x "."%char || ascii_is x ")"%char); [| auto].
  intros H. apply dropWhile_In in H.
  apply (dropWhile_In isDigit). rewrite E. right. exact H.
Qed.

Lemma lines_have_no_line_feed (s : jstring) :
  Forall (Forall (fun c => isLineFeed c = false)) (split reLineFeed s).
Proof.
  apply splitBy_pieces; [| constructor].
  intros prev c rest H. unfold reLineFeed in H.
  destruct (isLineFeed c); [discriminate | reflexivity].
Qed.

(** X15.  [decomposeQuery] calls the language model once, with the
    decomposition prompt, and resolves in the world that call leaves. Every
    sub-question it returns is longer than ten characters, has no white
    space at either end and contains no line feed. *)
Theorem X15_decomposeQuery_subquestions
        (q : jstring) (generate : jstring -> M jstring)
        (w : World) (subquestions : list jstring) (w' : World) :
  decomposeQuery q generate w = (Ok subquestions, w') ->
  (exists response, generate (decomposePrompt q) w = (Ok response, w'))
  /\ Forall (fun s => 10 < len s /\ trim s = s /\ ~ In LF s) subquestions.
Proof.
  unfold decomposeQuery, bind, ret. intros H.
  destruct (generate (decomposePrompt q) w) as [[response| |] w1]; try discriminate.
  inversion H; subst; clear H. split; [eauto |].
  rewrite Forall_forall. intros s Hs.
  apply filter_In in Hs. destruct Hs as [Hs Hlen].
  apply in_map_iff in Hs. destruct Hs as (line & <- & Hline).
  split; [apply Z.ltb_lt, Hlen |]. split; [apply trim_trim |].
  intros Hc. apply trim_In, stripNumbering_In in Hc.
  pose proof (lines_have_no_line_feed response) as Hl.
  rewrite Forall_forall in Hl. specialize (Hl line Hline).
  rewrite Forall_forall in Hl. specialize (Hl LF Hc).
  vm_compute in Hl. discriminate.
Qed.

Lemma X15_witness :
  Forall (fun s => 10 < len s /\ trim s = s /\ ~ In LF s)
         [ $"What is a vector store?"; $"How are chunks embedded?" ].
Proof.
  refine (proj2 (X15_decomposeQuery_subquestions
                   $"How does retrieval work?" cannedAnswer noDocuments
                   [ $"What is a vector store?"; $"How are chunks embedded?" ]
                   noDocuments _)).
  vm_compute. reflexivity.
Defined.

(** ** Queries with retrieval switched off *)

(** X16.  With [useRag: false], [query] makes no embedding request and no
    search: after the query transform it only reads the clock twice. It
    resolves with no citation and an empty context, and the prompt tells the
    model that no relevant context was found. *)
Theorem X16_query_without_rag
        (self : Retriever) (options : QueryOptions) (w : World)
        (transformed : jstring) (w1 : World) :
  useRag (base options) = Some false ->
  transform options w = (Ok transformed, w1) ->
  exists r,
    pipelineQuery self options w
    = (Ok r, mkWorld (documents w1) (chunkRows w1) (requests w1) (uuids w1)
                     (clock w1) (S (S (ticks w1))))
    /\ transformedQuery r = transformed
    /\ citations (ragContext r) = []
    /\ context (ragContext r) = []
    /\ chunksUsed (ragContext r) = 0
    /\ totalTokens (ragContext r) = ceilQuarter (len transformed)
    /\ exists systemPrompt instructions,
        prompt (ragContext r)
        = systemPrompt ++ nlnl ++ $"Context from user's data:" ++ nl
          ++ $"No relevant context found." ++ nlnl ++ instructions ++ nlnl
          ++ $"If the context doesn't contain enough information to answer the question, please say so.".
Proof.
  intros Hrag Ht. unfold pipelineQuery.
  rewrite (bind_Ok _ _ _ _ _ Ht).
  unfold retrieve, bind, dateNow, ret. cbn [useRag withQuery]. rewrite Hrag.
  cbn [orElse negb clock ticks documents chunkRows requests uuids].
  eexists. split; [reflexivity |].
  cbn [transformedQuery ragContext].
  unfold buildRagPrompt, buildContext.
  cbn [rr_chunks rr_query mapi join map len length truthy citations context
       chunksUsed totalTokens prompt executionTime query withQuery].
  repeat split. eauto.
Qed.

Lemma X16_witness :
  exists r,
    outcome (pipelineQuery sampleRetriever withoutRag noDocuments) = Ok r
    /\ citations (ragContext r) = [].
Proof.
  destruct (X16_query_without_rag sampleRetriever withoutRag noDocuments
              (expandQuery $"question" 5) noDocuments eq_refl eq_refl)
    as (r & Hq & _ & Hc & _).
  exists r. rewrite Hq. split; [reflexivity | exact Hc].
Defined.

(** ** calculateChunkQuality *)

Lemma calculateChunkQuality_from (text : jstring) :
  exists b1 b2,
    calculateChunkQuality text
    = qualityFrom (if (200 <=? len text) && (len text <=? 1000) then (50 + 20)%float
                   else if 1000 <? len text then (50 + 10)%float
                        else (50 + Z2float (len text) / 50)%float)
                  b1 b2.
Proof.
  unfold calculateChunkQuality, qualityFrom.
  exists (existsb (ascii_is "."%char) text && existsb (ascii_is " "%char) text).
  exists (2 <=? len (List.filter (fun s => 10 <? len (trim s))
                                 (split reSentenceEnds text))).
  reflexivity.
Qed.

Lemma shortQualities : shortQualitiesInRange = true.
Proof. vm_compute. reflexivity. Qed.

(** X17.  The quality score of a chunk is a number between 50 and 100,
    whatever the content. *)
Theorem X17_calculateChunkQuality_range (text : jstring) :
  (50 <=? calculateChunkQuality text)%float = true
  /\ (calculateChunkQuality text <=? 100)%float = true.
Proof.
  apply andb_true_iff. change (inQualityRange (calculateChunkQuality text) = true).
  destruct (calculateChunkQuality_from text) as (b1 & b2 & ->).
  destruct ((200 <=? len text) && (len text <=? 1000)) eqn:Emid.
  - destruct b1, b2; vm_compute; reflexivity.
  - destruct (Z.ltb_spec 1000 (len text)) as [Hlong | Hshort].
    + destruct b1, b2; vm_compute; reflexivity.
    + assert (Hlt : (length text < 200)%nat).
      { apply andb_false_iff in Emid. unfold len in *.
        destruct Emid as [E | E]; [apply Z.leb_gt in E | apply Z.leb_gt in E]; lia. }
      pose proof shortQualities as Hall. unfold shortQualitiesInRange in Hall.
      rewrite forallb_forall in Hall.
      specialize (Hall (length text)).
      rewrite in_seq in Hall. specialize (Hall ltac:(lia)).
      rewrite forallb_forall in Hall. specialize (Hall b1).
      assert (Hb : forall b : bool, In b [true; false])
        by (intros []; simpl; auto).
      specialize (Hall (Hb b1)).
      rewrite forallb_forall in Hall. exact (Hall b2 (Hb b2)).
Qed.

(** ** truncateContext and estimateTokens *)

(** X18.  For a budget that is not negative, the truncated context has at
    most [4 * maxTokens + 3] characters, so its token estimate is at most
    [maxTokens + 1]; it is a prefix of the context, or such a prefix
    followed by an ellipsis; and a context within the budget is returned as
    it is. *)
Theorem X18_truncateContext_bounded (text : jstring) (maxTokens : Z) :
  0 <= maxTokens ->
  len (truncateContext text maxTokens) <= 4 * maxTokens + 3
  /\ (forall w, exists n,
         estimateTokens (truncateContext text maxTokens) w = (Ok n, w)
         /\ n <= maxTokens + 1)
  /\ (exists n, truncateContext text maxTokens = firstn n text
                \/ truncateContext text maxTokens = firstn n text ++ $"...")
  /\ (len text <= 4 * maxTokens -> truncateContext text maxTokens = text).
Proof.
  intros Hm.
  assert (Hlen : len (truncateContext text maxTokens) <= 4 * maxTokens + 3
                 /\ (exists n, truncateContext text maxTokens = firstn n text
                               \/ truncateContext text maxTokens = firstn n text ++ $"...")
                 /\ (len text <= 4 * maxTokens -> truncateContext text maxTokens = text)).
  { unfold truncateContext.
    destruct (Z.leb_spec (len text) (maxTokens * 4)) as [Hfit | Hover].
    - split; [lia |]. split; [| reflexivity].
      exists (length text). left. rewrite firstn_all. reflexivity.
    - rewrite (slice_prefix text (maxTokens * 4)) by lia.
      set (truncated := firstn (Z.to_nat (maxTokens * 4)) text).
      assert (Ht : len truncated <= maxTokens * 4).
      { unfold truncated, len. rewrite length_firstn. lia. }
      destruct (aboveFourFifths _ (maxTokens * 4)).
      + rewrite cutoff_spec.
        assert (Hc : -1 <= position (lastWhere isBoundary truncated))
          by (destruct (lastWhere isBoundary truncated); simpl; lia).
        rewrite slice_prefix by lia.
        split; [| split; [| lia]].
        * unfold len in *. rewrite length_firstn. lia.
        * eexists. left. unfold truncated. rewrite firstn_firstn. reflexivity.
      + split; [| split; [| lia]].
        * rewrite len_app. change (len $"...") with 3. lia.
        * eexists. right. reflexivity. }
  destruct Hlen as (Hl & Hp & Hf).
  split; [exact Hl |]. split; [| split; assumption].
  intros w. eexists. split; [reflexivity |].
  unfold ceilQuarter.
  assert ((len (truncateContext text maxTokens) + 3) / 4 < maxTokens + 2)
    by (apply Z.div_lt_upper_bound; lia).
  lia.
Qed.

Lemma X18_witness :
  len (truncateContext twoSentences 3) <= 4 * 3 + 3.
Proof.
  refine (proj1 (X18_truncateContext_bounded twoSentences 3 _)). lia.
Defined.

(** ** CSVParser.parseCSVLine *)

Lemma parseCSVLoop_bare (value rest : jstring) (result : list jstring)
      (current : jstring) :
  ~ In quoteChar value -> ~ In ","%char value ->
  parseCSVLoop (value ++ rest) result current false
  = parseCSVLoop rest result (current ++ value) false.
Proof.
  revert current. induction value as [|c value IH]; intros current Hq Hc.
  - rewrite app_nil_r. reflexivity.
  - cbn [app parseCSVLoop]. unfold ascii_is.
    destruct (Ascii.eqb_spec c quoteChar) as [-> | _]; [exfalso; apply Hq; left; reflexivity |].
    destruct (Ascii.eqb_spec c ","%char) as [-> | _]; [exfalso; apply Hc; left; reflexivity |].
    cbn [andb]. rewrite IH.
    + rewrite <- app_assoc. reflexivity.
    + intros H. apply Hq. right. exact H.
    + intros H. apply Hc. right. exact H.
Qed.

Lemma parseCSVLoop_inside (value rest : jstring) (result : list jstring)
      (current : jstring) :
  ~ In quoteChar value ->
  parseCSVLoop (value ++ quoteChar :: rest) result current true
  = parseCSVLoop rest result (current ++ value) false.
Proof.
  revert current. induction value as [|c value IH]; intros current Hq.
  - rewrite app_nil_r. cbn [app parseCSVLoop]. unfold ascii_is.
    rewrite Ascii.eqb_refl. reflexivity.
  - cbn [app parseCSVLoop]. unfold ascii_is.
    destruct (Ascii.eqb_spec c quoteChar) as [-> | _]; [exfalso; apply Hq; left; reflexivity |].
    cbn [negb andb]. rewrite andb_false_r. rewrite IH.
    + rewrite <- app_assoc. reflexivity.
    + intros H. apply Hq. right. exact H.
Qed.

Lemma parseCSVLoop_field (f : CsvField) (rest : jstring) (result : list jstring) :
  wellFormed f ->
  parseCSVLoop (written f ++ rest) result [] false
  = parseCSVLoop rest result (valueOf f) false.
Proof.
  destruct f as [value | value]; cbn [written valueOf wellFormed].
  - intros [Hq Hc]. apply (parseCSVLoop_bare value rest result [] Hq Hc).
  - intros Hq. rewrite <- !app_assoc. cbn [app parseCSVLoop]. unfold ascii_is.
    rewrite Ascii.eqb_refl. cbn [negb].
    apply (parseCSVLoop_inside value rest result [] Hq).
Qed.

Lemma parseCSVLoop_fields (fields : list CsvField) :
  forall f result,
    Forall wellFormed (f :: fields) ->
    parseCSVLoop (join $"," (map written (f :: fields))) result [] false
    = result ++ map (fun x => trim (valueOf x)) (f :: fields).
Proof.
  induction fields as [|g fields IH]; intros f result Hwf;
    inversion Hwf as [|? ? Hf Hrest]; subst.
  - cbn [map join].
    rewrite <- (app_nil_r (written f)), parseCSVLoop_field by assumption.
    reflexivity.
  - change (join $"," (map written (f :: g :: fields)))
      with (written f ++ $"," ++ join $"," (map written (g :: fields))).
    rewrite parseCSVLoop_field by assumption.
    change ($"," ++ join $"," (map written (g :: fields)))
      with (","%char :: join $"," (map written (g :: fields))).
    cbn [parseCSVLoop]. change (ascii_is ","%char quoteChar) with false.
    change (ascii_is ","%char ","%char && negb false) with true. cbv iota.
    rewrite IH by assumption. rewrite <- app_assoc. reflexivity.
Qed.

(** X19.  Reading back a CSV line gives the fields that were written. When a
    line is made of at least one field, each written bare (with no quote and
    no comma in it) or between double quotes (with no quote in it, commas
    allowed), joined by commas, [parseCSVLine] returns the values of the
    fields, trimmed, in order. *)
Theorem X19_parseCSVLine_reads_back (fields : list CsvField) :
  fields <> [] ->
  Forall wellFormed fields ->
  parseCSVLine (join $"," (map written fields))
  = map (fun f => trim (valueOf f)) fields.
Proof.
  intros Hne Hwf. destruct fields as [|f fields]; [congruence |].
  unfold parseCSVLine. rewrite parseCSVLoop_fields by assumption. reflexivity.
Qed.

Lemma X19_witness :
  parseCSVLine ($"name," ++ [quoteChar] ++ $"Doe, Jane" ++ [quoteChar] ++ $",42")
  = [ $"name"; $"Doe, Jane"; $"42" ].
Proof.
  apply (X19_parseCSVLine_reads_back [Bare $"name"; Quoted $"Doe, Jane"; Bare $"42"]).
  - discriminate.
  - repeat constructor; vm_compute; intuition discriminate.
Defined.

(** ** Formats without a parser *)

Section UnsupportedFormats.

Variable textParser markdownParser csvParser : DocumentParser.
Variable extname : string -> string.
Variable store : VectorStore.
Variable provider : EmbeddingProvider.
Variable cfg : RagConfig.
Variable uuidv4 : nat -> string.
Variable basename : string -> string.

Lemma getParserForFile_pdf (filePath : string) :
  lowerExtension extname filePath = ".pdf"%string ->
  getParserForFile textParser markdownParser csvParser extname filePath = PDFParser.
Proof. intros H. unfold getParserForFile. rewrite H. reflexivity. Qed.

Lemma getParserForFile_docx (filePath : string) :
  lowerExtension extname filePath = ".docx"%string
  \/ lowerExtension extname filePath = ".doc"%string ->
  getParserForFile textParser markdownParser csvParser extname filePath = DocxParser.
Proof. intros [H | H]; unfold getParserForFile; rewrite H; reflexivity. Qed.

(** X20.  A file whose extension is [.pdf], [.docx] or [.doc], in any letter
    case, cannot be ingested, from a path or from a buffer: the parser
    chosen for it rejects without reading anything, and the ingestion
    resolves with the status [failed], an empty document id and the parser's
    message, having created no document and changed nothing. *)
Theorem X20_ingesting_pdf_or_docx_fails
        (filePath user : string) (buffer : list ascii)
        (options : option PartialChunkOptions) (w : World) :
  (lowerExtension extname filePath = ".pdf"%string ->
   parseDocument textParser markdownParser csvParser extname filePath w
   = (Throw pdfMessage, w)
   /\ ingestDocument store provider cfg
                     (parseDocument textParser markdownParser csvParser extname)
                     uuidv4 basename filePath user options w
      = (Ok (mkIngestionResult "" 0 failed (Some [pdfMessage])), w)
   /\ ingestDocumentFromBuffer
        store provider cfg
        (parseDocumentFromBuffer textParser markdownParser csvParser extname)
        uuidv4 buffer filePath user options w
      = (Ok (mkIngestionResult "" 0 failed (Some [pdfMessage])), w))
  /\ (lowerExtension extname filePath = ".docx"%string
      \/ lowerExtension extname filePath = ".doc"%string ->
      parseDocument textParser markdownParser csvParser extname filePath w
      = (Throw docxMessage, w)
      /\ ingestDocument store provider cfg
                        (parseDocument textParser markdownParser csvParser extname)
                        uuidv4 basename filePath user options w
         = (Ok (mkIngestionResult "" 0 failed (Some [docxMessage])), w)
      /\ ingestDocumentFromBuffer
           store provider cfg
           (parseDocumentFromBuffer textParser markdownParser csvParser extname)
           uuidv4 buffer filePath user options w
         = (Ok (mkIngestionResult "" 0 failed (Some [docxMessage])), w)).
Proof.
  split.
  - intros H.
    assert (Hp : parseDocument textParser markdownParser csvParser extname filePath w
                 = (Throw pdfMessage, w)).
    { unfold parseDocument. rewrite getParserForFile_pdf by assumption. reflexivity. }
    split; [exact Hp |]. split; [apply ingestDocument_parse_failure, Hp |].
    unfold ingestDocumentFromBuffer, tryCatch, parseDocumentFromBuffer.
    rewrite getParserForFile_pdf by assumption. reflexivity.
  - intros H.
    assert (Hp : parseDocument textParser markdownParser csvParser extname filePath w
                 = (Throw docxMessage, w)).
    { unfold parseDocument. rewrite getParserForFile_docx by assumption. reflexivity. }
    split; [exact Hp |]. split; [apply ingestDocument_parse_failure, Hp |].
    unfold ingestDocumentFromBuffer, tryCatch, parseDocumentFromBuffer.
    rewrite getParserForFile_docx by assumption. reflexivity.
Qed.

End UnsupportedFormats.

(** ** Batches *)

Lemma slice_window {A} (l : list A) (i step : nat) :
  slice l (Z.of_nat i) (Z.of_nat i + Z.of_nat step) = firstn step (skipn i l).
Proof.
  unfold slice, relIndex.
  destruct (Z.ltb_spec (Z.of_nat i) 0) as [H | _]; [lia |].
  destruct (Z.ltb_spec (Z.of_nat i + Z.of_nat step) 0) as [H | _]; [lia |].
  rewrite Nat2Z.id. replace (Z.to_nat (Z.of_nat i + Z.of_nat step)) with (i + step)%nat by lia.
  destruct (Nat.le_gt_cases (length l) i) as [Hout | Hin].
  - rewrite !skipn_all2 by lia. rewrite !firstn_nil. reflexivity.
  - rewrite (Nat.min_l i) by lia.
    destruct (Nat.le_gt_cases (i + step) (length l)) as [Hfit | Hcut].
    + rewrite Nat.min_l by lia. f_equal. lia.
    + rewrite Nat.min_r by lia.
      rewrite !firstn_all2; [reflexivity | |]; rewrite length_skipn; lia.
Qed.

(** The slices taken by a loop [for (i = 0; i < l.length; i += step)]
    are the list, cut into consecutive pieces. *)
Lemma windows_concat {A} (l : list A) (step : nat) :
  (0 < step)%nat ->
  forall fuel i,
    (length l - i <= fuel)%nat ->
    concat (map (fun j => slice l (Z.of_nat j) (Z.of_nat j + Z.of_nat step))
                (countFrom fuel i step (length l)))
    = skipn i l.
Proof.
  intros Hstep. induction fuel as [|fuel IH]; intros i Hf.
  - simpl. rewrite skipn_all2 by lia. reflexivity.
  - cbn [countFrom]. destruct (Nat.ltb_spec i (length l)) as [Hin | Hout].
    + cbn [map concat]. rewrite IH by lia. rewrite slice_window.
      transitivity (firstn step (skipn i l) ++ skipn step (skipn i l));
        [| apply firstn_skipn].
      f_equal. rewrite skipn_skipn. f_equal. lia.
    + simpl. rewrite skipn_all2 by lia. reflexivity.
Qed.

Lemma batches_concat {A} (l : list A) (step : nat) :
  (0 < step)%nat ->
  concat (map (fun j => slice l (Z.of_nat j) (Z.of_nat j + Z.of_nat step))
              (batchStarts step (length l)))
  = l.
Proof.
  intros Hstep. unfold batchStarts.
  rewrite (windows_concat l step Hstep (length l) 0%nat) by lia. reflexivity.
Qed.

Lemma countFrom_below (step n : nat) :
  forall fuel i, Forall (fun j => (j < n)%nat) (countFrom fuel i step n).
Proof.
  induction fuel as [|fuel IH]; intros i; cbn [countFrom]; [constructor |].
  destruct (Nat.ltb_spec i n); [constructor; [assumption | apply IH] | constructor].
Qed.

Section EmbedResults.

Variable api : EmbeddingsApi.
Variable model : string.
Variable batch : nat.
Variable texts : list jstring.

(** What a run of the loop that resolves returns: the results there
    were, then one result per vector of each answer, in order. *)
Lemma openaiEmbedLoop_results :
  forall starts results w out w',
    openaiEmbedLoop api model batch texts starts results w = (Ok out, w') ->
    exists responses,
      Forall2 (fun i response =>
                 exists n, api n (subBatch batch texts i) = Ok response)
              starts responses
      /\ out = results
               ++ concat (map (fun response =>
                                 map (toResult model response) (data response))
                              responses).
Proof.
  induction starts as [|i starts IH]; intros results w out w' H.
  - inversion H; subst. exists []. split; [constructor |].
    simpl. rewrite app_nil_r. reflexivity.
  - rewrite openaiEmbedLoop_unfold in H.
    destruct (api (length (requests w)) (subBatch batch texts i)) as [response|m|] eqn:E;
      try discriminate.
    apply IH in H. destruct H as (responses & Hall & ->).
    exists (response :: responses). split.
    + constructor; [eauto | exact Hall].
    + cbn [map concat]. rewrite <- !app_assoc. reflexivity.
Qed.

End EmbedResults.

(** X21.  When [embed] of the OpenAI provider resolves, the requests it made
    carry every text exactly once and in order, each request between 1 and
    2048 texts; and when the service answers every request with one vector
    per input, [embed] returns one result per text. *)
Theorem X21_openai_embed_covers_every_text
        (api : EmbeddingsApi) (model : string) (texts : list jstring)
        (w : World) (out : list EmbeddingResult) (w' : World) :
  embed (OpenAIEmbeddingProvider api model) texts w = (Ok out, w') ->
  (exists sent,
      requests w' = requests w ++ sent
      /\ concat sent = texts
      /\ Forall (fun request => (0 < length request <= 2048)%nat) sent)
  /\ ((forall n input response,
          api n input = Ok response -> length (data response) = length input) ->
      length out = length texts).
Proof.
  cbn [embed OpenAIEmbeddingProvider]. unfold openaiEmbed. intros H.
  split.
  - destruct (openaiEmbedLoop_ok api model 2048 texts _ _ _ _ _ H) as [Hr _].
    exists (map (subBatch 2048 texts) (batchStarts 2048 (length texts))).
    split; [exact Hr |]. split.
    + apply (batches_concat texts 2048). lia.
    + rewrite Forall_forall. intros request Hin.
      apply in_map_iff in Hin. destruct Hin as (i & <- & Hi).
      pose proof (countFrom_below 2048 (length texts) (length texts) 0) as Hb.
      rewrite Forall_forall in Hb. specialize (Hb i Hi).
      unfold subBatch. rewrite slice_window, length_firstn, length_skipn. lia.
  - intros Hone.
    destruct (openaiEmbedLoop_results api model 2048 texts _ _ _ _ _ H)
      as (responses & Hall & ->).
    cbn [app].
    transitivity (length (concat (map (subBatch 2048 texts)
                                      (batchStarts 2048 (length texts)))));
      [| exact (f_equal (@length jstring)
                        (batches_concat texts 2048 ltac:(lia)))].
    generalize (batchStarts 2048 (length texts)) Hall.
    clear H Hall. intros starts Hall.
    induction Hall as [|i response starts responses (n & Hn) _ IH]; [reflexivity |].
    cbn [map concat]. rewrite !length_app, length_map, IH.
    rewrite (Hone _ _ _ Hn). reflexivity.
Qed.

Lemma X21_witness :
  length (match fst (embed (OpenAIEmbeddingProvider alwaysEmbeds "m") manyTexts
                                  noDocuments) with
          | Ok out => out
          | _ => []
          end)
  = length manyTexts.
Proof.
  refine (proj2 (X21_openai_embed_covers_every_text
                   alwaysEmbeds "m" manyTexts noDocuments _
                   (snd (embed (OpenAIEmbeddingProvider alwaysEmbeds "m") manyTexts
                               noDocuments))
                   _) _).
  - vm_compute. reflexivity.
  - intros n input response H. inversion H; subst. cbn [data embedAll].
    apply length_map.
Defined.

(** ** The document row after processing *)

Lemma find_updated (id : string) (change : DocumentRow -> DocumentRow)
      (rows : list DocumentRow) (d0 : DocumentRow) :
  (forall d, doc_id (change d) = doc_id d) ->
  find (fun d => String.eqb (doc_id d) id) rows = Some d0 ->
  find (fun d => String.eqb (doc_id d) id)
       (map (fun d => if String.eqb (doc_id d) id then change d else d) rows)
  = Some (change d0).
Proof.
  intros Hid. induction rows as [|d rows IH]; simpl; [discriminate |].
  destruct (String.eqb (doc_id d) id) eqn:E.
  - intros H. inversion H; subst. rewrite Hid, E. reflexivity.
  - rewrite E. exact IH.
Qed.

Lemma updateDocumentStatus_Ok (id : string) (st : DocStatus) (count : option Z)
      (w w' : World) :
  updateDocumentStatus id st count w = (Ok tt, w') ->
  chunkRows w' = chunkRows w
  /\ exists d, findDocument w' id = Some d
               /\ doc_status d = st /\ doc_embeddingStatus d = st.
Proof.
  unfold updateDocumentStatus, documentUpdate.
  destruct (findDocument w id) as [d0|] eqn:E; [| discriminate].
  intros H. inversion H; subst; clear H. split; [reflexivity |].
  eexists. split.
  - unfold findDocument in *. cbn [documents setDocuments].
    apply find_updated; [reflexivity | exact E].
  - split; reflexivity.
Qed.

Lemma onError_inv (id : string) (errs : list string) (message : string)
      (w : World) (r : IngestionResult) (w' : World) :
  onError id errs message w = (Ok r, w') ->
  r = mkIngestionResult id 0 failed (Some (errs ++ [message]))
  /\ exists d, findDocument w' id = Some d
               /\ doc_status d = FAILED /\ doc_embeddingStatus d = FAILED.
Proof.
  unfold onError, bind, ret.
  destruct (updateDocumentStatus id FAILED None w) as [[[]| |] w1] eqn:E;
    try discriminate.
  intros H. inversion H; subst. split; [reflexivity |].
  exact (proj2 (updateDocumentStatus_Ok _ _ _ _ _ E)).
Qed.

Section Persist.

Variable store : VectorStore.

Lemma persist_inv (id : string) (parsed : ParsedDocument)
      (allEmbeddings : list Embedded) (w w' : World) :
  persist store id parsed allEmbeddings w = (Ok tt, w') ->
  exists records w1 w2 w3,
    toVectorRecords id (title parsed) allEmbeddings w = (Ok records, w1)
    /\ upsert store records w1 = (Ok tt, w2)
    /\ forEach records chunkUpsert w2 = (Ok tt, w3)
    /\ updateDocumentStatus id COMPLETED (Some (len allEmbeddings)) w3 = (Ok tt, w').
Proof.
  unfold persist, bind.
  destruct (toVectorRecords id (title parsed) allEmbeddings w)
    as [[records| |] w1] eqn:E1; try discriminate.
  destruct (upsert store records w1) as [[[]| |] w2] eqn:E2; try discriminate.
  destruct (forEach records chunkUpsert w2) as [[[]| |] w3] eqn:E3; try discriminate.
  intros H. exists records, w1, w2, w3. auto.
Qed.

End Persist.

(** How [processDocument] can resolve: through the zero-chunks branch
    or the [catch] block, with the status [failed], or through the end
    of the [try] block. *)
Lemma processDocument_inv
      (store : VectorStore) (provider : EmbeddingProvider) (cfg : RagConfig)
      (id : string) (parsed : ParsedDocument) (options : option PartialChunkOptions)
      (w : World) (r : IngestionResult) (w' : World) :
  processDocument store provider cfg id parsed options w = (Ok r, w') ->
  (status r = failed
   /\ documentId r = id
   /\ chunksCount r = 0
   /\ exists d, findDocument w' id = Some d
                /\ doc_status d = FAILED /\ doc_embeddingStatus d = FAILED)
  \/ (exists chunks allEmbeddings errs w1,
         chunkText (pd_content parsed) (chunkingConfigOf cfg options) = Some chunks
         /\ embedBatches provider id chunks (batchStarts batchSize (length chunks))
                         ([], []) w
            = (Ok allEmbeddings, errs, w1)
         /\ persist store id parsed allEmbeddings w1 = (Ok tt, w')
         /\ r = mkIngestionResult id (len allEmbeddings)
                  (match errs with [] => success | _ => partial end)
                  (someIfNonEmpty errs)).
Proof.
  unfold processDocument.
  destruct (chunkText (pd_content parsed) (chunkingConfigOf cfg options))
    as [[|c chunks]|] eqn:Ec; [| | discriminate].
  - unfold tryCatch, bind, ret.
    destruct (updateDocumentStatus id FAILED None w) as [[[]|message|] w1] eqn:E;
      try discriminate.
    + intros H. inversion H; subst. left. simpl. repeat split.
      exact (proj2 (updateDocumentStatus_Ok _ _ _ _ _ E)).
    + intros H. apply onError_inv in H. destruct H as [-> Hd]. left. simpl. auto.
  - destruct (embedBatches provider id (c :: chunks) _ ([], []) w)
      as [[[allEmbeddings|message|] errs] w1] eqn:Eb; try discriminate.
    + unfold tryCatch.
      destruct ((persist store id parsed allEmbeddings ;;; _) w1)
        as [[r0|message|] w2] eqn:Ep; try discriminate.
      * intros H. inversion H; subst. right.
        unfold bind, ret in Ep.
        destruct (persist store id parsed allEmbeddings w1) as [[[]| |] w3] eqn:E3;
          try discriminate.
        inversion Ep; subst.
        exists (c :: chunks), allEmbeddings, errs, w1. auto.
      * intros H. apply onError_inv in H. destruct H as [-> Hd]. left. simpl. auto.
    + intros H. apply onError_inv in H. destruct H as [-> Hd]. left. simpl. auto.
Qed.

(** X22.  When [processDocument] resolves, whatever the vector store and the
    embedding provider do, the result carries the document id it was given,
    the document row exists and its status and embedding status agree with
    the result: FAILED for the status [failed] (reported with a count of 0),
    COMPLETED for [success] and [partial]. *)
Theorem X22_processDocument_marks_document
        (store : VectorStore) (provider : EmbeddingProvider) (cfg : RagConfig)
        (id : string) (parsed : ParsedDocument) (options : option PartialChunkOptions)
        (w : World) (r : IngestionResult) (w' : World) :
  processDocument store provider cfg id parsed options w = (Ok r, w') ->
  documentId r = id
  /\ (status r = failed -> chunksCount r = 0)
  /\ exists d,
      findDocument w' id = Some d
      /\ doc_status d = rowStatus (status r)
      /\ doc_embeddingStatus d = rowStatus (status r).
Proof.
  intros H. apply processDocument_inv in H.
  destruct H as [(Hs & Hid & Hc & d & Hd & H1 & H2)
                | (chunks & embs & errs & w1 & Hc & Hb & Hp & ->)].
  - split; [exact Hid |]. split; [auto |].
    exists d. rewrite Hs. auto.
  - split; [reflexivity |]. split; [destruct errs; discriminate |].
    apply persist_inv in Hp.
    destruct Hp as (records & w2 & w3 & w4 & _ & _ & _ & Hu).
    destruct (updateDocumentStatus_Ok _ _ _ _ _ Hu) as (_ & d & Hd & H1 & H2).
    exists d. cbn [status]. destruct errs; auto.
Qed.

Lemma X22_witness :
  exists d,
    findDocument (after sampleProcessing) "doc-0" = Some d
    /\ doc_status d = rowStatus (status sampleResult)
    /\ doc_embeddingStatus d = rowStatus (status sampleResult).
Proof.
  refine (proj2 (proj2 (X22_processDocument_marks_document
                          (InternalVectorStore 1536)
                          (OpenAIEmbeddingProvider alwaysEmbeds "text-embedding-3-small")
                          defaultRagConfig "doc-0" sampleParsed None processingDocument
                          sampleResult (after sampleProcessing) _))).
  vm_compute. reflexivity.
Defined.

(** ** The rows an ingestion stores *)

Lemma text_of_nat_inj (n m : nat) : text_of_nat n = text_of_nat m -> n = m.
Proof.
  unfold text_of_nat. intros H.
  apply (f_equal NilEmpty.uint_of_string) in H.
  rewrite !NilEmpty.usu in H. inversion H as [H'].
  apply (f_equal Nat.of_uint) in H'. rewrite !Unsigned.of_to in H'. exact H'.
Qed.

Lemma append_inj_l (p a b : string) : (p ++ a = p ++ b)%string -> a = b.
Proof. induction p as [|c p IH]; simpl; intros H; [exact H |]. inversion H. auto. Qed.

Lemma recordId_inj (documentId : string) (c c' : TextChunk) :
  recordId documentId c = recordId documentId c' -> index c = index c'.
Proof.
  unfold recordId. intros H. apply append_inj_l in H.
  apply (append_inj_l "-chunk-") in H. apply text_of_nat_inj, H.
Qed.

Lemma chunkText_indices_sorted (text : jstring) (options : PartialChunkOptions)
      (out : list TextChunk) :
  chunkText text options = Some out -> StronglySorted lt (map index out).
Proof.
  intros H.
  destruct (chunkText_indexed text options out H) as (pre & Hpre & Hout).
  destruct (mergeSmallChunks_keys index (fun _ _ => eq_refl) pre
              (minChunkSize (effectiveOptions options))) as [Hsub _].
  rewrite <- Hout in Hsub.
  eapply Subseq_sorted; [exact Hsub |]. rewrite Hpre. apply seq_StronglySorted.
Qed.

Lemma sorted_NoDup (l : list nat) : StronglySorted lt l -> NoDup l.
Proof.
  induction 1 as [|x l _ IH Hx]; constructor; [| exact IH].
  intros Hin. rewrite Forall_forall in Hx. specialize (Hx x Hin). lia.
Qed.

Lemma Subseq_app {A} (s1 l1 s2 l2 : list A) :
  Subseq s1 l1 -> Subseq s2 l2 -> Subseq (s1 ++ s2) (l1 ++ l2).
Proof. induction 1; simpl; intros H2; auto using Subseq_keep, Subseq_drop. Qed.

(** The chunks of the entries [attach] makes are the first chunks of the
    batch. *)
Lemma attach_chunks (batch : list TextChunk) (results : list EmbeddingResult) :
  forall j,
    Subseq (filterMap fst (mapi (fun r k => (nth_error batch k, embedding r))
                                results j))
           (skipn j batch).
Proof.
  induction results as [|r results IH]; intros j; cbn [mapi filterMap fst].
  - apply Subseq_nil_l.
  - destruct (nth_error batch j) as [c|] eqn:E.
    + assert (Hs : skipn j batch = c :: skipn (S j) batch).
      { clear IH. revert j E. induction batch as [|b batch IHb]; intros [|j] E;
          simpl in *; try discriminate.
        - inversion E; reflexivity.
        - apply IHb, E. }
      rewrite Hs. apply Subseq_keep, IH.
    + apply nth_error_None in E.
      specialize (IH (S j)). rewrite skipn_all2 in IH by lia.
      rewrite skipn_all2 by lia. exact IH.
Qed.

Section StoredChunks.

Variable provider : EmbeddingProvider.
Variable id : string.
Variable chunks : list TextChunk.

(** What the batch loop has added to [allEmbeddings] when it ends: for
    chunks of the batches it went through, in order. *)
Lemma embedBatches_chunks :
  forall starts st w embs errs w',
    embedBatches provider id chunks starts st w = (Ok embs, errs, w') ->
    exists added,
      embs = fst st ++ added
      /\ Subseq (filterMap fst added) (concat (map (batchAt chunks) starts)).
Proof.
  induction starts as [|i starts IH]; intros st w embs errs w' H; cbn [embedBatches] in H.
  - inversion H; subst. exists []. rewrite app_nil_r. split; [reflexivity | constructor].
  - rewrite embedAttempt_cases in H.
    destruct (embed provider (map content (batchAt chunks i)) w)
      as [[results|message|] w1]; try discriminate.
    + destruct (reportProgress id chunks i w1) as [[[]| |] w2]; try discriminate.
      apply IH in H. destruct H as (added & -> & Hsub). cbn [fst] in *.
      exists (attach (batchAt chunks i) results ++ added).
      rewrite <- app_assoc. split; [reflexivity |].
      cbn [map concat].
      assert (Hf : forall (a b : list Embedded),
                 filterMap fst (a ++ b) = filterMap fst a ++ filterMap fst b).
      { induction a as [|[[c|] e] a IHa]; intros b; simpl; rewrite ?IHa; reflexivity. }
      rewrite Hf. apply Subseq_app; [| exact Hsub].
      exact (attach_chunks (batchAt chunks i) results 0).
    + destruct (reportProgress id chunks i w1) as [[[]| |] w2]; try discriminate.
      apply IH in H. destruct H as (added & -> & Hsub). cbn [fst] in *.
      exists added. split; [reflexivity |].
      cbn [map concat].
      apply (Subseq_app [] (batchAt chunks i)); [apply Subseq_nil_l | exact Hsub].
Qed.

End StoredChunks.

(** When the records can be built, every entry has its chunk and the
    records are those of the entries, in order. *)
Lemma toVectorRecords_Ok (id : string) (name : option string) :
  forall (l : list Embedded) w records w',
    toVectorRecords id name l w = (Ok records, w') ->
    w' = w
    /\ exists pairs,
        l = map (fun e => (Some (fst e), snd e)) pairs
        /\ records = map (recordOf id name) pairs.
Proof.
  induction l as [|[[c|] e] l IH]; intros w records w' H; cbn [toVectorRecords] in H.
  - inversion H; subst. split; [reflexivity |]. exists []. auto.
  - unfold bind, ret in H.
    destruct (toVectorRecords id name l w) as [[rest| |] w1] eqn:E; try discriminate.
    inversion H; subst. destruct (IH _ _ _ E) as (-> & pairs & -> & ->).
    split; [reflexivity |]. exists ((c, e) :: pairs). split; reflexivity.
  - discriminate.
Qed.

Lemma filterMap_pairs (pairs : list (TextChunk * list float)) :
  filterMap fst (map (fun e => (Some (fst e), snd e)) pairs) = map fst pairs.
Proof. induction pairs as [|p pairs IH]; simpl; [| rewrite IH]; reflexivity. Qed.

Lemma lastRecord_unique (id : string) (name : option string)
      (pairs : list (TextChunk * list float)) :
  NoDup (map (fun e => index (fst e)) pairs) ->
  forall e, In e pairs ->
            lastRecord (recordId id (fst e)) (map (recordOf id name) pairs)
            = Some (recordOf id name e).
Proof.
  induction pairs as [|p pairs IH]; intros Hn e Hin; [contradiction |].
  inversion Hn as [|? ? Hnotin Hn']; subst. cbn [map lastRecord].
  destruct Hin as [-> | Hin].
  - assert (Hnone : lastRecord (recordId id (fst e)) (map (recordOf id name) pairs) = None).
    { clear IH Hn Hn'. induction pairs as [|q pairs IHp]; [reflexivity |].
      cbn [map lastRecord]. rewrite IHp.
      - cbn [vr_id recordOf].
        destruct (String.eqb_spec (recordId id (fst q)) (recordId id (fst e))) as [He | _];
          [| reflexivity].
        exfalso. apply Hnotin. left. apply recordId_inj in He. exact He.
      - intros H. apply Hnotin. right. exact H. }
    rewrite Hnone. cbn [vr_id recordOf]. rewrite String.eqb_refl. reflexivity.
  - rewrite (IH Hn' e Hin). reflexivity.
Qed.

(** X23.  With the internal store, when [processDocument] resolves with a
    status other than [failed], the chunks that were embedded are chunks of
    the text, in order; the reported count is their number; their record ids
    are pairwise different; and each of them is found in the chunk table
    under its id, with its content and index, and without an embedding
    vector in its metadata. *)
Theorem X23_ingested_chunks_are_stored
        (dimension : Z) (provider : EmbeddingProvider) (cfg : RagConfig)
        (id : string) (parsed : ParsedDocument) (options : option PartialChunkOptions)
        (w : World) (r : IngestionResult) (w' : World) :
  processDocument (InternalVectorStore dimension) provider cfg id parsed options w
  = (Ok r, w') ->
  status r <> failed ->
  exists chunks embedded,
    chunkText (pd_content parsed) (chunkingConfigOf cfg options) = Some chunks
    /\ Subseq embedded chunks
    /\ chunksCount r = len embedded
    /\ NoDup (map (recordId id) embedded)
    /\ Forall (fun c =>
                 exists row,
                   lookupRow (recordId id c) (chunkRows w') = Some row
                   /\ row_content row = content c
                   /\ row_chunkIndex row = index c
                   /\ storedVector row = None)
              embedded.
Proof.
  intros H Hnf. apply processDocument_inv in H.
  destruct H as [(Hs & _) | (chunks & embs & errs & w1 & Hc & Hb & Hp & Hr)];
    [contradiction |].
  apply persist_inv in Hp.
  destruct Hp as (records & w2 & w3 & w4 & Hrec & Hup1 & Hup2 & Hst).
  apply toVectorRecords_Ok in Hrec. destruct Hrec as (-> & pairs & Hembs & Hrecords).
  destruct (embedBatches_chunks provider id chunks _ _ _ _ _ _ Hb)
    as (added & Hadded & Hsub).
  cbn [fst app] in Hadded. subst added.
  assert (Hall : concat (map (batchAt chunks)
                              (batchStarts batchSize (length chunks))) = chunks)
    by exact (batches_concat chunks batchSize ltac:(unfold batchSize; lia)).
  rewrite Hall in Hsub.
  rewrite Hembs, filterMap_pairs in Hsub.
  assert (Hsorted : StronglySorted lt (map index (map fst pairs))).
  { eapply Subseq_sorted; [apply Subseq_map, Hsub |].
    exact (chunkText_indices_sorted _ _ _ Hc). }
  assert (Hnodup : NoDup (map (fun e => index (fst e)) pairs)).
  { rewrite map_map in Hsorted. apply sorted_NoDup, Hsorted. }
  exists chunks, (map fst pairs).
  split; [exact Hc |]. split; [exact Hsub |]. split.
  { subst r embs. cbn [chunksCount]. unfold len. rewrite !length_map. reflexivity. }
  split.
  { assert (Hinj : forall l : list TextChunk,
               NoDup (map index l) -> NoDup (map (recordId id) l)).
    { induction l as [|c l IHl]; intros Hl; [constructor |].
      inversion Hl as [|? ? Hni Hl']; subst. cbn [map]. constructor; [| auto].
      intros Hin. apply in_map_iff in Hin. destruct Hin as (c' & He & Hc').
      apply Hni. apply recordId_inj in He. rewrite <- He.
      apply in_map. exact Hc'. }
    apply Hinj. rewrite map_map. exact Hnodup. }
  cbn [upsert InternalVectorStore] in Hup1.
  change (forEach records chunkUpsert) with (internalUpsert records) in Hup2.
  destruct (internalUpsert_lookup records _ _ Hup2) as (_ & _ & Hrows).
  destruct (updateDocumentStatus_Ok _ _ _ _ _ Hst) as [Hsame _].
  rewrite Forall_forall. intros c Hin.
  apply in_map_iff in Hin. destruct Hin as (e & <- & He).
  specialize (Hrows (recordId id (fst e))).
  rewrite Hrecords, (lastRecord_unique id (title parsed) pairs Hnodup e He) in Hrows.
  destruct Hrows as (row & Hrow & _ & Hcontent & Hindex & Hmeta).
  exists row. rewrite Hsame. split; [exact Hrow |].
  split; [exact Hcontent |]. split; [exact Hindex |].
  unfold storedVector. rewrite (Hmeta _ eq_refl). reflexivity.
Qed.

Lemma X23_witness :
  exists chunks embedded,
    chunkText (pd_content sampleParsed) (chunkingConfigOf defaultRagConfig None)
    = Some chunks
    /\ Subseq embedded chunks
    /\ chunksCount sampleResult = len embedded
    /\ NoDup (map (recordId "doc-0") embedded)
    /\ Forall (fun c =>
                 exists row,
                   lookupRow (recordId "doc-0" c) (chunkRows (after sampleProcessing))
                   = Some row
                   /\ row_content row = content c
                   /\ row_chunkIndex row = index c
                   /\ storedVector row = None)
              embedded.
Proof.
  apply (X23_ingested_chunks_are_stored
           1536 (OpenAIEmbeddingProvider alwaysEmbeds "text-embedding-3-small")
           defaultRagConfig "doc-0" sampleParsed None processingDocument
           sampleResult (after sampleProcessing)).
  - vm_compute. reflexivity.
  - discriminate.
Defined.

(** ** Retrieval over chunks stored without a vector *)

Lemma positive_not_below_zero (t : float) :
  (0 <? t)%float = true -> (t <=? 0)%float = false.
Proof.
  rewrite ltb_spec, leb_spec.
  change (Prim2SF 0) with (SpecFloat.S754_zero false).
  destruct (Prim2SF t) as [s|s| |s m e]; unfold SFltb, SFleb, SpecFloat.SFltb,
    SpecFloat.SFleb, SpecFloat.SFcompare; try discriminate;
    destruct s; intros H; try discriminate; reflexivity.
Qed.

Lemma openaiEmbedSingle_rows (api : EmbeddingsApi) (model : string) (text : jstring)
      (w : World) (r : Result EmbeddingResult) (w1 : World) :
  openaiEmbedSingle api model text w = (r, w1) ->
  chunkRows w1 = chunkRows w.
Proof.
  unfold openaiEmbedSingle, bind, embeddingsCreate.
  destruct (api (length (requests w)) [text]) as [response| |].
  - destruct (data response); intros H; inversion H; reflexivity.
  - intros H; inversion H; reflexivity.
  - intros H; inversion H; reflexivity.
Qed.

Lemma filter_none {A} (f : A -> bool) (l : list A) :
  (forall x, In x l -> f x = false) -> List.filter f l = [].
Proof.
  induction l as [|x l IH]; intros H; simpl; [reflexivity |].
  rewrite (H x (or_introl eq_refl)). apply IH. intros y Hy. apply H. right. exact Hy.
Qed.

(** X24.  With the internal store and the OpenAI provider, when no stored
    chunk carries an [embeddingVector] in its metadata (which is how
    [processDocument] stores them) and the similarity threshold in force is
    positive, a retrieval that resolves returns no chunk, whatever the
    query. *)
Theorem X24_chunks_without_vector_are_never_retrieved
        (dimension : Z) (api : EmbeddingsApi) (model : string) (cfg : RagConfig)
        (options : RetrievalOptions) (w : World) (r : RetrievalResult) (w' : World) :
  (forall c, In c (chunkRows w) -> storedVector c = None) ->
  (0 <? effectiveThreshold (internalRetriever dimension api model cfg) options)%float
  = true ->
  retrieve (internalRetriever dimension api model cfg) options w = (Ok r, w') ->
  rr_chunks r = [].
Proof.
  intros Hrows Ht H.
  destruct (orElse (useRag options) true) eqn:Erag.
  - destruct (retrieve_inv _ _ _ _ _ Erag H) as (e & w1 & results & w2 & He & Hs & Hc & _).
    rewrite Hc.
    cbn [internalRetriever embeddingProvider vectorStore embedSingle search
         OpenAIEmbeddingProvider InternalVectorStore] in He, Hs.
    apply openaiEmbedSingle_rows in He. cbn [dateNow snd chunkRows] in He.
    apply internalSearch_inv in Hs. destruct Hs as [-> ->].
    unfold selected. rewrite filter_none;
      [unfold slice; rewrite skipn_nil, firstn_nil; reflexivity |].
    intros x Hx.
    apply (Subseq_In _ _ (slice_Subseq _ _ _)) in Hx.
    apply sortBy_In in Hx. apply in_map_iff in Hx.
    destruct Hx as ([c d] & <- & Hin).
    apply joined_rows in Hin. destruct Hin as (Hc' & _ & _).
    rewrite He in Hc'.
    rewrite scoreChunk_score. cbn [fst]. rewrite (Hrows c Hc').
    apply positive_not_below_zero, Ht.
  - unfold retrieve, bind, dateNow, ret in H. rewrite Erag in H. cbn [negb] in H.
    inversion H; subst. reflexivity.
Qed.

Lemma X24_witness :
  rr_chunks (resolvedWith (retrieve (internalRetriever 1536 alwaysEmbeds "m" defaultRagConfig)
                                    (askTopK None) (after sampleProcessing)))
  = [].
Proof.
  apply (X24_chunks_without_vector_are_never_retrieved
           1536 alwaysEmbeds "m" defaultRagConfig (askTopK None)
           (after sampleProcessing) _
           (after (retrieve (internalRetriever 1536 alwaysEmbeds "m" defaultRagConfig)
                            (askTopK None) (after sampleProcessing)))).
  - intros c Hc. vm_compute in Hc. destruct Hc as [<- | []]. reflexivity.
  - vm_compute. reflexivity.
  - vm_compute. reflexivity.
Defined.

(** ** Blank texts *)

Lemma dropWhile_all {A} (p : A -> bool) (l : list A) :
  Forall (fun x => p x = true) l -> dropWhile p l = [].
Proof. induction 1 as [|x l Hx _ IH]; simpl; [reflexivity |]. rewrite Hx. exact IH. Qed.

Lemma trim_blank (s : jstring) : blank s -> trim s = [].
Proof. intros H. unfold trim. rewrite (dropWhile_all _ _ H). reflexivity. Qed.

Lemma foldM_skips {A B} (f : A -> B -> option A) (l : list B) (a : A) :
  Forall (fun x => f a x = Some a) l -> foldM f l a = Some a.
Proof. induction 1 as [|x l Hx _ IH]; simpl; [reflexivity |]. rewrite Hx. exact IH. Qed.

Lemma blank_pieces (matchAt : option ascii -> jstring -> nat) (text : jstring) :
  blank text -> Forall blank (split matchAt text).
Proof.
  intros H. unfold split.
  exact (splitBy_chars matchAt _ text None 0%nat [] H (Forall_nil _)).
Qed.

Lemma chunkByParagraph_blank (text : jstring) (options : ChunkOptions) :
  blank text -> chunkByParagraph text options = Some [].
Proof.
  intros H. unfold chunkByParagraph. rewrite foldM_skips; [reflexivity |].
  eapply Forall_impl; [| exact (blank_pieces reBlankLines text H)].
  intros piece Hp. unfold paragraphStep. rewrite (trim_blank _ Hp). reflexivity.
Qed.

Lemma chunkBySentence_blank (text : jstring) (options : ChunkOptions) :
  blank text -> chunkBySentence text options = Some [].
Proof.
  intros H. unfold chunkBySentence. rewrite foldM_skips; [reflexivity |].
  eapply Forall_impl; [| exact (blank_pieces reAfterSentence text H)].
  intros piece Hp. unfold sentenceStep. rewrite (trim_blank _ Hp). reflexivity.
Qed.

(** X25.  For a text of white space only, [chunkText] returns no
    chunk with every strategy but the fixed one; [processDocument] then
    makes no embedding request, marks the document FAILED when its row
    exists, and resolves with the status [failed], a count of 0 and the
    single error "No content to chunk". *)
Theorem X25_blank_text_gives_no_chunks
        (store : VectorStore) (provider : EmbeddingProvider) (cfg : RagConfig)
        (id : string) (parsed : ParsedDocument)
        (options : option PartialChunkOptions) (w : World) :
  blank (pd_content parsed) ->
  strategy (effectiveOptions (chunkingConfigOf cfg options)) <> fixed ->
  chunkText (pd_content parsed) (chunkingConfigOf cfg options) = Some []
  /\ (findDocument w id <> None ->
      exists w',
        processDocument store provider cfg id parsed options w
        = (Ok (mkIngestionResult id 0 failed (Some ["No content to chunk"%string])), w')
        /\ requests w' = requests w
        /\ chunkRows w' = chunkRows w
        /\ exists d, findDocument w' id = Some d
                     /\ doc_status d = FAILED /\ doc_embeddingStatus d = FAILED).
Proof.
  intros Hb Hs.
  assert (Hc : chunkText (pd_content parsed) (chunkingConfigOf cfg options) = Some []).
  { unfold chunkText.
    destruct (strategy (effectiveOptions (chunkingConfigOf cfg options)));
      [congruence | | |];
      first [apply chunkByParagraph_blank, Hb | apply chunkBySentence_blank, Hb]. }
  split; [exact Hc |].
  intros Hd. unfold processDocument. rewrite Hc. unfold tryCatch, bind, ret.
  destruct (updateDocumentStatus id FAILED None w) as [[[]|message|] w1] eqn:E.
  - exists w1. split; [reflexivity |].
    destruct (updateDocumentStatus_Ok _ _ _ _ _ E) as [Hrows Hdoc].
    split; [| split; [exact Hrows | exact Hdoc]].
    unfold updateDocumentStatus, documentUpdate in E.
    destruct (findDocument w id); inversion E; reflexivity.
  - exfalso. unfold updateDocumentStatus, documentUpdate in E.
    destruct (findDocument w id); [discriminate | congruence].
  - exfalso. unfold updateDocumentStatus, documentUpdate in E.
    destruct (findDocument w id); discriminate.
Qed.

Lemma X25_witness :
  chunkText (pd_content blankParsed) (chunkingConfigOf defaultRagConfig None) = Some [].
Proof.
  refine (proj1 (X25_blank_text_gives_no_chunks
                   (InternalVectorStore 1536)
                   (OpenAIEmbeddingProvider alwaysEmbeds "text-embedding-3-small")
                   defaultRagConfig "doc-0" blankParsed None processingDocument _ _)).
  - repeat constructor.
  - discriminate.
Defined.
